(** * Digital photo album (album.c, demo.c): model and properties

    The album program validates its arguments, then forks one worker
    process per image.  Workers talk over two anonymous pipes (ptp1 for
    the display gate, ptp2 for the turn to write index.html) and call
    ImageMagick through fork/exec.

    The sequential helpers (header_is_img, invalid_img, validate,
    input_string, the rotation decision, the file names) are plain
    functions.  The concurrent part is an interleaving transition system:
    one atomic step per system call of album.c that touches shared state,
    a schedule being the list of which process moves next and what the
    environment answers to it. *)

From Stdlib Require Import ZArith Lia List String Ascii Bool Strings.Byte.
From stdpp Require Import base list.
Import ListNotations.

Local Open Scope string_scope.
Local Open Scope list_scope.

(** ** Image headers (album.c, header_is_img and invalid_img) *)

(** [bytes[i]] for an [unsigned char] array held as a list. *)
Definition at_ (a : list byte) (i : nat) : byte := nth i a x00.

Definition jpg : list byte := [xff; xd8].
Definition png : list byte := [x89; x50; x4e; x47; x0d; x0a; x1a; x0a].
Definition bmp : list byte := [x42; x4d].
Definition gif : list byte := [x47; x49; x46].

Definition header_is_img (bytes : list byte) : bool :=
  (Byte.eqb (at_ bytes 0) (at_ jpg 0) && Byte.eqb (at_ bytes 1) (at_ jpg 1))
  || (Byte.eqb (at_ bytes 0) (at_ png 0) && Byte.eqb (at_ bytes 1) (at_ png 1)
      && Byte.eqb (at_ bytes 2) (at_ png 2) && Byte.eqb (at_ bytes 3) (at_ png 3)
      && Byte.eqb (at_ bytes 4) (at_ png 4) && Byte.eqb (at_ bytes 5) (at_ png 5)
      && Byte.eqb (at_ bytes 6) (at_ png 6) && Byte.eqb (at_ bytes 7) (at_ png 7))
  || (Byte.eqb (at_ bytes 0) (at_ bmp 0) && Byte.eqb (at_ bytes 1) (at_ bmp 1))
  || (Byte.eqb (at_ bytes 0) (at_ gif 0) && Byte.eqb (at_ bytes 1) (at_ gif 1)
      && Byte.eqb (at_ bytes 2) (at_ gif 2)).

(** The files the program can open for reading, with their contents. *)
Definition filesystem := string -> option (list byte).

(** [fread(bytes, 8, 1, fp)] on a freshly opened file: the first eight
    bytes of the file land in [bytes]; where the file is shorter, the rest
    of the array keeps what the stack held ([stack], never initialised by
    invalid_img). *)
Definition fread8 (stack content : list byte) : list byte :=
  take 8 (content ++ drop (length content) stack).

Definition invalid_img (fs : filesystem) (stack : list byte) (path : string) : Z :=
  match fs path with
  | None => (-1)%Z
  | Some content =>
      if negb (header_is_img (fread8 stack content)) then (-1)%Z else 0%Z
  end.

(** ** Argument validation (album.c, validate) *)

Definition nl : string := String "010"%char EmptyString.

Definition usage_msg : string := "Usage: ./album [img]+" ++ nl.

Definition invalid_msg (arg : string) : string :=
  "Error: one (or more) img is not a valid image or path: " ++ arg ++ nl.

(** The loop [for (i = 1; i < argc; i++)] over [argv[i..]]: the first
    argument that invalid_img refuses, if any.  [stack i] is what the
    uninitialised buffer holds at the call for [argv[i]]. *)
Fixpoint validate_loop (fs : filesystem) (stack : nat -> list byte)
    (i : nat) (args : list string) : option string :=
  match args with
  | [] => None
  | arg :: rest =>
      if (invalid_img fs (stack i) arg =? 0)%Z
      then validate_loop fs stack (S i) rest
      else Some arg
  end.

(** [validate(argc, argv)] with [argc = length argv]: the return value and
    what went to stderr. *)
Definition validate (fs : filesystem) (stack : nat -> list byte)
    (argv : list string) : Z * list string :=
  if (Z.of_nat (length argv) <=? 1)%Z then ((-1)%Z, [usage_msg])
  else match validate_loop fs stack 1 (tail argv) with
       | Some arg => ((-1)%Z, [invalid_msg arg])
       | None => (0%Z, [])
       end.

(** ** Reading a line from the user (demo.c, input_string) *)

Definition STRING_LEN : nat := 50.

Definition is_nl (c : ascii) : bool := Ascii.eqb c "010"%char.

(** What strlen and strcmp see of a buffer: the characters before the
    first NUL. *)
Fixpoint cstr (s : string) : string :=
  match s with
  | EmptyString => EmptyString
  | String c rest => if Ascii.eqb c "000"%char then EmptyString else String c (cstr rest)
  end.

(** [fgets]: at most [n] characters, stopping after a newline; returns the
    characters stored and the input left. *)
Fixpoint fgets_chars (n : nat) (input : string) : string * string :=
  match n with
  | O => (EmptyString, input)
  | S n' =>
      match input with
      | EmptyString => (EmptyString, EmptyString)
      | String c rest =>
          if is_nl c then (String c EmptyString, rest)
          else let '(got, unread) := fgets_chars n' rest in (String c got, unread)
      end
  end.

(** [fgets(buffer, len, stdin)] as glibc has it: with [len <= 0] it
    returns NULL at once and the buffer keeps its contents; with [len = 1]
    there is room for the NUL only, which is stored without reading; at
    end of input nothing is stored and the buffer keeps its contents. *)
Definition fgets (buffer : string) (len : nat) (stdin : string) : string * string :=
  match len with
  | 0 => (buffer, stdin)
  | 1 => (EmptyString, stdin)
  | _ =>
      match stdin with
      | EmptyString => (buffer, EmptyString)
      | _ => let '(got, unread) := fgets_chars (len - 1) stdin in (cstr got, unread)
      end
  end.

(** Drop the last character when it is a newline. *)
Fixpoint chomp (s : string) : string :=
  match s with
  | EmptyString => EmptyString
  | String c EmptyString => if is_nl c then EmptyString else s
  | String c rest => String c (chomp rest)
  end.

(** [input_string(message, buffer, len)] for a non-NULL buffer: the return
    code, the buffer afterwards and the input left on stdin. *)
Definition input_string (buffer : string) (len : nat) (stdin : string)
    : Z * string * string :=
  let '(buf, unread) := fgets buffer len stdin in
  let fetched := String.length buf in
  let rc := if (len <=? fetched + 1)%nat then (-1)%Z else 0%Z in
  (rc, chomp buf, unread).

(** ** The rotation decision (album.c, ask_user, parent side) *)

(** What the environment hands to a step of a process: nothing worth
    reporting, a failed system call, or a line of text. *)
Inductive answer : Type :=
| Ok
| Err
| Line (text : string).

(** The tail of ask_user: [rot_dir] from what was read into [readbuf]. *)
Definition rot_dir_of (readbuf : string) : Z :=
  if String.eqb readbuf "1" then 1%Z
  else if String.eqb readbuf "2" then 2%Z
  else 0%Z.

(** ask_user as process_img sees it: [Err] is a failed pipe() (line 214:
    a message and return -1), [Line readbuf] is the helper's reply. *)
Definition ask_user (a : answer) : option Z :=
  match a with
  | Err => Some (-1)%Z
  | Line readbuf => Some (rot_dir_of readbuf)
  | Ok => None
  end.

(** ** The calls to ImageMagick (album.c, resize, display, rotate) *)

Inductive cmd : Type :=
| Resize (img rename size : string)
| Display (img : string)
| Rotate (img rename : string) (rot_dir : Z).

Definition direction (rot_dir : Z) : string :=
  if (rot_dir =? 1)%Z then "90"
  else if (rot_dir =? 2)%Z then "-90"
  else "0".

(** The argument vector each forked child passes to execlp. *)
Definition exec_argv (c : cmd) : list string :=
  match c with
  | Resize img rename size => ["magick"; "convert"; "-resize"; size; img; rename]
  | Display img => ["magick"; "display"; img]
  | Rotate img rename rot_dir =>
      ["magick"; "convert"; "-rotate"; direction rot_dir; img; rename]
  end.

(** Lines 540-550 of process_img: the rotations forked for [rot_dir]. *)
Definition rotations (thumb_name med_name : string) (rot_dir : Z) : list cmd :=
  if (0 <? rot_dir)%Z
  then [Rotate thumb_name thumb_name rot_dir; Rotate med_name med_name rot_dir]
  else [].

(** ** File names (album.c, process, lines 638-653) *)

Definition is_slash (c : ascii) : bool := Ascii.eqb c "/"%char.

(** [strrchr(path, '/')] followed by [img++]: what follows the last slash. *)
Fixpoint after_last_slash (path : string) : option string :=
  match path with
  | EmptyString => None
  | String c rest =>
      match after_last_slash rest with
      | Some img => Some img
      | None => if is_slash c then Some rest else None
      end
  end.

Definition img_of (path : string) : string :=
  match after_last_slash path with
  | Some img => img
  | None => path
  end.

Definition thumb_name_of (path : string) : string := "thumb_" ++ img_of path.
Definition med_name_of (path : string) : string := "med_" ++ img_of path.

(** The two resize calls at the top of process_img. *)
Definition resizes (path : string) : list cmd :=
  [Resize path (thumb_name_of path) "10%"; Resize path (med_name_of path) "25%"].

(** ** index.html (album.c, img_html and cap_html) *)

(** The file is kept as the sequence of blocks written to it. *)
Inductive block : Type :=
| LinkBlock (med_name thumb_name : string)
| CapBlock (caption : string).

Definition dq : string := String "034"%char EmptyString.

(** The text fprintf produces for a block. *)
Definition render_block (b : block) : string :=
  match b with
  | LinkBlock med_name thumb_name =>
      "<a href=" ++ dq ++ med_name ++ dq ++ "><img src=" ++ dq ++ thumb_name ++ dq ++ "></a>"
  | CapBlock caption => "<h2>" ++ caption ++ "</h2>"
  end.

Definition render (file : list block) : string :=
  String.concat EmptyString (map render_block file).

Inductive fmode : Type := ModeW | ModeA.

(** fopen in mode [m], one fprintf, fclose. *)
Definition fwrite (m : fmode) (b : block) (file : list block) : list block :=
  match m with
  | ModeW => [b]
  | ModeA => file ++ [b]
  end.

(** [w_or_a] in img_html. *)
Definition w_or_a (order : Z) : fmode :=
  if (order =? 1)%Z then ModeW else ModeA.

(** img_html and cap_html: the return value and the file afterwards;
    [Err] is a failed fopen. *)
Definition img_html (thumb_name med_name : string) (order : Z) (a : answer)
    (file : list block) : Z * list block :=
  match a with
  | Err => ((-1)%Z, file)
  | _ => (0%Z, fwrite (w_or_a order) (LinkBlock med_name thumb_name) file)
  end.

Definition cap_html (caption : string) (a : answer) (file : list block)
    : Z * list block :=
  match a with
  | Err => ((-1)%Z, file)
  | _ => (0%Z, fwrite ModeA (CapBlock caption) file)
  end.

(** ** Processes *)

(** Where a worker stands in process_img (line numbers of album.c). *)
Inductive pc : Type :=
| AtResize                    (* 431-437: both resize forks *)
| AtTurnRead                  (* 450: read(html_in) *)
| AtTurnResend (receive : Z)  (* 461: write(html_out, &receive) *)
| AtTurnSleep                 (* 468: sleep(1) *)
| AtImgFork                   (* 482: fork for img_html *)
| AtWaitThumb                 (* 491: waitpid(res_thumb) *)
| AtGateRead                  (* 503: read(from_prev) *)
| AtDisplay                   (* 516: display fork *)
| AtWaitDisplay               (* 524: waitpid(dis_thumb) *)
| AtAskUser                   (* 535-550: ask_user and the rotations *)
| AtAskCaption                (* 557: ask_caption *)
| AtCapHtml (caption : string) (* 560: cap_html *)
| AtSendTurn                  (* 570: write(html_out, &send) *)
| AtSendGate                  (* 579: write(to_next, &send) *)
| AtReturn.                   (* 586, then 660-663: exit(0) *)

Inductive proc : Type :=
| NotSpawned
| Running (p : pc)
| Exited (status : Z).

(** Where the parent stands in process(). *)
Inductive ppc : Type :=
| AtPipes                       (* 626: the two pipe() calls *)
| AtLoop (i : nat)              (* 631: test of the for loop *)
| AtPoll (i j : nat) (num : Z)  (* 598-601: concurrent() at slot j *)
| AtSleep (i : nat)             (* 634 *)
| AtFork (i : nat)              (* 636 *)
| AtReap (i : nat)              (* 669-670 *)
| Returned (status : Z).        (* main has returned *)

Definition max_conversions : Z := 3.

Inductive event : Type :=
| EvStderr (msg : string)
| EvReturn (status : Z)
| EvSpawn (i : nat)
| EvExit (i : nat) (status : Z)
| EvFork (i : nat) (c : cmd)
| EvTurnRecv (i : nat) (v : Z)
| EvResend (i : nat) (v : Z)
| EvTurnSend (i : nat) (v : Z)
| EvGateRecv (i : nat) (v : Z)
| EvGateFail (i : nat)
| EvGateSend (i : nat) (v : Z)
| EvImgFork (i : nat)
| EvImgHtml (i : nat) (status : Z)
| EvCapHtml (i : nat).

(** The state of the whole run.  [argv] is the vector after [argv++]:
    the image paths.  A slot of [pid] is [None] until line 636 assigns it.
    [kids] lists the workers whose img_html child is forked and has not
    run yet. *)
Record sys : Type := Sys {
  argv : list string;
  parent : ppc;
  pid : list (option nat);
  procs : list proc;
  ptp1 : list Z;
  ptp2 : list Z;
  kids : list nat;
  index_html : list block
}.

Definition set_parent (p : ppc) (s : sys) : sys :=
  Sys (argv s) p (pid s) (procs s) (ptp1 s) (ptp2 s) (kids s) (index_html s).
Definition set_pid (l : list (option nat)) (s : sys) : sys :=
  Sys (argv s) (parent s) l (procs s) (ptp1 s) (ptp2 s) (kids s) (index_html s).
Definition set_procs (l : list proc) (s : sys) : sys :=
  Sys (argv s) (parent s) (pid s) l (ptp1 s) (ptp2 s) (kids s) (index_html s).
Definition set_ptp1 (q : list Z) (s : sys) : sys :=
  Sys (argv s) (parent s) (pid s) (procs s) q (ptp2 s) (kids s) (index_html s).
Definition set_ptp2 (q : list Z) (s : sys) : sys :=
  Sys (argv s) (parent s) (pid s) (procs s) (ptp1 s) q (kids s) (index_html s).
Definition set_kids (l : list nat) (s : sys) : sys :=
  Sys (argv s) (parent s) (pid s) (procs s) (ptp1 s) (ptp2 s) l (index_html s).
Definition set_index_html (f : list block) (s : sys) : sys :=
  Sys (argv s) (parent s) (pid s) (procs s) (ptp1 s) (ptp2 s) (kids s) f.

(** [index] after [index++] at line 423. *)
Definition index_of (i : nat) : Z := (Z.of_nat i + 1)%Z.

Definition die (i : nat) (msg : string) (s : sys) : option (proc * sys * list event) :=
  Some (Exited (-1), s, [EvStderr msg; EvExit i (-1)]).

Definition read_err : string :=
  "error reading bytes from other img process. exiting..." ++ nl.
Definition write_err : string :=
  "error writing bytes out other img process. exiting..." ++ nl.
Definition gate_err : string := "error reading bytes from other img process" ++ nl.
Definition html_err : string := "Error writing to index.html" ++ nl.
Definition pipe_err : string := "failed to create a pipe" ++ nl.

(** What img_html (line 364) and ask_user (line 215) print when their
    call fails. *)
Definition img_html_says (a : answer) : list string :=
  match a with Err => [html_err] | _ => [] end.

Definition ask_user_says (a : answer) : list string :=
  match a with Err => [pipe_err] | _ => [] end.

(** One step of worker [i] in process_img, called on [path] with the
    names built in process().  [None]: the call blocks, or the answer is
    not one the call can get.  The failures covered are those of pipe(),
    of the reads and writes on the two shared pipes and of fopen on
    index.html, each with the message album.c prints; fork() is taken to
    succeed everywhere, and so are the reads and writes between a worker
    and its helper.  After a failed pipe() in ask_user, ask_caption works
    on descriptors that were never set: the caption is whatever the
    environment hands over, and a call that never returns is a worker
    that takes no further step. *)
Definition process_img (i : nat) (path : string) (p : pc) (a : answer) (s : sys)
    : option (proc * sys * list event) :=
  let index := index_of i in
  let thumb_name := thumb_name_of path in
  let med_name := med_name_of path in
  match p, a with
  | AtResize, Ok =>
      Some (Running (if (index =? 1)%Z then AtImgFork else AtTurnRead), s,
            map (EvFork i) (resizes path))
  | AtTurnRead, Ok =>
      match ptp2 s with
      | [] => None
      | receive :: rest =>
          Some (Running (if (index =? receive)%Z then AtImgFork
                         else AtTurnResend receive),
                set_ptp2 rest s, [EvTurnRecv i receive])
      end
  | AtTurnRead, Err => die i read_err s
  | AtTurnResend receive, Ok =>
      Some (Running AtTurnSleep, set_ptp2 (ptp2 s ++ [receive]) s,
            [EvResend i receive])
  | AtTurnResend _, Err => die i write_err s
  | AtTurnSleep, Ok => Some (Running AtTurnRead, s, [])
  | AtImgFork, Ok =>
      Some (Running AtWaitThumb, set_kids (kids s ++ [i]) s, [EvImgFork i])
  | AtWaitThumb, Ok =>
      Some (Running (if (index =? 1)%Z then AtDisplay else AtGateRead), s, [])
  | AtGateRead, Ok =>
      match ptp1 s with
      | [] => None
      | receive :: rest =>
          Some (Running AtDisplay, set_ptp1 rest s, [EvGateRecv i receive])
      end
  | AtGateRead, Err =>
      Some (Running AtDisplay, s, [EvStderr gate_err; EvGateFail i])
  | AtDisplay, Ok =>
      Some (Running AtWaitDisplay, s, [EvFork i (Display thumb_name)])
  | AtWaitDisplay, Ok => Some (Running AtAskUser, s, [])
  | AtAskUser, _ =>
      match ask_user a with
      | None => None
      | Some rot_dir =>
          Some (Running AtAskCaption, s,
                map EvStderr (ask_user_says a)
                  ++ map (EvFork i) (rotations thumb_name med_name rot_dir))
      end
  | AtAskCaption, Line caption => Some (Running (AtCapHtml caption), s, [])
  | AtCapHtml caption, Ok | AtCapHtml caption, Err =>
      let '(rc, file) := cap_html caption a (index_html s) in
      if (rc =? 0)%Z
      then Some (Running AtSendTurn, set_index_html file s, [EvCapHtml i])
      else die i html_err s
  | AtSendTurn, Ok =>
      Some (Running AtSendGate, set_ptp2 (ptp2 s ++ [(index + 1)%Z]) s,
            [EvTurnSend i (index + 1)%Z])
  | AtSendTurn, Err => die i write_err s
  | AtSendGate, Ok =>
      Some (Running AtReturn, set_ptp1 (ptp1 s ++ [(index + 1)%Z]) s,
            [EvGateSend i (index + 1)%Z])
  | AtSendGate, Err => die i write_err s
  | AtReturn, Ok => Some (Exited 0, s, [EvExit i 0])
  | _, _ => None
  end.

Definition is_running (w : option proc) : bool :=
  match w with Some (Running _) => true | _ => false end.

Definition is_exited (w : option proc) : bool :=
  match w with Some (Exited _) => true | _ => false end.

(** One step of the parent in process().  In concurrent(), the test
    [pid[j] != 0 && waitpid(pid[j], &status, WNOHANG) == 0] holds for the
    pid of a child exactly while the child runs; a slot never assigned
    holds an indeterminate int, and the environment says whether the test
    holds ([Ok]) or not ([Err]). *)
Definition process (p : ppc) (a : answer) (s : sys) : option (sys * list event) :=
  let argc := length (argv s) in
  match p, a with
  | AtPipes, Ok => Some (set_parent (AtLoop 0) s, [])
  | AtPipes, Err =>
      Some (set_parent (Returned (-1)) s, [EvStderr pipe_err; EvReturn (-1)])
  | AtLoop i, Ok =>
      Some (set_parent (if (i <? argc)%nat then AtPoll i 0 0 else AtReap 0) s, [])
  | AtPoll i j num, Ok | AtPoll i j num, Err =>
      if (j <? argc)%nat then
        match pid s !! j, a with
        | Some (Some c), Ok =>
            let num' := if is_running (procs s !! c) then (num + 1)%Z else num in
            Some (set_parent (AtPoll i (S j) num') s, [])
        | Some None, Ok => Some (set_parent (AtPoll i (S j) (num + 1)%Z) s, [])
        | Some None, Err => Some (set_parent (AtPoll i (S j) num) s, [])
        | _, _ => None
        end
      else
        match a with
        | Ok => Some (set_parent (if (max_conversions <=? num)%Z then AtSleep i
                                  else AtFork i) s, [])
        | _ => None
        end
  | AtSleep i, Ok => Some (set_parent (AtPoll i 0 0) s, [])
  | AtFork i, Ok =>
      Some (set_parent (AtLoop (S i))
              (set_pid (<[i := Some i]> (pid s))
                 (set_procs (<[i := Running AtResize]> (procs s)) s)),
            [EvSpawn i])
  | AtReap i, Ok =>
      if (i <? argc)%nat then
        match pid s !! i with
        | Some (Some c) =>
            if is_exited (procs s !! c) then Some (set_parent (AtReap (S i)) s, [])
            else None
        | _ => Some (set_parent (AtReap (S i)) s, [])
        end
      else Some (set_parent (Returned 0) s, [EvReturn 0])
  | _, _ => None
  end.

(** ** The transition system *)

Inductive action : Type :=
| Main (a : answer)            (* the parent moves *)
| Work (i : nat) (a : answer)  (* worker i moves *)
| Html (i : nat) (a : answer). (* the img_html child of worker i runs *)

Fixpoint remove_kid (i : nat) (l : list nat) : option (list nat) :=
  match l with
  | [] => None
  | k :: rest =>
      if (k =? i)%nat then Some rest
      else match remove_kid i rest with
           | Some rest' => Some (k :: rest')
           | None => None
           end
  end.

Definition step (act : action) (s : sys) : option (sys * list event) :=
  match act with
  | Main a => process (parent s) a s
  | Work i a =>
      match procs s !! i, argv s !! i with
      | Some (Running p), Some path =>
          match process_img i path p a s with
          | Some (w, s', evs) => Some (set_procs (<[i := w]> (procs s')) s', evs)
          | None => None
          end
      | _, _ => None
      end
  | Html i a =>
      match remove_kid i (kids s), argv s !! i, a with
      | Some rest, Some path, Ok | Some rest, Some path, Err =>
          let '(rc, file) :=
            img_html (thumb_name_of path) (med_name_of path) (index_of i) a
              (index_html s) in
          Some (set_kids rest (set_index_html file s),
                map EvStderr (img_html_says a) ++ [EvImgHtml i rc])
      | _, _, _ => None
      end
  end.

(** Run a schedule; the events come out in the order they happened. *)
Fixpoint run (sched : list action) (s : sys) : option (sys * list event) :=
  match sched with
  | [] => Some (s, [])
  | act :: rest =>
      match step act s with
      | None => None
      | Some (s', evs) =>
          match run rest s' with
          | None => None
          | Some (s'', tr) => Some (s'', evs ++ tr)
          end
      end
  end.

(** process() entered with the image paths [paths], [html0] being what an
    earlier run left in index.html. *)
Definition start (paths : list string) (html0 : list block) : sys :=
  Sys paths AtPipes (replicate (length paths) None)
      (replicate (length paths) NotSpawned) [] [] [] html0.

(** main(): the state it leaves the system in and what it has printed.
    [cmdline] is the whole argument vector, program name first. *)
Definition main (fs : filesystem) (stack : nat -> list byte)
    (cmdline : list string) (html0 : list block) : sys * list event :=
  let '(rc, msgs) := validate fs stack cmdline in
  if (rc =? 0)%Z then (start (tail cmdline) html0, [])
  else (set_parent (Returned (-1)) (start (tail cmdline) html0),
        map EvStderr msgs ++ [EvReturn (-1)]).

(** The exit status a parent sees through WEXITSTATUS. *)
Definition wexitstatus (status : Z) : Z := (status mod 256)%Z.

(** ** Observations on states and traces *)

Definition running (w : proc) : bool :=
  match w with Running _ => true | _ => false end.

(** The number of workers alive: forked and not yet exited. *)
Fixpoint active (l : list proc) : nat :=
  match l with
  | [] => 0
  | w :: rest => (if running w then 1 else 0) + active rest
  end.

(** The workers forked in a trace, in the order of their forks. *)
Definition spawned (tr : list event) : list nat :=
  flat_map (fun e => match e with EvSpawn i => [i] | _ => [] end) tr.

(** What the loop of process() maintains: the cap on live workers, and,
    inside concurrent(), that [num] covers the live workers among the
    slots already polled. *)
Definition pool_ok (s : sys) : Prop :=
  (Z.of_nat (active (procs s)) <= max_conversions)%Z /\
  match parent s with
  | AtPoll i j num =>
      (Z.of_nat (active (take j (procs s))) <= num)%Z /\ i < length (argv s)
  | AtFork i =>
      (Z.of_nat (active (procs s)) < max_conversions)%Z /\ i < length (argv s)
  | AtSleep i => i < length (argv s)
  | _ => True
  end.

(** Slots below [k] hold the pids of the workers forked so far, in order;
    the others were never assigned and their workers do not exist yet. *)
Definition slots_ok (s : sys) (tr : list event) : Prop :=
  length (pid s) = length (argv s) /\ length (procs s) = length (argv s) /\
  exists k,
    spawned tr = seq 0 k /\ k <= length (argv s) /\
    (forall j, j < k -> pid s !! j = Some (Some j)) /\
    (forall j, k <= j < length (argv s) ->
               pid s !! j = Some None /\ procs s !! j = Some NotSpawned) /\
    match parent s with
    | AtPipes => k = 0
    | AtLoop i | AtPoll i _ _ | AtSleep i | AtFork i => k = i
    | _ => True
    end.

(** ** The turn to write index.html *)

(** Not yet through the wait of lines 444-473. *)
Definition pre_turn (w : proc) : bool :=
  match w with
  | NotSpawned => true
  | Running (AtResize | AtTurnRead | AtTurnResend _ | AtTurnSleep) => true
  | _ => false
  end.

(** In the loop of lines 448-472. *)
Definition polling (w : proc) : bool :=
  match w with
  | Running (AtTurnRead | AtTurnResend _ | AtTurnSleep) => true
  | _ => false
  end.

(** Out of the wait, with the hand-off of line 570 still to do. *)
Definition in_turn (w : proc) : bool :=
  match w with
  | Running (AtImgFork | AtWaitThumb | AtGateRead | AtDisplay | AtWaitDisplay
            | AtAskUser | AtAskCaption | AtCapHtml _ | AtSendTurn) => true
  | _ => false
  end.

(** Worker [i] has the turn value in hand: it is in its turn, or it carries
    a value it has to write back, or it is the first worker on its way to
    line 482, which it reaches without reading the pipe. *)
Definition holds_turn (i : nat) (w : proc) : bool :=
  in_turn w
  || match w with Running (AtTurnResend _) => true | _ => false end
  || ((i =? 0)%nat && pre_turn w).

(** A turn value is in flight: in the pipe, or with a worker about to
    write it back. *)
Definition token_at (s : sys) (t : Z) : Prop :=
  In t (ptp2 s) \/ exists k, procs s !! k = Some (Running (AtTurnResend t)).

Definition turn_ok (s : sys) : Prop :=
  (forall w, procs s !! 0 = Some w ->
             polling w = false /\ w <> Running AtGateRead) /\
  length (ptp2 s) <= 1 /\
  (forall i w, procs s !! i = Some w -> holds_turn i w = true -> ptp2 s = []) /\
  (forall i j wi wj,
      procs s !! i = Some wi -> procs s !! j = Some wj ->
      holds_turn i wi = true -> holds_turn j wj = true -> i = j) /\
  (forall t j w,
      token_at s t -> procs s !! j = Some w -> pre_turn w = true ->
      (t <= index_of j)%Z) /\
  (forall k wk j w,
      procs s !! k = Some wk -> in_turn wk = true ->
      procs s !! j = Some w -> pre_turn w = true -> k < j).

(** ** The gate before the display *)

(** Past the read of line 503, with the signal of line 579 still to send. *)
Definition past_gate (w : proc) : bool :=
  match w with
  | Running (AtDisplay | AtWaitDisplay | AtAskUser | AtAskCaption | AtCapHtml _
            | AtSendTurn | AtSendGate) => true
  | _ => false
  end.

(** Worker [i] is the one whose display is due: it is past the gate, or it
    is the first worker, which has no gate to pass. *)
Definition holds_gate (i : nat) (w : proc) : bool :=
  past_gate w
  || ((i =? 0)%nat
      && (pre_turn w
          || match w with Running (AtImgFork | AtWaitThumb) => true | _ => false end)).

Definition no_gate_failure (tr : list event) : Prop :=
  forall i, ~ In (EvGateFail i) tr.

(** The value the turn stands at: a value in flight, or the index of a
    worker in its turn. *)
Definition turn_value (s : sys) (t : Z) : Prop :=
  token_at s t \/
  exists i w, procs s !! i = Some w /\ in_turn w = true /\ t = index_of i.

(** While no read of the gate has failed: at most one signal is in the
    pipe, and none while a worker is past the gate; a signal in the pipe,
    or about to be written at line 579, carries the value the turn stands
    at. *)
Definition gate_ok (s : sys) : Prop :=
  length (ptp1 s) <= 1 /\
  (forall i w, procs s !! i = Some w -> holds_gate i w = true -> ptp1 s = []) /\
  (forall i j wi wj,
      procs s !! i = Some wi -> procs s !! j = Some wj ->
      holds_gate i wi = true -> holds_gate j wj = true -> i = j) /\
  (forall g t, In g (ptp1 s) -> turn_value s t -> t = g) /\
  (forall k t, procs s !! k = Some (Running AtSendGate) -> turn_value s t ->
               t = (index_of k + 1)%Z).

(** The moves of worker [i] that leave both pipes alone, read off
    process_img: from a program point to what the worker is next. *)
Inductive local_move (i : nat) : pc -> proc -> Prop :=
| lm_resize_first : i = 0 -> local_move i AtResize (Running AtImgFork)
| lm_resize : i <> 0 -> local_move i AtResize (Running AtTurnRead)
| lm_sleep : local_move i AtTurnSleep (Running AtTurnRead)
| lm_img_fork : local_move i AtImgFork (Running AtWaitThumb)
| lm_wait_thumb_first : i = 0 -> local_move i AtWaitThumb (Running AtDisplay)
| lm_wait_thumb : i <> 0 -> local_move i AtWaitThumb (Running AtGateRead)
| lm_display : local_move i AtDisplay (Running AtWaitDisplay)
| lm_wait_display : local_move i AtWaitDisplay (Running AtAskUser)
| lm_ask_user : local_move i AtAskUser (Running AtAskCaption)
| lm_ask_caption c : local_move i AtAskCaption (Running (AtCapHtml c))
| lm_cap_html c : local_move i (AtCapHtml c) (Running AtSendTurn)
| lm_return : local_move i AtReturn (Exited 0)
| lm_die_read : local_move i AtTurnRead (Exited (-1))
| lm_die_resend v : local_move i (AtTurnResend v) (Exited (-1))
| lm_die_cap c : local_move i (AtCapHtml c) (Exited (-1))
| lm_die_send_turn : local_move i AtSendTurn (Exited (-1))
| lm_die_send_gate : local_move i AtSendGate (Exited (-1)).

(** ** The order of events *)

(** Worker [i] has forked both its resizes. *)
Definition resized (i : nat) (before : list event) : Prop :=
  exists path,
    In (EvFork i (Resize path (thumb_name_of path) "10%")) before /\
    In (EvFork i (Resize path (med_name_of path) "25%")) before.

Definition displayed (i : nat) (before : list event) : Prop :=
  exists thumb_name, In (EvFork i (Display thumb_name)) before.

(** A gate read of worker [i] has returned, with a signal or with an
    error. *)
Definition gate_passed (i : nat) (before : list event) : Prop :=
  (exists v, In (EvGateRecv i v) before) \/ In (EvGateFail i) before.

(** What has to be in the trace before an event can happen. *)
Definition justified (before : list event) (e : event) : Prop :=
  match e with
  | EvStderr _ | EvReturn _ | EvSpawn _ => True
  | EvExit i _ => resized i before
  | EvFork i (Resize _ _ _) => In (EvSpawn i) before
  | EvFork i (Display _) =>
      resized i before /\ In (EvImgFork i) before /\
      (i = 0 \/ gate_passed i before)
  | EvFork i (Rotate _ _ _) => resized i before /\ displayed i before
  | EvTurnRecv i v =>
      resized i before /\ i <> 0 /\ exists j, In (EvTurnSend j v) before
  | EvResend i v =>
      resized i before /\ v <> index_of i /\ In (EvTurnRecv i v) before
  | EvTurnSend i v =>
      resized i before /\ v = (index_of i + 1)%Z /\
      In (EvImgFork i) before /\ In (EvCapHtml i) before
  | EvGateRecv i v =>
      resized i before /\ i <> 0 /\ In (EvImgFork i) before /\
      exists j, In (EvGateSend j v) before
  | EvGateFail i => resized i before /\ i <> 0 /\ In (EvImgFork i) before
  | EvGateSend i v =>
      resized i before /\ v = (index_of i + 1)%Z /\
      In (EvImgFork i) before /\ In (EvCapHtml i) before /\
      In (EvTurnSend i v) before
  | EvImgFork i =>
      resized i before /\ (i = 0 \/ In (EvTurnRecv i (index_of i)) before)
  | EvImgHtml i _ => In (EvImgFork i) before
  | EvCapHtml i =>
      resized i before /\ In (EvImgFork i) before /\ displayed i before
  end.

Definition well_ordered (tr : list event) : Prop :=
  forall pre e post, tr = pre ++ e :: post -> justified pre e.

Fixpoint all_justified (tr evs : list event) : Prop :=
  match evs with
  | [] => True
  | e :: rest => justified tr e /\ all_justified (tr ++ [e]) rest
  end.

(** What the trace is known to hold when worker [i] is at [w]. *)
Definition known (i : nat) (w : proc) (tr : list event) : Prop :=
  match w with
  | NotSpawned => True
  | Exited _ => resized i tr
  | Running p =>
      In (EvSpawn i) tr /\
      match p with
      | AtResize => True
      | AtTurnRead | AtTurnSleep => resized i tr /\ i <> 0
      | AtTurnResend v =>
          resized i tr /\ i <> 0 /\ v <> index_of i /\
          In (EvTurnRecv i v) tr /\ exists j, In (EvTurnSend j v) tr
      | AtImgFork =>
          resized i tr /\ (i = 0 \/ In (EvTurnRecv i (index_of i)) tr)
      | AtWaitThumb => resized i tr /\ In (EvImgFork i) tr
      | AtGateRead => resized i tr /\ In (EvImgFork i) tr /\ i <> 0
      | AtDisplay =>
          resized i tr /\ In (EvImgFork i) tr /\ (i = 0 \/ gate_passed i tr)
      | AtWaitDisplay | AtAskUser | AtAskCaption | AtCapHtml _ =>
          resized i tr /\ In (EvImgFork i) tr /\ displayed i tr
      | AtSendTurn =>
          resized i tr /\ In (EvImgFork i) tr /\ In (EvCapHtml i) tr
      | AtSendGate =>
          resized i tr /\ In (EvImgFork i) tr /\ In (EvCapHtml i) tr /\
          In (EvTurnSend i (index_of i + 1)%Z) tr
      | AtReturn => resized i tr
      end
  end.

Definition links (s : sys) (tr : list event) : Prop :=
  (forall i w, procs s !! i = Some w -> known i w tr) /\
  (forall v, In v (ptp2 s) -> exists j, In (EvTurnSend j v) tr) /\
  (forall g, In g (ptp1 s) -> exists j, In (EvGateSend j g) tr) /\
  (forall k, In k (kids s) -> In (EvImgFork k) tr).

(** No worker reads a turn value above its own index. *)
Definition recv_bounded (n : nat) (tr : list event) : Prop :=
  forall i v, In (EvTurnRecv i v) tr -> (v <= index_of i)%Z /\ i < n.

(** While no gate read has failed, each worker reads the signal carrying
    its own index: the one sent by the worker just before it. *)
Definition gate_exact (tr : list event) : Prop :=
  no_gate_failure tr -> forall i v, In (EvGateRecv i v) tr -> v = index_of i.

(** Everything above, for a run of process() on [paths]. *)
Definition invariant (paths : list string) (s : sys) (tr : list event) : Prop :=
  argv s = paths /\ pool_ok s /\ slots_ok s tr /\ turn_ok s /\
  (no_gate_failure tr -> gate_ok s) /\ links s tr /\ well_ordered tr /\
  recv_bounded (length paths) tr /\ gate_exact tr.

(** ** Schedules used as examples *)

(** One round of the loop of process(): the loop test, concurrent() over
    [assigned] slots that hold a pid and [unset] slots the environment
    answers for (here: not counted), its return and the fork. *)
Definition poll_and_fork (assigned unset : nat) : list action :=
  Main Ok :: repeat (Main Ok) assigned ++ repeat (Main Err) unset
    ++ [Main Ok; Main Ok].

(** Lines 482-586 for worker [i] with the img_html child running as soon
    as it is forked; [gate] is the read of line 503, absent for the first
    worker. *)
Definition turn_of (i : nat) (gate : list action) (reply caption : string)
    : list action :=
  [Work i Ok; Html i Ok; Work i Ok] ++ gate
    ++ [Work i Ok; Work i Ok; Work i (Line reply); Work i (Line caption);
        Work i Ok; Work i Ok; Work i Ok; Work i Ok].

(** The same with the img_html child left for later. *)
Definition turn_of_late (i : nat) (gate : list action) (reply caption : string)
    : list action :=
  [Work i Ok; Work i Ok] ++ gate
    ++ [Work i Ok; Work i Ok; Work i (Line reply); Work i (Line caption);
        Work i Ok; Work i Ok; Work i Ok; Work i Ok].

Definition two_paths : list string := ["pics/a.jpg"; "b.png"].

(** Both workers forked, both resizes done, the parent at its final waits. *)
Definition two_forked : list action :=
  [Main Ok] ++ poll_and_fork 0 2 ++ poll_and_fork 1 1 ++ [Main Ok]
    ++ [Work 0 Ok; Work 1 Ok].

(** A run of two images in which everything happens in program order. *)
Definition two_in_order : list action :=
  two_forked ++ turn_of 0 [] "1" "first"
    ++ [Work 1 Ok] ++ turn_of 1 [Work 1 Ok] "3" "second"
    ++ [Main Ok; Main Ok; Main Ok].

(** The img_html child of the second worker runs after that worker has
    written its caption. *)
Definition two_late_link : list action :=
  two_forked ++ turn_of 0 [] "1" "first"
    ++ [Work 1 Ok] ++ turn_of_late 1 [Work 1 Ok] "3" "second"
    ++ [Html 1 Ok; Main Ok; Main Ok; Main Ok].

(** The same run up to the hand-off of line 570 by the second worker. *)
Definition two_handed_on : list action :=
  two_forked ++ turn_of 0 [] "1" "first"
    ++ [Work 1 Ok]
    ++ [Work 1 Ok; Work 1 Ok; Work 1 Ok; Work 1 Ok; Work 1 Ok;
        Work 1 (Line "3"); Work 1 (Line "second"); Work 1 Ok; Work 1 Ok].

(** The first worker stands before line 579, the second before its read
    of the gate. *)
Definition two_at_gate : list action :=
  two_forked
    ++ [Work 0 Ok; Html 0 Ok; Work 0 Ok; Work 0 Ok; Work 0 Ok;
        Work 0 (Line "1"); Work 0 (Line "first"); Work 0 Ok; Work 0 Ok]
    ++ [Work 1 Ok; Work 1 Ok; Html 1 Ok; Work 1 Ok].


(** One image; its img_html child runs last of all. *)
Definition one_late_link : list action :=
  [Main Ok] ++ poll_and_fork 0 1 ++ [Main Ok; Work 0 Ok]
    ++ turn_of_late 0 [] "3" "only" ++ [Main Ok; Main Ok; Html 0 Ok].

Definition one_in_order : list action :=
  [Main Ok] ++ poll_and_fork 0 1 ++ [Main Ok; Work 0 Ok]
    ++ turn_of 0 [] "3" "only" ++ [Main Ok; Main Ok].

Definition four_paths : list string := ["a.jpg"; "b.jpg"; "c.jpg"; "d.jpg"].

(** Three of four workers forked; the fourth poll finds the pool full. *)
Definition four_saturated : list action :=
  [Main Ok] ++ poll_and_fork 0 4 ++ poll_and_fork 1 3 ++ poll_and_fork 2 2
    ++ [Main Ok; Main Ok; Main Ok; Main Ok; Main Err; Main Ok].

Definition three_paths : list string := ["a.jpg"; "b.jpg"; "c.jpg"].

(** Three workers; the third reads the turn value meant for the second
    and writes it back. *)
Definition three_resend : list action :=
  [Main Ok] ++ poll_and_fork 0 3 ++ poll_and_fork 1 2 ++ poll_and_fork 2 1
    ++ [Main Ok; Work 0 Ok; Work 1 Ok; Work 2 Ok]
    ++ turn_of 0 [] "2" "first"
    ++ [Work 2 Ok; Work 2 Ok; Work 2 Ok; Work 1 Ok]
    ++ turn_of 1 [Work 1 Ok] EmptyString "second"
    ++ [Work 2 Ok] ++ turn_of 2 [Work 2 Ok] "1" "third"
    ++ [Main Ok; Main Ok; Main Ok; Main Ok].

(** The program points of process_img that read or write one of the two
    pipes shared by the workers. *)
Definition on_channel (p : pc) : bool :=
  match p with
  | AtTurnRead | AtTurnResend _ | AtGateRead | AtSendTurn | AtSendGate => true
  | _ => false
  end.

(** The worker an event is a step of, for the events of process_img. *)
Definition worker_of (e : event) : option nat :=
  match e with
  | EvExit i _ | EvFork i _ | EvTurnRecv i _ | EvResend i _ | EvTurnSend i _
  | EvGateRecv i _ | EvGateFail i | EvGateSend i _ | EvImgFork i
  | EvCapHtml i => Some i
  | _ => None
  end.

Definition is_resize (e : event) : bool :=
  match e with EvFork _ (Resize _ _ _) => true | _ => false end.

Fixpoint has_slash (s : string) : bool :=
  match s with
  | EmptyString => false
  | String c rest => is_slash c || has_slash rest
  end.

(** A file system with one text file and one PNG image, and a stack that
    holds zeros. *)
Definition demo_fs : filesystem :=
  fun path =>
    if String.eqb path "notes.txt"
    then Some [x68; x65; x6c; x6c; x6f; x20; x77; x6f; x72; x6c; x64; x0a]
    else if String.eqb path "b.png"
    then Some [x89; x50; x4e; x47; x0d; x0a; x1a; x0a; x00; x00; x00; x0d]
    else None.

Definition zero_stack : nat -> list byte := fun _ => repeat x00 8.

(** The same files and an empty one. *)
Definition stale_fs : filesystem :=
  fun path => if String.eqb path "empty.dat" then Some [] else demo_fs path.

(** The array of invalid_img at the call for [argv[i]] when every call
    has it at the same place of the stack: it starts as [init] and each
    call finds what the call before left, which is what fread wrote over
    it if the file could be opened.  [args] are the arguments from
    [argv[1]] on. *)
Fixpoint stale (fs : filesystem) (init : list byte) (args : list string)
    (i : nat) : list byte :=
  match i, args with
  | S (S i'), arg :: rest =>
      stale fs (match fs arg with
                | Some content => fread8 init content
                | None => init
                end) rest (S i')
  | _, _ => init
  end.

(** ** The helper process of ask_user (album.c, lines 224-263) *)

Definition is_nul (c : ascii) : bool := Ascii.eqb c "000"%char.

(** Some character of [s] satisfies [p]. *)
Fixpoint has (p : ascii -> bool) (s : string) : bool :=
  match s with
  | EmptyString => false
  | String c rest => p c || has p rest
  end.


(** ** The end of a worker and of process() *)

(** Lines 667-674: all workers are forked by the time the parent starts
    waiting, the ones it has waited for have exited, and process()
    returns 0 when it has waited for all of them. *)
Definition reaped (s : sys) (tr : list event) : Prop :=
  match parent s with
  | AtReap i =>
      spawned tr = seq 0 (length (argv s)) /\
      forall j, j < i -> j < length (argv s) -> is_exited (procs s !! j) = true
  | Returned st =>
      (st = 0%Z \/ st = (-1)%Z) /\
      (st = 0%Z ->
       spawned tr = seq 0 (length (argv s)) /\
       forall j, j < length (argv s) -> is_exited (procs s !! j) = true)
  | _ => True
  end.

(** How a worker ends: its exit is in the trace with its status, 0 or -1;
    at line 586 and after exit(0) its caption is written and both signals
    are sent; the signal of line 579 is sent by no worker that is still
    before line 586. *)
Definition ends_ok (s : sys) (tr : list event) : Prop :=
  (forall i st, In (EvExit i st) tr <-> procs s !! i = Some (Exited st)) /\
  (forall i st, procs s !! i = Some (Exited st) -> st = 0%Z \/ st = (-1)%Z) /\
  (forall i w,
      procs s !! i = Some w -> w = Running AtReturn \/ w = Exited 0 ->
      In (EvCapHtml i) tr /\ In (EvTurnSend i (index_of i + 1)%Z) tr /\
      In (EvGateSend i (index_of i + 1)%Z) tr) /\
  (forall i v,
      In (EvGateSend i v) tr ->
      procs s !! i = Some (Running AtReturn) \/ procs s !! i = Some (Exited 0)).

(** ** The order of the turns *)

(** The place of an event in the turn of its worker, lines 482-570: the
    worker, and how far into these lines the event is. *)
Definition turn_step (e : event) : option (nat * nat) :=
  match e with
  | EvImgFork i => Some (i, 0)
  | EvGateRecv i _ | EvGateFail i => Some (i, 1)
  | EvFork i (Display _) => Some (i, 2)
  | EvFork i (Rotate _ _ _) => Some (i, 3)
  | EvCapHtml i => Some (i, 4)
  | EvTurnSend i _ => Some (i, 5)
  | _ => None
  end.

(** The earliest place an event of the worker's turn can still have; none
    once the turn is handed on. *)
Definition coming (w : proc) : option nat :=
  match w with
  | NotSpawned => Some 0
  | Running (AtResize | AtTurnRead | AtTurnResend _ | AtTurnSleep | AtImgFork) =>
      Some 0
  | Running (AtWaitThumb | AtGateRead) => Some 1
  | Running AtDisplay => Some 2
  | Running (AtWaitDisplay | AtAskUser) => Some 3
  | Running (AtAskCaption | AtCapHtml _) => Some 4
  | Running AtSendTurn => Some 5
  | Running (AtSendGate | AtReturn) | Exited _ => None
  end.

(** Order by worker, then by place. *)
Definition comes_before (earlier later : nat * nat) : Prop :=
  fst earlier < fst later \/ (fst earlier = fst later /\ snd earlier < snd later).

(** Every event of a turn in the trace comes before whatever a worker can
    still do in its own turn. *)
Definition turns_ok (s : sys) (tr : list event) : Prop :=
  forall e k, In e tr -> turn_step e = Some k ->
  forall i w q, procs s !! i = Some w -> coming w = Some q -> comes_before k (i, q).

(** The events of turns before [e] come before it in that order; the two
    rotations of a worker share their place. *)
Definition in_turn_order (before : list event) (e : event) : Prop :=
  forall k e' k',
    turn_step e = Some k -> In e' before -> turn_step e' = Some k' ->
    comes_before k' k \/ (k' = k /\ snd k = 3).

Definition turns_ordered (tr : list event) : Prop :=
  forall pre e post, tr = pre ++ e :: post -> in_turn_order pre e.

(** ** index.html when every img_html child runs at once *)

(** In [tr] the img_html child of a worker runs, and returns 0, before
    anything else is added to the trace after its fork. *)
Fixpoint prompt (tr : list event) : bool :=
  match tr with
  | [] => true
  | EvImgFork i :: rest =>
      match rest with
      | [] => true
      | EvImgHtml j rc :: _ => (i =? j)%nat && (rc =? 0)%Z && prompt rest
      | _ => false
      end
  | _ :: rest => prompt rest
  end.

(** What img_html writes for the image at [path]. *)
Definition link_of (path : string) : block :=
  LinkBlock (med_name_of path) (thumb_name_of path).

(** The link block and the caption block of each image, image after image. *)
Fixpoint entries (paths captions : list string) : list block :=
  match paths, captions with
  | path :: paths', caption :: captions' =>
      link_of path :: CapBlock caption :: entries paths' captions'
  | _, _ => []
  end.

(** index.html once [m] images have their caption, with the link block of
    the next image when [linked]; [html0] as long as nothing is written. *)
Definition report (paths : list string) (html0 : list block) (m : nat)
    (captions : list string) (linked : bool) : list block :=
  if (m =? 0)%nat && negb linked then html0
  else entries (take m paths) captions
         ++ match linked, paths !! m with
            | true, Some path => [link_of path]
            | _, _ => []
            end.

(** Where worker [i] can be when [m] images have their caption, the link
    block of the next is written ([linked]) or its img_html child is
    forked and has not run ([pending]). *)
Definition expects (i : nat) (w : proc) (m : nat) (linked pending : bool) : Prop :=
  match w with
  | Running AtImgFork => i = m /\ linked = false /\ pending = false
  | Running (AtWaitThumb | AtGateRead | AtDisplay) => i = m /\ linked = negb pending
  | Running (AtWaitDisplay | AtAskUser | AtAskCaption | AtCapHtml _) =>
      i = m /\ linked = true /\ pending = false
  | Running AtSendTurn => m = S i /\ linked = false /\ pending = false
  | Running (AtSendGate | AtReturn) | Exited _ => True
  | _ => i = 0 -> m = 0 /\ linked = false /\ pending = false
  end.

Definition report_at (paths : list string) (html0 : list block) (s : sys)
    (tr : list event) (m : nat) (captions : list string) (linked pending : bool)
    : Prop :=
  length captions = m /\ m <= length paths /\
  (linked || pending = true -> m < length paths) /\
  kids s = (if pending then [m] else []) /\
  (pending = true -> linked = false /\ exists pre, tr = pre ++ [EvImgFork m]) /\
  index_html s = report paths html0 m captions linked /\
  (forall i w, procs s !! i = Some w -> expects i w m linked pending) /\
  (forall t, token_at s t -> t = index_of m /\ linked = false /\ pending = false) /\
  (forall i, In (EvCapHtml i) tr -> i < m) /\
  (forall i, i < m -> In (EvCapHtml i) tr).

Definition report_ok (paths : list string) (html0 : list block) (s : sys)
    (tr : list event) : Prop :=
  prompt tr = true ->
  exists m captions linked pending, report_at paths html0 s tr m captions linked pending.

(** ** Runs without failures *)

(** Nothing was printed on stderr: none of the failures the steps cover
    has happened, each of them printing its message. *)
Definition quiet (tr : list event) : Prop := forall msg, ~ In (EvStderr msg) tr.

(** Worker [i] can take a step in which no call fails. *)
Definition can_go (s : sys) (i : nat) : Prop :=
  exists a s' evs, a <> Err /\ step (Work i a) s = Some (s', evs) /\ quiet evs.

(** Worker [i] stands at the read of line 503, the gate pipe is empty,
    and the worker before it is about to write the signal at line 579. *)
Definition waits_gate (s : sys) (i : nat) : Prop :=
  procs s !! i = Some (Running AtGateRead) /\ ptp1 s = [] /\
  exists j, i = S j /\ procs s !! j = Some (Running AtSendGate).

(** Worker [i] stands at the read of line 450, the turn pipe is empty,
    and another worker, [h], has the turn value in hand: it is in its
    turn, or about to write back a value it has read. *)
Definition waits_turn (s : sys) (i h : nat) : Prop :=
  procs s !! i = Some (Running AtTurnRead) /\ ptp2 s = [] /\ h <> i /\
  exists q, procs s !! h = Some (Running q) /\ holds_turn h (Running q) = true.

(** The turn is not lost: a value is in the pipe, or a worker has it. *)
Definition turn_alive (s : sys) : Prop :=
  ptp2 s <> [] \/ exists i w, procs s !! i = Some w /\ holds_turn i w = true.

(** In its turn and not yet through the read of line 503. *)
Definition before_gate (w : proc) : bool :=
  match w with
  | Running (AtImgFork | AtWaitThumb | AtGateRead) => true
  | _ => false
  end.

(** The turn of worker [j+1] has come, or is on its way, and it has still
    to pass the gate. *)
Definition gate_due (s : sys) (j : nat) : Prop :=
  token_at s (index_of (S j)) \/
  exists w, procs s !! S j = Some w /\ before_gate w = true.

(** The signal such a worker will wait for is in the gate pipe, or the
    worker before it is about to write it at line 579. *)
Definition gate_ready (s : sys) : Prop :=
  forall j, gate_due s j ->
            procs s !! j = Some (Running AtSendGate) \/ In (index_of (S j)) (ptp1 s).

Definition alive_ok (s : sys) (tr : list event) : Prop :=
  quiet tr -> (procs s = [] \/ turn_alive s) /\ gate_ready s.

(** A worker whose fork is in the trace exists. *)
Definition forked_ok (s : sys) (tr : list event) : Prop :=
  forall j, In (EvSpawn j) tr -> exists w, procs s !! j = Some w /\ w <> NotSpawned.


(** ** A run to the end, one image after the other *)

(** All the steps of worker [i], from the resizes to its exit, with its
    img_html child running as soon as it is forked; a worker that is not
    the first reads the turn pipe once and the gate pipe once. *)
Definition worker_run (i : nat) (reply caption : string) : list action :=
  [Work i Ok] ++ (if (i =? 0)%nat then [] else [Work i Ok])
    ++ turn_of i (if (i =? 0)%nat then [] else [Work i Ok]) reply caption.

(** The loop of process() for the images from the [i]-th on, of [n]: the
    parent polls and forks, the worker runs to its exit, and so on;
    [answers] are the reply to the rotation question and the caption for
    each image. *)
Fixpoint one_by_one (n i : nat) (answers : list (string * string)) : list action :=
  match answers with
  | [] => []
  | (reply, caption) :: rest =>
      poll_and_fork i (n - i) ++ worker_run i reply caption
        ++ one_by_one n (S i) rest
  end.

(** From the pipe() calls to the return of process(). *)
Definition whole_run (answers : list (string * string)) : list action :=
  [Main Ok] ++ one_by_one (length answers) 0 answers
    ++ [Main Ok] ++ repeat (Main Ok) (length answers) ++ [Main Ok].

(** The parent at the test of line 631 for image [i], the workers before
    it done and none alive. *)
Definition between (paths : list string) (html0 : list block) (i : nat)
    (caps : list string) (s : sys) : Prop :=
  argv s = paths /\ parent s = AtLoop i /\ length caps = i /\
  length (pid s) = length paths /\ length (procs s) = length paths /\
  (forall j, j < i -> pid s !! j = Some (Some j) /\ procs s !! j = Some (Exited 0)) /\
  (forall j, i <= j < length paths ->
             pid s !! j = Some None /\ procs s !! j = Some NotSpawned) /\
  ptp1 s = (if (i =? 0)%nat then [] else [index_of i]) /\
  ptp2 s = (if (i =? 0)%nat then [] else [index_of i]) /\
  kids s = [] /\ index_html s = report paths html0 i caps false.

(** * Properties *)

(** ** Image headers *)

Section HeaderFacts.

Lemma byte_eqb_iff (x y : byte) : Byte.eqb x y = true <-> x = y.
Proof. split; [apply byte_dec_bl | apply byte_dec_lb]. Qed.

(** Agreeing with a signature on its length is the same as starting with
    it, because no signature byte is the value read past the end. *)
Lemma at_agree_prefix (sig : list byte) :
  Forall (fun b => b <> x00) sig ->
  forall bytes : list byte,
    (forall i, i < length sig -> at_ bytes i = at_ sig i) <-> sig `prefix_of` bytes.
Proof.
  induction 1 as [|a sig Ha Hsig IH]; intros bytes.
  - split; [intros _; apply prefix_nil | simpl; intros _ i Hi; lia].
  - split.
    + intros Hag. destruct bytes as [|b bytes].
      * specialize (Hag 0). simpl in Hag. unfold at_ in Hag. simpl in Hag.
        exfalso. apply Ha. symmetry. apply Hag. lia.
      * assert (b = a) as -> by (apply (Hag 0); simpl; lia).
        apply prefix_cons, IH. intros i Hi. apply (Hag (S i)). simpl. lia.
    + intros [k ->] i Hi. unfold at_. apply app_nth1. exact Hi.
Qed.

Lemma sig_nonzero :
  Forall (fun b => b <> x00) jpg /\ Forall (fun b => b <> x00) png /\
  Forall (fun b => b <> x00) bmp /\ Forall (fun b => b <> x00) gif.
Proof. repeat split; repeat constructor; discriminate. Qed.

Lemma header_is_img_agree (bytes : list byte) :
  header_is_img bytes = true <->
  (forall i, i < length jpg -> at_ bytes i = at_ jpg i) \/
  (forall i, i < length png -> at_ bytes i = at_ png i) \/
  (forall i, i < length bmp -> at_ bytes i = at_ bmp i) \/
  (forall i, i < length gif -> at_ bytes i = at_ gif i).
Proof.
  unfold header_is_img.
  rewrite !orb_true_iff, !andb_true_iff, !byte_eqb_iff.
  split.
  - intros [[[H|H]|H]|H]; [left | right; left | right; right; left | right; right; right];
      intros i Hi; simpl in Hi;
      repeat (destruct i as [|i]; [intuition congruence|]); lia.
  - intros [H|[H|[H|H]]];
      [left; left; left | left; left; right | left; right | right];
      repeat split; apply H; simpl; lia.
Qed.

Lemma fread8_long (stack content : list byte) :
  8 <= length content -> fread8 stack content = take 8 content.
Proof. intros H. unfold fread8. apply take_app_le. exact H. Qed.

End HeaderFacts.

(** C7, as the code has it.  header_is_img accepts a byte sequence exactly
    when it starts with the JPEG, PNG, BMP or GIF signature.  invalid_img
    refuses a path that cannot be opened, and for a file of eight bytes or
    more it accepts exactly when the first eight bytes of the file pass
    header_is_img.  But it does not look at what fread returns, and its
    array is never initialised: for a shorter file the array keeps, past
    the bytes read, what it held before.  An empty file, which has no
    first bytes to satisfy the predicate, passes when the array holds a
    signature and is refused when it holds zeros. *)
Theorem header_is_img_signatures :
  (forall bytes : list byte,
      header_is_img bytes = true <->
      [xff; xd8] `prefix_of` bytes \/
      [x89; x50; x4e; x47; x0d; x0a; x1a; x0a] `prefix_of` bytes \/
      [x42; x4d] `prefix_of` bytes \/
      [x47; x49; x46] `prefix_of` bytes) /\
  (forall (fs : filesystem) (stack : list byte) (path : string),
      fs path = None -> invalid_img fs stack path = (-1)%Z) /\
  (forall (fs : filesystem) (stack : list byte) (path : string) (content : list byte),
      fs path = Some content -> 8 <= length content ->
      (invalid_img fs stack path = 0%Z <-> header_is_img (take 8 content) = true) /\
      (invalid_img fs stack path = 0%Z \/ invalid_img fs stack path = (-1)%Z)) /\
  (forall (fs : filesystem) (path : string),
      fs path = Some [] ->
      header_is_img (take 8 []) = false /\
      invalid_img fs png path = 0%Z /\
      invalid_img fs (repeat x00 8) path = (-1)%Z).
Proof.
  split_and!.
  - intros bytes. rewrite header_is_img_agree.
    destruct sig_nonzero as (Hj & Hp & Hb & Hg).
    rewrite (at_agree_prefix jpg Hj), (at_agree_prefix png Hp),
      (at_agree_prefix bmp Hb), (at_agree_prefix gif Hg).
    reflexivity.
  - intros fs stack path Hnone. unfold invalid_img. rewrite Hnone. reflexivity.
  - intros fs stack path content Hsome Hlen. unfold invalid_img.
    rewrite Hsome, (fread8_long stack content Hlen).
    destruct (header_is_img (take 8 content)); simpl; split; auto;
      split; congruence.
  - intros fs path Hsome. unfold invalid_img. rewrite Hsome.
    split_and!; reflexivity.
Qed.

(** The empty file, with the PNG signature in the array. *)
Lemma header_is_img_signatures_witness :
  invalid_img stale_fs png "empty.dat" = 0%Z.
Proof.
  apply (proj2 (proj2 (proj2 header_is_img_signatures)) stale_fs "empty.dat").
  reflexivity.
Defined.

(** ** Rotation *)

Section RotationFacts.

Lemma rot_dir_of_other (readbuf : string) :
  readbuf <> "1" -> readbuf <> "2" -> rot_dir_of readbuf = 0%Z.
Proof.
  intros H1 H2. unfold rot_dir_of.
  destruct (String.eqb_spec readbuf "1"); [contradiction|].
  destruct (String.eqb_spec readbuf "2"); [contradiction|reflexivity].
Qed.

Lemma rot_dir_of_range (readbuf : string) :
  rot_dir_of readbuf = 0%Z \/ rot_dir_of readbuf = 1%Z \/ rot_dir_of readbuf = 2%Z.
Proof.
  unfold rot_dir_of.
  destruct (String.eqb readbuf "1"); [auto|].
  destruct (String.eqb readbuf "2"); auto.
Qed.

(** A step that forks a rotation is the ask_user step of that worker, and
    the decision it got is positive. *)
Lemma rotate_only_when_asked (act : action) (s s' : sys) (evs : list event)
    (i : nat) (img rename : string) (d : Z) :
  step act s = Some (s', evs) ->
  In (EvFork i (Rotate img rename d)) evs ->
  exists a path,
    act = Work i a /\ procs s !! i = Some (Running AtAskUser) /\
    argv s !! i = Some path /\ ask_user a = Some d /\ (0 < d)%Z /\
    evs = [EvFork i (Rotate (thumb_name_of path) (thumb_name_of path) d);
           EvFork i (Rotate (med_name_of path) (med_name_of path) d)].
Proof.
  intros Hstep Hin. destruct act as [a|k a|k a]; simpl in Hstep.
  - unfold process in Hstep. repeat case_match; simplify_eq/=; intuition congruence.
  - unfold process_img, die, ask_user, cap_html in Hstep.
    repeat case_match; simplify_eq/=;
      try (intuition congruence).
    unfold rotations in *. destruct (0 <? rot_dir_of text)%Z eqn:E; [|destruct Hin].
    apply Z.ltb_lt in E.
    assert (d = rot_dir_of text /\ k = i) as [-> ->].
    { simpl in Hin. destruct Hin as [Hin|[Hin|[]]]; inversion Hin; auto. }
    exists (Line text). eexists. simpl. eauto 10.
  - unfold img_html in Hstep. repeat case_match; simplify_eq/=; intuition congruence.
Qed.

End RotationFacts.

(** C5. The reply "1" gives rot_dir 1 (magick -rotate 90, clockwise), "2"
    gives 2 (-rotate -90), every other reply, the empty one included,
    gives 0; typed lines reach ask_user without their newline; the
    ask_user step forks a rotation of the thumbnail and one of the medium
    image when rot_dir is 1 or 2 and forks nothing when it is 0, and no
    other step of the system forks a rotation. *)
Theorem rotation_decision :
  rot_dir_of "1" = 1%Z /\ rot_dir_of "2" = 2%Z /\ rot_dir_of EmptyString = 0%Z /\
  (forall readbuf, readbuf <> "1" -> readbuf <> "2" -> rot_dir_of readbuf = 0%Z) /\
  direction 1 = "90" /\ direction 2 = "-90" /\
  (forall junk more,
      input_string junk STRING_LEN ("1" ++ nl ++ more) = (0%Z, "1", more) /\
      input_string junk STRING_LEN ("2" ++ nl ++ more) = (0%Z, "2", more) /\
      input_string junk STRING_LEN (nl ++ more) = (0%Z, EmptyString, more)) /\
  (forall i path s readbuf,
      let d := rot_dir_of readbuf in
      let thumb := thumb_name_of path in
      let med := med_name_of path in
      process_img i path AtAskUser (Line readbuf) s
      = Some (Running AtAskCaption, s,
              if (d =? 0)%Z then []
              else [EvFork i (Rotate thumb thumb d); EvFork i (Rotate med med d)])) /\
  (forall act s s' evs i img rename d,
      step act s = Some (s', evs) ->
      In (EvFork i (Rotate img rename d)) evs ->
      exists readbuf path,
        act = Work i (Line readbuf) /\ procs s !! i = Some (Running AtAskUser) /\
        argv s !! i = Some path /\ d = rot_dir_of readbuf /\ (d = 1%Z \/ d = 2%Z) /\
        evs = [EvFork i (Rotate (thumb_name_of path) (thumb_name_of path) d);
               EvFork i (Rotate (med_name_of path) (med_name_of path) d)]).
Proof.
  repeat split; try reflexivity.
  - apply rot_dir_of_other.
  - intros i path s readbuf. simpl. unfold rotations.
    destruct (rot_dir_of_range readbuf) as [E|[E|E]]; rewrite E; reflexivity.
  - intros act s s' evs i img rename d Hstep Hin.
    destruct (rotate_only_when_asked _ _ _ _ _ _ _ _ Hstep Hin)
      as (a & path & -> & Hp & Hpath & Hask & Hpos & ->).
    destruct a as [| |readbuf]; simpl in Hask; try discriminate.
    + inversion Hask; subst. lia.
    + inversion Hask; subst. exists readbuf, path.
      destruct (rot_dir_of_range readbuf) as [E|[E|E]]; rewrite E in *; auto 10; lia.
Qed.

(** A reply that is neither token. *)
Lemma rotation_decision_witness :
  rot_dir_of "7" = 0%Z.
Proof.
  apply (proj1 (proj2 (proj2 (proj2 rotation_decision))) "7"); discriminate.
Defined.

(** ** Runs *)

Section RunFacts.

Lemma run_app (sched1 sched2 : list action) (s : sys) :
  run (sched1 ++ sched2) s =
  match run sched1 s with
  | None => None
  | Some (s1, tr1) =>
      match run sched2 s1 with
      | None => None
      | Some (s2, tr2) => Some (s2, tr1 ++ tr2)
      end
  end.
Proof.
  revert s. induction sched1 as [|act sched1 IH]; intros s; simpl.
  - destruct (run sched2 s) as [[s2 tr2]|]; reflexivity.
  - destruct (step act s) as [[s' evs]|]; [|reflexivity].
    rewrite IH. destruct (run sched1 s') as [[s1 tr1]|]; [|reflexivity].
    destruct (run sched2 s1) as [[s2 tr2]|]; [|reflexivity].
    rewrite app_assoc. reflexivity.
Qed.

(** Induction over a run from its first state: what holds at the start
    and survives every step holds wherever the run gets. *)
Lemma run_invariant (P : sys -> list event -> Prop) (s0 : sys) :
  P s0 [] ->
  (forall s tr act s' evs,
      P s tr -> step act s = Some (s', evs) -> P s' (tr ++ evs)) ->
  forall sched s tr, run sched s0 = Some (s, tr) -> P s tr.
Proof.
  intros H0 Hstep sched. induction sched as [|act sched IH] using rev_ind;
    intros s tr Hrun.
  - simpl in Hrun. inversion Hrun; subst. exact H0.
  - rewrite run_app in Hrun.
    destruct (run sched s0) as [[s1 tr1]|] eqn:E1; [|discriminate].
    simpl in Hrun. destruct (step act s1) as [[s2 evs]|] eqn:E2; [|discriminate].
    inversion Hrun; subst. rewrite app_nil_r.
    eapply Hstep; [apply IH; reflexivity | exact E2].
Qed.

End RunFacts.

(** ** The pool of workers *)

Section PoolFacts.

Lemma active_app (l1 l2 : list proc) : active (l1 ++ l2) = active l1 + active l2.
Proof. induction l1 as [|w l1 IH]; simpl; [reflexivity | rewrite IH; lia]. Qed.

Lemma active_take_S (l : list proc) (j : nat) (w : proc) :
  l !! j = Some w ->
  active (take (S j) l) = active (take j l) + (if running w then 1 else 0).
Proof.
  intros H. rewrite (take_S_r _ _ _ H), active_app. simpl. lia.
Qed.

(** A worker that stops running, or goes on running, does not raise the
    count, on the whole table or on any prefix of it. *)
Lemma active_take_insert_running (l : list proc) (i j : nat) (p : pc) (w : proc) :
  l !! i = Some (Running p) ->
  active (take j (<[i:=w]> l)) <= active (take j l).
Proof.
  revert i j. induction l as [|x l IH]; intros i j H; [discriminate|].
  destruct j as [|j]; [simpl; lia|].
  destruct i as [|i]; simpl in *.
  - inversion H; subst. simpl. destruct (running w); lia.
  - specialize (IH i j H). destruct (running x); lia.
Qed.

Lemma active_insert_running (l : list proc) (i : nat) (p : pc) (w : proc) :
  l !! i = Some (Running p) -> active (<[i:=w]> l) <= active l.
Proof.
  intros H. pose proof (active_take_insert_running l i (length l) p w H) as Hle.
  rewrite <- (length_insert l i w) in Hle at 1.
  rewrite !firstn_all in Hle. exact Hle.
Qed.

Lemma active_insert_le (l : list proc) (i : nat) (w : proc) :
  active (<[i:=w]> l) <= active l + 1.
Proof.
  revert i. induction l as [|x l IH]; intros i; [simpl; lia|].
  destruct i as [|i]; simpl.
  - destruct (running w), (running x); lia.
  - specialize (IH i). lia.
Qed.

Lemma spawned_app (tr1 tr2 : list event) :
  spawned (tr1 ++ tr2) = spawned tr1 ++ spawned tr2.
Proof. apply flat_map_app. Qed.

(** What a step of a worker leaves alone. *)
Lemma work_step_frame (i : nat) (a : answer) (s s' : sys) (evs : list event) :
  step (Work i a) s = Some (s', evs) ->
  exists p w,
    procs s !! i = Some (Running p) /\ procs s' = <[i:=w]> (procs s) /\
    w <> NotSpawned /\ parent s' = parent s /\ pid s' = pid s /\
    argv s' = argv s /\ spawned evs = [] /\
    (running w = false -> exists st, In (EvExit i st) evs).
Proof.
  intros Hstep. simpl in Hstep.
  unfold process_img, die, ask_user, cap_html in Hstep.
  repeat case_match; simplify_eq/=;
    (do 2 eexists; split; [reflexivity|]);
    repeat split; try discriminate; try (intros; discriminate);
    try (unfold rotations; case_match; reflexivity);
    intros _; eexists; simpl; eauto.
Qed.

Lemma html_step_frame (i : nat) (a : answer) (s s' : sys) (evs : list event) :
  step (Html i a) s = Some (s', evs) ->
  procs s' = procs s /\ parent s' = parent s /\ pid s' = pid s /\
  argv s' = argv s /\ ptp1 s' = ptp1 s /\ ptp2 s' = ptp2 s /\
  exists rc, evs = [EvImgHtml i rc] \/ exists msg, evs = [EvStderr msg; EvImgHtml i rc].
Proof.
  intros Hstep. simpl in Hstep. unfold img_html in Hstep.
  repeat case_match; simplify_eq/=; repeat split; eauto.
Qed.

Lemma start_pool (paths : list string) (html0 : list block) :
  pool_ok (start paths html0) /\ slots_ok (start paths html0) [].
Proof.
  assert (active (replicate (length paths) NotSpawned) = 0) as Hact.
  { induction (length paths); simpl; auto. }
  unfold pool_ok, slots_ok, start; simpl. rewrite Hact, !length_replicate.
  repeat split; try (unfold max_conversions; lia).
  exists 0. repeat split; try lia;
    apply lookup_replicate_2; lia.
Qed.

Lemma is_running_lookup (l : list proc) (j : nat) (w : proc) :
  l !! j = Some w -> is_running (l !! j) = running w.
Proof. intros ->. destruct w; reflexivity. Qed.

Local Ltac slots_with k Hlow Hhigh :=
  repeat split; try assumption; try lia;
  exists k; repeat split; auto; try lia;
  first [apply Hhigh; lia | apply Hlow; lia].

Lemma step_pool (s s' : sys) (tr evs : list event) (act : action) :
  pool_ok s /\ slots_ok s tr ->
  step act s = Some (s', evs) ->
  pool_ok s' /\ slots_ok s' (tr ++ evs).
Proof.
  intros [[Hcap Hpar] (Hlp & Hlw & k & Hsp & Hk & Hlow & Hhigh & Hnext)] Hstep.
  destruct act as [a|i a|i a].
  - (* the parent *)
    simpl in Hstep. unfold process in Hstep.
    destruct (parent s) as [|n|n j num|n|n|n|st] eqn:Hp.
    + (* pipe() *)
      destruct a; simplify_eq/=; unfold pool_ok, slots_ok; simpl;
        rewrite ?app_nil_r, ?spawned_app, ?Hsp; simpl; rewrite ?app_nil_r;
        (split; [split; [assumption|exact I]|]);
        slots_with 0 Hlow Hhigh.
    + (* loop test *)
      destruct a; simplify_eq/=. unfold pool_ok, slots_ok; simpl.
      rewrite app_nil_r.
      destruct (n <? length (argv s))%nat eqn:E; simpl.
      * apply Nat.ltb_lt in E. rewrite ?take_0. simpl.
        slots_with n Hlow Hhigh.
      * slots_with n Hlow Hhigh.
    + (* concurrent() *)
      destruct Hpar as [Hnum Hn]. subst k.
      destruct (j <? length (argv s))%nat eqn:E.
      * apply Nat.ltb_lt in E.
        destruct (lookup_lt_is_Some_2 (procs s) j) as [w Hw]; [lia|].
        assert (forall num', (Z.of_nat (active (take (S j) (procs s))) <= num')%Z ->
                  pool_ok (set_parent (AtPoll n (S j) num') s) /\
                  slots_ok (set_parent (AtPoll n (S j) num') s) (tr ++ [])) as Hgo.
        { intros num' Hb. unfold pool_ok, slots_ok; simpl. rewrite app_nil_r.
          slots_with n Hlow Hhigh. }
        rewrite (active_take_S _ _ _ Hw) in Hgo.
        destruct (pid s !! j) as [[c|]|] eqn:Hslot; [| |destruct a; discriminate].
        -- destruct a; try discriminate. simplify_eq/=.
           assert (c = j) as ->.
           { destruct (Nat.lt_ge_cases j n) as [Hlt|Hge].
             - specialize (Hlow j Hlt). congruence.
             - destruct (Hhigh j) as [Hx _]; [lia|congruence]. }
           apply Hgo. rewrite (is_running_lookup _ _ _ Hw).
           destruct (running w); lia.
        -- assert (w = NotSpawned) as ->.
           { destruct (Nat.lt_ge_cases j n) as [Hlt|Hge].
             - specialize (Hlow j Hlt). congruence.
             - destruct (Hhigh j) as [_ Hx]; [lia|congruence]. }
           destruct a; simplify_eq/=; apply Hgo; simpl; lia.
      * apply Nat.ltb_ge in E. rewrite firstn_all2 in Hnum by lia.
        destruct a; simplify_eq/=. unfold pool_ok, slots_ok; simpl.
        rewrite app_nil_r.
        destruct (max_conversions <=? num)%Z eqn:Ecap; simpl.
        -- slots_with n Hlow Hhigh.
        -- apply Z.leb_gt in Ecap.
           slots_with n Hlow Hhigh.
    + (* sleep *)
      destruct a; simplify_eq/=. unfold pool_ok, slots_ok; simpl.
      rewrite app_nil_r, ?take_0. simpl.
      slots_with n Hlow Hhigh.
    + (* fork *)
      destruct Hpar as [Hlt Hn]. subst k.
      destruct a; simplify_eq/=. unfold pool_ok, slots_ok; simpl.
      rewrite !length_insert, spawned_app, Hsp. simpl.
      pose proof (active_insert_le (procs s) n (Running AtResize)).
      repeat split; try assumption; try lia.
      exists (S n). rewrite seq_S. simpl. repeat split; try lia.
      * intros j Hj. destruct (decide (j = n)) as [->|Hne].
        -- apply list_lookup_insert_eq. lia.
        -- rewrite list_lookup_insert_ne by lia. apply Hlow. lia.
      * rewrite list_lookup_insert_ne by lia. apply Hhigh. lia.
      * rewrite list_lookup_insert_ne by lia. apply Hhigh. lia.
    + (* the final waits *)
      destruct a; simplify_eq/=.
      repeat case_match; simplify_eq/=; unfold pool_ok, slots_ok; simpl;
        rewrite ?app_nil_r, ?spawned_app, ?Hsp; simpl; rewrite ?app_nil_r;
        (split; [split; [assumption|exact I]|]);
        slots_with k Hlow Hhigh.
    + destruct a; discriminate.
  - (* a worker *)
    destruct (work_step_frame _ _ _ _ _ Hstep)
      as (p & w & Hi & Hprocs & Hw & Hparent & Hpid & Hargv & Hsp' & _).
    unfold pool_ok, slots_ok.
    rewrite Hprocs, Hparent, Hpid, Hargv, length_insert, spawned_app, Hsp', app_nil_r.
    pose proof (active_insert_running _ _ _ w Hi) as Hle.
    split; [split; [lia|]|].
    + unfold pool_ok in Hpar.
      destruct (parent s) as [|n|n j num|n|n|n|st]; try assumption.
      * pose proof (active_take_insert_running _ _ j _ w Hi). intuition lia.
      * intuition lia.
    + repeat split; try assumption. exists k. repeat split; auto.
      * apply Hhigh. assumption.
      * assert (i <> j).
        { intros ->. destruct (Hhigh j) as [_ Hx]; [lia|congruence]. }
        rewrite list_lookup_insert_ne by assumption. apply Hhigh. lia.
  - (* an img_html child *)
    destruct (html_step_frame _ _ _ _ _ Hstep)
      as (Hprocs & Hparent & Hpid & Hargv & _ & _ & rc & Hevs).
    assert (spawned evs = []) as Hnone by (destruct Hevs as [->|[msg ->]]; reflexivity).
    unfold pool_ok, slots_ok.
    rewrite Hprocs, Hparent, Hpid, Hargv, spawned_app, Hnone, app_nil_r.
    split; [split; assumption|].
    repeat split; try assumption. exists k. repeat split; auto; by apply Hhigh.
Qed.

End PoolFacts.

(** ** Steps of a worker, by their effect on the pipes *)

Section WorkerSteps.

Lemma index_of_first (i : nat) : (index_of i =? 1)%Z = true <-> i = 0.
Proof. unfold index_of. rewrite Z.eqb_eq. lia. Qed.

Lemma index_of_later (i : nat) : (index_of i =? 1)%Z = false <-> i <> 0.
Proof. unfold index_of. rewrite Z.eqb_neq. lia. Qed.

Lemma index_of_inj (i j : nat) : index_of i = index_of j -> i = j.
Proof. unfold index_of. lia. Qed.

(** Every step of a worker is of one of seven kinds. *)
Lemma work_step_cases (i : nat) (a : answer) (s s' : sys) (evs : list event) :
  step (Work i a) s = Some (s', evs) ->
  exists p w,
    procs s !! i = Some (Running p) /\ procs s' = <[i:=w]> (procs s) /\
    ((* a move of its own *)
      (local_move i p w /\ ptp1 s' = ptp1 s /\ ptp2 s' = ptp2 s /\
       forall k, ~ In (EvGateFail k) evs) \/
     (* the gate read fails *)
      (p = AtGateRead /\ w = Running AtDisplay /\ ptp1 s' = ptp1 s /\
       ptp2 s' = ptp2 s /\ In (EvGateFail i) evs) \/
     (* a turn value is read *)
      (exists v rest,
          p = AtTurnRead /\ ptp2 s = v :: rest /\ ptp2 s' = rest /\
          ptp1 s' = ptp1 s /\ evs = [EvTurnRecv i v] /\
          w = Running (if (index_of i =? v)%Z then AtImgFork else AtTurnResend v)) \/
     (* a turn value is written back *)
      (exists v,
          p = AtTurnResend v /\ w = Running AtTurnSleep /\
          ptp2 s' = ptp2 s ++ [v] /\ ptp1 s' = ptp1 s /\ evs = [EvResend i v]) \/
     (* the turn is handed on *)
      (p = AtSendTurn /\ w = Running AtSendGate /\
       ptp2 s' = ptp2 s ++ [(index_of i + 1)%Z] /\ ptp1 s' = ptp1 s /\
       evs = [EvTurnSend i (index_of i + 1)%Z]) \/
     (* the gate signal is read *)
      (exists g rest,
          p = AtGateRead /\ w = Running AtDisplay /\ ptp1 s = g :: rest /\
          ptp1 s' = rest /\ ptp2 s' = ptp2 s /\ evs = [EvGateRecv i g]) \/
     (* the gate signal is sent *)
      (p = AtSendGate /\ w = Running AtReturn /\
       ptp1 s' = ptp1 s ++ [(index_of i + 1)%Z] /\ ptp2 s' = ptp2 s /\
       evs = [EvGateSend i (index_of i + 1)%Z])).
Proof.
  intros Hstep. simpl in Hstep.
  destruct (procs s !! i) as [[|p|]|] eqn:Hi; try discriminate.
  destruct (argv s !! i) as [path|] eqn:Hpath; try discriminate.
  exists p.
  unfold process_img, die, ask_user, cap_html in Hstep.
  destruct p; destruct a; simpl in Hstep; repeat case_match; simplify_eq/=;
    eexists; (split; [reflexivity|]); (split; [reflexivity|]).
  all: try match goal with
           | H : (index_of _ =? 1)%Z = true |- _ => apply index_of_first in H
           | H : (index_of _ =? 1)%Z = false |- _ => apply index_of_later in H
           end.
  all: try (left; split; [by constructor|];
            (split; [reflexivity|]); (split; [reflexivity|]);
            unfold rotations; simpl; repeat case_match; simpl; intuition congruence).
  all: try (right; left; simpl; by auto 10).
  all: try (right; right; left; do 2 eexists; split_and!; try reflexivity;
            match goal with H : (index_of _ =? _)%Z = _ |- _ => by rewrite H end).
  all: try (right; right; right; left; eexists; by split_and!).
  all: try (right; right; right; right; left; by split_and!).
  all: try (right; right; right; right; right; left; do 2 eexists; by split_and!).
  all: try (right; right; right; right; right; right; by split_and!).
Qed.

End WorkerSteps.

(** ** The turn to write index.html *)

Section TurnFacts.

Lemma lookup_insert_cases {A} (l : list A) (i j : nat) (x y : A) :
  <[i:=x]> l !! j = Some y -> (j = i /\ y = x) \/ (j <> i /\ l !! j = Some y).
Proof.
  intros H. apply list_lookup_insert_Some in H as [(-> & -> & _)|(Hne & H)]; auto.
Qed.

Lemma holds_turn_cases (i : nat) (w : proc) :
  holds_turn i w = true <->
  in_turn w = true \/ (exists v, w = Running (AtTurnResend v)) \/
  (i = 0 /\ pre_turn w = true).
Proof.
  unfold holds_turn. rewrite !orb_true_iff, andb_true_iff, Nat.eqb_eq.
  split.
  - intros [[H|H]|H]; auto. right; left. destruct w as [|[]|]; try discriminate. eauto.
  - intros [H|[[v ->]|H]]; auto.
Qed.

Lemma turn_ok_ext (s s' : sys) :
  procs s' = procs s -> ptp2 s' = ptp2 s -> turn_ok s -> turn_ok s'.
Proof. unfold turn_ok, token_at. intros -> ->. exact id. Qed.

(** With a value in the pipe nobody has the turn. *)
Lemma turn_pipe_nobody (s : sys) (v : Z) (rest : list Z) (j : nat) (w : proc) :
  turn_ok s -> ptp2 s = v :: rest -> procs s !! j = Some w ->
  holds_turn j w = false /\ rest = [].
Proof.
  intros (T0 & T1 & T2 & _) Hq Hj. split.
  - destruct (holds_turn j w) eqn:E; [|reflexivity].
    specialize (T2 _ _ Hj E). congruence.
  - rewrite Hq in T1. destruct rest; [reflexivity|simpl in T1; lia].
Qed.

(** The worker that has the turn is the only one. *)
Lemma turn_sole (s : sys) (i j : nat) (wi w : proc) :
  turn_ok s -> procs s !! i = Some wi -> holds_turn i wi = true ->
  procs s !! j = Some w -> j <> i -> holds_turn j w = false.
Proof.
  intros (_ & _ & _ & T3 & _) Hi Hh Hj Hne.
  destruct (holds_turn j w) eqn:E; [|reflexivity].
  exfalso. apply Hne. eauto.
Qed.

Lemma not_holding (j : nat) (w : proc) :
  holds_turn j w = false ->
  in_turn w = false /\ (forall v, w <> Running (AtTurnResend v)) /\
  (j = 0 -> pre_turn w = false).
Proof.
  intros H. split_and!.
  - destruct (in_turn w) eqn:E; [|reflexivity].
    rewrite (proj2 (holds_turn_cases j w)) in H; [discriminate|auto].
  - intros v ->. rewrite (proj2 (holds_turn_cases j _)) in H; [discriminate|eauto].
  - intros ->. destruct (pre_turn w) eqn:E; [|reflexivity].
    rewrite (proj2 (holds_turn_cases 0 w)) in H; [discriminate|auto].
Qed.

(** A worker that moves on without gaining anything the invariant speaks
    of, the pipe being left alone. *)
Lemma turn_ok_weaken (s s' : sys) (i : nat) (w0 w' : proc) :
  turn_ok s -> procs s !! i = Some w0 ->
  procs s' = <[i:=w']> (procs s) -> ptp2 s' = ptp2 s ->
  (pre_turn w' = true -> pre_turn w0 = true) ->
  (in_turn w' = true -> in_turn w0 = true) ->
  (forall v, w' = Running (AtTurnResend v) -> w0 = w') ->
  (i = 0 -> polling w' = false /\ w' <> Running AtGateRead) ->
  turn_ok s'.
Proof.
  intros (T0 & T1 & T2 & T3 & T4 & T5) Hi Hprocs Hq Hpre Hin Hreg Hfirst.
  assert (forall j w, procs s' !! j = Some w -> pre_turn w = true ->
            exists w1, procs s !! j = Some w1 /\ pre_turn w1 = true) as Spre.
  { intros j w Hj Hw. rewrite Hprocs in Hj.
    apply lookup_insert_cases in Hj as [[-> ->]|[Hne Hj]]; eauto. }
  assert (forall j w, procs s' !! j = Some w -> in_turn w = true ->
            exists w1, procs s !! j = Some w1 /\ in_turn w1 = true) as Sin.
  { intros j w Hj Hw. rewrite Hprocs in Hj.
    apply lookup_insert_cases in Hj as [[-> ->]|[Hne Hj]]; eauto. }
  assert (forall j v, procs s' !! j = Some (Running (AtTurnResend v)) ->
            procs s !! j = Some (Running (AtTurnResend v))) as Sreg.
  { intros j v Hj. rewrite Hprocs in Hj.
    apply lookup_insert_cases in Hj as [[-> Hw]|[Hne Hj]]; [|assumption].
    rewrite Hi. f_equal. symmetry in Hw. rewrite (Hreg _ Hw). assumption. }
  assert (forall j w, procs s' !! j = Some w -> holds_turn j w = true ->
            exists w1, procs s !! j = Some w1 /\ holds_turn j w1 = true) as Shold.
  { intros j w Hj Hw. apply holds_turn_cases in Hw as [Hw|[[v ->]|[-> Hw]]].
    - destruct (Sin _ _ Hj Hw) as (w1 & ? & ?). exists w1.
      rewrite holds_turn_cases. auto.
    - exists (Running (AtTurnResend v)). rewrite holds_turn_cases. split; eauto.
    - destruct (Spre _ _ Hj Hw) as (w1 & ? & ?). exists w1.
      rewrite holds_turn_cases. auto. }
  assert (forall t, token_at s' t -> token_at s t) as Stok.
  { intros t [Ht|[k Hk]]; [left; congruence | right; eauto]. }
  unfold turn_ok. rewrite Hq. split_and!.
  - intros w H0. rewrite Hprocs in H0.
    apply lookup_insert_cases in H0 as [[<- ->]|[Hne H0]]; eauto.
  - assumption.
  - intros j w Hj Hw. destruct (Shold _ _ Hj Hw) as (w1 & ? & ?). eauto.
  - intros a b wa wb Ha Hb Hwa Hwb.
    destruct (Shold _ _ Ha Hwa) as (? & ? & ?).
    destruct (Shold _ _ Hb Hwb) as (? & ? & ?). eauto.
  - intros t j w Ht Hj Hw. destruct (Spre _ _ Hj Hw) as (? & ? & ?). eauto.
  - intros k wk j w Hk Hwk Hj Hw.
    destruct (Sin _ _ Hk Hwk) as (? & ? & ?).
    destruct (Spre _ _ Hj Hw) as (? & ? & ?). eauto.
Qed.

Local Ltac old_or_new H :=
  apply lookup_insert_cases in H as [[? ?]|[? H]];
  [repeat match goal with E : ?x = _ |- _ => is_var x; subst x end|].

(** The first worker leaves the resize step for line 482. *)
Lemma turn_ok_enter_first (s s' : sys) :
  turn_ok s -> procs s !! 0 = Some (Running AtResize) ->
  procs s' = <[0:=Running AtImgFork]> (procs s) -> ptp2 s' = ptp2 s ->
  turn_ok s'.
Proof.
  intros Hok Hi Hprocs Hq.
  assert (holds_turn 0 (Running AtResize) = true) as Hh by reflexivity.
  pose proof (fun j w => turn_sole s 0 j _ w Hok Hi Hh) as Hsole.
  destruct Hok as (T0 & T1 & T2 & T3 & T4 & T5).
  pose proof (T2 _ _ Hi Hh) as Hempty.
  unfold turn_ok, token_at. rewrite Hprocs, Hq, Hempty. split_and!.
  - intros w H. old_or_new H; [split; [reflexivity|discriminate] | done].
  - simpl; lia.
  - reflexivity.
  - intros a b wa wb Ha Hb Hwa Hwb.
    assert (forall j w, <[0:=Running AtImgFork]> (procs s) !! j = Some w ->
                        holds_turn j w = true -> j = 0) as Hz.
    { intros j w Hj Hw. old_or_new Hj; [reflexivity|].
      rewrite (Hsole _ _ Hj) in Hw; [discriminate|assumption]. }
    rewrite (Hz _ _ Ha Hwa), (Hz _ _ Hb Hwb). reflexivity.
  - intros t j w [[]|[k Hk]] Hj Hw. old_or_new Hk; [discriminate|].
    destruct (not_holding _ _ (Hsole _ _ Hk ltac:(assumption))) as (_ & Hreg & _).
    exfalso. eapply Hreg; reflexivity.
  - intros k wk j w Hk Hwk Hj Hw.
    old_or_new Hj; [discriminate|]. old_or_new Hk; [lia|].
    destruct (not_holding _ _ (Hsole _ _ Hk ltac:(assumption))) as (Hin & _).
    congruence.
Qed.

(** A worker reads a turn value: it keeps it to write it back, or it is
    its own and the worker goes on to line 482. *)
Lemma turn_ok_recv (s s' : sys) (i : nat) (v : Z) (rest : list Z) :
  turn_ok s -> procs s !! i = Some (Running AtTurnRead) ->
  ptp2 s = v :: rest -> ptp2 s' = rest ->
  procs s' = <[i:=Running (if (index_of i =? v)%Z then AtImgFork
                            else AtTurnResend v)]> (procs s) ->
  turn_ok s'.
Proof.
  intros Hok Hi Hpipe Hq Hprocs.
  pose proof (fun j w H => proj1 (turn_pipe_nobody s v rest j w Hok Hpipe H)) as Hno.
  destruct (turn_pipe_nobody s v rest _ _ Hok Hpipe Hi) as [_ ->].
  destruct Hok as (T0 & T1 & T2 & T3 & T4 & T5).
  assert (i <> 0) as Hi0.
  { intros ->. destruct (T0 _ Hi) as [Hp _]. discriminate. }
  assert (forall t, In t [v] -> token_at s t) as Htok.
  { intros t Ht. left. rewrite Hpipe. exact Ht. }
  unfold turn_ok, token_at. rewrite Hprocs, Hq. split_and!.
  - intros w H. old_or_new H; [congruence|auto].
  - simpl; lia.
  - reflexivity.
  - intros a b wa wb Ha Hb Hwa Hwb.
    assert (forall j w, <[i:=Running (if (index_of i =? v)%Z then AtImgFork
                                      else AtTurnResend v)]> (procs s) !! j = Some w ->
                        holds_turn j w = true -> j = i) as Hz.
    { intros j w Hj Hw. old_or_new Hj; [reflexivity|].
      rewrite (Hno _ _ Hj) in Hw. discriminate. }
    rewrite (Hz _ _ Ha Hwa), (Hz _ _ Hb Hwb). reflexivity.
  - intros t j w [[]|[k Hk]] Hj Hw.
    assert (t = v) as ->.
    { old_or_new Hk.
      - destruct (index_of i =? v)%Z; congruence.
      - destruct (not_holding _ _ (Hno _ _ Hk)) as (_ & Hreg & _).
        exfalso. eapply Hreg; reflexivity. }
    old_or_new Hj.
    + eapply T4; [apply Htok; left; reflexivity | exact Hi | reflexivity].
    + eapply T4; [apply Htok; left; reflexivity | exact Hj | exact Hw].
  - intros k wk j w Hk Hwk Hj Hw. old_or_new Hk.
    + destruct (index_of i =? v)%Z eqn:E; [|discriminate].
      apply Z.eqb_eq in E.
      old_or_new Hj; [discriminate|].
      assert (v <= index_of j)%Z
        by (eapply T4; [apply Htok; left; reflexivity | exact Hj | exact Hw]).
      unfold index_of in *. lia.
    + destruct (not_holding _ _ (Hno _ _ Hk)) as (Hin & _). congruence.
Qed.

(** A worker writes back the value it read. *)
Lemma turn_ok_resend (s s' : sys) (i : nat) (v : Z) :
  turn_ok s -> procs s !! i = Some (Running (AtTurnResend v)) ->
  ptp2 s' = ptp2 s ++ [v] -> procs s' = <[i:=Running AtTurnSleep]> (procs s) ->
  turn_ok s'.
Proof.
  intros Hok Hi Hq Hprocs.
  assert (holds_turn i (Running (AtTurnResend v)) = true) as Hh by reflexivity.
  pose proof (fun j w => turn_sole s i j _ w Hok Hi Hh) as Hsole.
  destruct Hok as (T0 & T1 & T2 & T3 & T4 & T5).
  pose proof (T2 _ _ Hi Hh) as Hempty.
  assert (i <> 0) as Hi0.
  { intros ->. destruct (T0 _ Hi) as [Hp _]. discriminate. }
  assert (forall j w, <[i:=Running AtTurnSleep]> (procs s) !! j = Some w ->
                      holds_turn j w = false) as Hnone.
  { intros j w Hj. old_or_new Hj; [|auto].
    unfold holds_turn. simpl. destruct i; [done|reflexivity]. }
  unfold turn_ok, token_at. rewrite Hprocs, Hq, Hempty. simpl. split_and!.
  - intros w H. old_or_new H; [congruence|auto].
  - lia.
  - intros j w Hj Hw. rewrite (Hnone _ _ Hj) in Hw. discriminate.
  - intros a b wa wb Ha Hb Hwa. rewrite (Hnone _ _ Ha) in Hwa. discriminate.
  - intros t j w Ht Hj Hw.
    assert (t = v) as ->.
    { destruct Ht as [[<-|[]]|[k Hk]]; [reflexivity|].
      destruct (not_holding _ _ (Hnone _ _ Hk)) as (_ & Hreg & _).
      exfalso. eapply Hreg; reflexivity. }
    assert (token_at s v) as Htok by (right; eauto).
    old_or_new Hj.
    + eapply T4; [exact Htok | exact Hi | reflexivity].
    + eapply T4; [exact Htok | exact Hj | exact Hw].
  - intros k wk j w Hk Hwk.
    destruct (not_holding _ _ (Hnone _ _ Hk)) as (Hin & _). congruence.
Qed.

(** A worker hands the turn on at line 570. *)
Lemma turn_ok_send (s s' : sys) (i : nat) :
  turn_ok s -> procs s !! i = Some (Running AtSendTurn) ->
  ptp2 s' = ptp2 s ++ [(index_of i + 1)%Z] ->
  procs s' = <[i:=Running AtSendGate]> (procs s) ->
  turn_ok s'.
Proof.
  intros Hok Hi Hq Hprocs.
  assert (holds_turn i (Running AtSendTurn) = true) as Hh by reflexivity.
  pose proof (fun j w => turn_sole s i j _ w Hok Hi Hh) as Hsole.
  destruct Hok as (T0 & T1 & T2 & T3 & T4 & T5).
  pose proof (T2 _ _ Hi Hh) as Hempty.
  assert (forall j w, <[i:=Running AtSendGate]> (procs s) !! j = Some w ->
                      holds_turn j w = false) as Hnone.
  { intros j w Hj. old_or_new Hj; [|auto].
    unfold holds_turn. simpl. apply andb_false_r. }
  unfold turn_ok, token_at. rewrite Hprocs, Hq, Hempty. simpl. split_and!.
  - intros w H. old_or_new H; [split; [reflexivity|discriminate] | auto].
  - lia.
  - intros j w Hj Hw. rewrite (Hnone _ _ Hj) in Hw. discriminate.
  - intros a b wa wb Ha Hb Hwa. rewrite (Hnone _ _ Ha) in Hwa. discriminate.
  - intros t j w Ht Hj Hw.
    assert (t = (index_of i + 1)%Z) as ->.
    { destruct Ht as [[<-|[]]|[k Hk]]; [reflexivity|].
      destruct (not_holding _ _ (Hnone _ _ Hk)) as (_ & Hreg & _).
      exfalso. eapply Hreg; reflexivity. }
    old_or_new Hj; [discriminate|].
    assert (i < j) by (eapply T5; [exact Hi | reflexivity | exact Hj | exact Hw]).
    unfold index_of. lia.
  - intros k wk j w Hk Hwk.
    destruct (not_holding _ _ (Hnone _ _ Hk)) as (Hin & _). congruence.
Qed.

(** What a step of the parent or of an img_html child does to the
    workers and the pipes. *)
Lemma main_step_frame (a : answer) (s s' : sys) (evs : list event) :
  step (Main a) s = Some (s', evs) ->
  ptp1 s' = ptp1 s /\ ptp2 s' = ptp2 s /\
  (forall k, ~ In (EvGateFail k) evs) /\
  (procs s' = procs s \/
   exists n, parent s = AtFork n /\ evs = [EvSpawn n] /\
             procs s' = <[n:=Running AtResize]> (procs s)).
Proof.
  intros Hstep. simpl in Hstep. unfold process in Hstep.
  repeat case_match; simplify_eq/=; split_and!; eauto;
    intros k Hk; simpl in Hk; intuition congruence.
Qed.

Lemma spawn_fresh (s : sys) (tr : list event) (n : nat) :
  slots_ok s tr -> parent s = AtFork n ->
  procs s !! n = Some NotSpawned \/ length (procs s) <= n.
Proof.
  intros (_ & Hlw & k & _ & _ & _ & Hhigh & Hnext) Hp. rewrite Hp in Hnext. subst k.
  destruct (Nat.lt_ge_cases n (length (argv s))) as [Hlt|Hge].
  - left. apply Hhigh. lia.
  - right. lia.
Qed.

Lemma step_turn (s s' : sys) (tr evs : list event) (act : action) :
  slots_ok s tr -> turn_ok s -> step act s = Some (s', evs) -> turn_ok s'.
Proof.
  intros Hslots Hok Hstep. destruct act as [a|i a|i a].
  - destruct (main_step_frame _ _ _ _ Hstep) as (_ & Hq & _ & [Hprocs|(n & Hp & _ & Hprocs)]).
    + eapply turn_ok_ext; eauto.
    + destruct (spawn_fresh _ _ _ Hslots Hp) as [Hn|Hn].
      * eapply turn_ok_weaken; eauto; try discriminate;
          try (intros _; split; [reflexivity|discriminate]).
      * rewrite list_insert_ge in Hprocs by assumption.
        eapply turn_ok_ext; eauto.
  - destruct (work_step_cases _ _ _ _ _ Hstep) as (p & w & Hi & Hprocs & Hkind).
    assert (i = 0 -> polling (Running p) = false /\ Running p <> Running AtGateRead)
      as Hfirst.
    { intros ->. destruct Hok as (T0 & _). auto. }
    destruct Hkind as [(Hmove & _ & Hq & _)|[(-> & -> & _ & Hq & _)|
      [(v & rest & -> & Hpipe & Hq & _ & _ & ->)|[(v & -> & -> & Hq & _)|
      [(-> & -> & Hq & _)|[(g & rest & -> & -> & _ & _ & Hq & _)|
       (-> & -> & _ & Hq & _)]]]]]].
    + inversion Hmove; subst;
        try (eapply turn_ok_weaken; eauto; try discriminate; try done;
             intros ->; split; try discriminate; try reflexivity;
             destruct Hfirst as [? ?]; done).
      eapply turn_ok_enter_first; eauto.
    + eapply turn_ok_weaken; eauto; try discriminate;
        try (intros ->; destruct Hfirst as [_ ?]; done).
    + eapply turn_ok_recv; eauto.
    + eapply turn_ok_resend; eauto.
    + eapply turn_ok_send; eauto.
    + eapply turn_ok_weaken; eauto; try discriminate;
        try (intros ->; destruct Hfirst as [_ ?]; done).
    + eapply turn_ok_weaken; eauto; try discriminate;
        try (intros _; split; [reflexivity|discriminate]).
  - destruct (html_step_frame _ _ _ _ _ Hstep) as (Hprocs & _ & _ & _ & _ & Hq & _).
    eapply turn_ok_ext; eauto.
Qed.

Lemma start_turn (paths : list string) (html0 : list block) :
  turn_ok (start paths html0).
Proof.
  assert (forall j w, replicate (length paths) NotSpawned !! j = Some w ->
                      w = NotSpawned) as Hall.
  { intros j w H. apply lookup_replicate in H as [-> _]. reflexivity. }
  unfold turn_ok, token_at, start; simpl. split_and!.
  - intros w H. rewrite (Hall _ _ H). split; [reflexivity|discriminate].
  - lia.
  - reflexivity.
  - intros i j wi wj Hi Hj Hwi Hwj.
    rewrite (Hall _ _ Hi) in Hwi. rewrite (Hall _ _ Hj) in Hwj.
    unfold holds_turn in *. simpl in *.
    rewrite andb_true_r in *. apply Nat.eqb_eq in Hwi, Hwj. congruence.
  - intros t j w [[]|[k Hk]]. apply Hall in Hk. discriminate.
  - intros k wk j w Hk Hwk. rewrite (Hall _ _ Hk) in Hwk. discriminate.
Qed.

End TurnFacts.

(** ** The gate before the display *)

Section GateFacts.

Local Ltac old_or_new H :=
  apply lookup_insert_cases in H as [[? ?]|[? H]];
  [repeat match goal with E : ?x = _ |- _ => is_var x; subst x end|].

Lemma gate_ok_ext (s s' : sys) :
  procs s' = procs s -> ptp1 s' = ptp1 s -> ptp2 s' = ptp2 s ->
  gate_ok s -> gate_ok s'.
Proof. unfold gate_ok, turn_value, token_at. intros -> -> ->. exact id. Qed.

Lemma turn_value_weaken (s s' : sys) (i : nat) (w0 w' : proc) (t : Z) :
  procs s !! i = Some w0 -> procs s' = <[i:=w']> (procs s) ->
  ptp2 s' = ptp2 s ->
  (in_turn w' = true -> in_turn w0 = true) ->
  (forall v, w' = Running (AtTurnResend v) -> w0 = w') ->
  turn_value s' t -> turn_value s t.
Proof.
  intros Hi Hprocs Hq Hin Hreg. unfold turn_value, token_at.
  rewrite Hprocs, Hq.
  intros [[Ht|[k Hk]]|(j & w & Hj & Hw & ->)].
  - auto.
  - old_or_new Hk; [|eauto].
    left; right. exists i. rewrite Hi. f_equal.
    match goal with
    | E : Running _ = _ |- _ => symmetry in E; rewrite (Hreg _ E); exact E
    end.
  - old_or_new Hj; right; eauto 10.
Qed.

Lemma turn_value_recv (s s' : sys) (i : nat) (v : Z) (rest : list Z) (t : Z) :
  procs s !! i = Some (Running AtTurnRead) ->
  ptp2 s = v :: rest -> ptp2 s' = rest ->
  procs s' = <[i:=Running (if (index_of i =? v)%Z then AtImgFork
                            else AtTurnResend v)]> (procs s) ->
  turn_value s' t -> turn_value s t.
Proof.
  intros Hi Hpipe Hq Hprocs. unfold turn_value, token_at.
  rewrite Hprocs, Hq, Hpipe.
  intros [[Ht|[k Hk]]|(j & w & Hj & Hw & ->)].
  - left; left; right; assumption.
  - old_or_new Hk; [|eauto].
    destruct (index_of i =? v)%Z; [discriminate|].
    left; left; left. congruence.
  - old_or_new Hj; [|right; eauto].
    destruct (index_of i =? v)%Z eqn:E; [|discriminate].
    apply Z.eqb_eq in E. left; left; left. congruence.
Qed.

Lemma turn_value_resend (s s' : sys) (i : nat) (v t : Z) :
  procs s !! i = Some (Running (AtTurnResend v)) ->
  ptp2 s' = ptp2 s ++ [v] -> procs s' = <[i:=Running AtTurnSleep]> (procs s) ->
  turn_value s' t -> turn_value s t.
Proof.
  intros Hi Hq Hprocs. unfold turn_value, token_at. rewrite Hprocs, Hq.
  intros [[Ht|[k Hk]]|(j & w & Hj & Hw & ->)].
  - apply in_app_or in Ht as [Ht|[<-|[]]]; [auto|]. left; right; eauto.
  - old_or_new Hk; [discriminate|eauto].
  - old_or_new Hj; [discriminate|right; eauto].
Qed.

(** With a signal in the pipe nobody is past the gate. *)
Lemma gate_pipe_nobody (s : sys) (g : Z) (rest : list Z) (j : nat) (w : proc) :
  gate_ok s -> ptp1 s = g :: rest -> procs s !! j = Some w ->
  holds_gate j w = false /\ rest = [].
Proof.
  intros (G1 & G2 & _) Hq Hj. split.
  - destruct (holds_gate j w) eqn:E; [|reflexivity].
    specialize (G2 _ _ Hj E). congruence.
  - rewrite Hq in G1. destruct rest; [reflexivity|simpl in G1; lia].
Qed.

Lemma gate_sole (s : sys) (i j : nat) (wi w : proc) :
  gate_ok s -> procs s !! i = Some wi -> holds_gate i wi = true ->
  procs s !! j = Some w -> j <> i -> holds_gate j w = false.
Proof.
  intros (_ & _ & G3 & _) Hi Hh Hj Hne.
  destruct (holds_gate j w) eqn:E; [|reflexivity].
  exfalso. apply Hne. eauto.
Qed.

Lemma gate_ok_weaken (s s' : sys) (i : nat) (w0 w' : proc) :
  gate_ok s -> procs s !! i = Some w0 ->
  procs s' = <[i:=w']> (procs s) -> ptp1 s' = ptp1 s ->
  (forall t, turn_value s' t -> turn_value s t) ->
  (holds_gate i w' = true -> holds_gate i w0 = true) ->
  (w' = Running AtSendGate -> w0 = Running AtSendGate) ->
  gate_ok s'.
Proof.
  intros (G1 & G2 & G3 & G4 & G5) Hi Hprocs Hq Hval Hhold Hsend.
  assert (forall j w, procs s' !! j = Some w -> holds_gate j w = true ->
            exists w1, procs s !! j = Some w1 /\ holds_gate j w1 = true) as Shold.
  { intros j w Hj Hw. rewrite Hprocs in Hj. old_or_new Hj; eauto. }
  unfold gate_ok. rewrite Hq. split_and!.
  - assumption.
  - intros j w Hj Hw. destruct (Shold _ _ Hj Hw) as (? & ? & ?). eauto.
  - intros a b wa wb Ha Hb Hwa Hwb.
    destruct (Shold _ _ Ha Hwa) as (? & ? & ?).
    destruct (Shold _ _ Hb Hwb) as (? & ? & ?). eauto.
  - intros g t Hg Ht. eauto.
  - intros k t Hk Ht. rewrite Hprocs in Hk. old_or_new Hk.
    + eapply G5; [|eauto]. rewrite Hi. f_equal. apply Hsend. congruence.
    + eauto.
Qed.

Lemma gate_ok_enter_first (s s' : sys) :
  gate_ok s -> procs s !! 0 = Some (Running AtResize) ->
  procs s' = <[0:=Running AtImgFork]> (procs s) -> ptp1 s' = ptp1 s ->
  gate_ok s'.
Proof.
  intros Hok Hi Hprocs Hq.
  assert (holds_gate 0 (Running AtResize) = true) as Hh by reflexivity.
  pose proof (fun j w => gate_sole s 0 j _ w Hok Hi Hh) as Hsole.
  destruct Hok as (G1 & G2 & G3 & G4 & G5).
  pose proof (G2 _ _ Hi Hh) as Hempty.
  assert (forall j w, <[0:=Running AtImgFork]> (procs s) !! j = Some w ->
                      holds_gate j w = true -> j = 0) as Hz.
  { intros j w Hj Hw. old_or_new Hj; [reflexivity|].
    rewrite (Hsole _ _ Hj) in Hw; [discriminate|assumption]. }
  unfold gate_ok. rewrite Hprocs, Hq, Hempty. split_and!.
  - simpl; lia.
  - reflexivity.
  - intros a b wa wb Ha Hb Hwa Hwb.
    rewrite (Hz _ _ Ha Hwa), (Hz _ _ Hb Hwb). reflexivity.
  - intros g t [].
  - intros k t Hk _. specialize (Hz _ _ Hk eq_refl). subst k.
    old_or_new Hk; [discriminate|congruence].
Qed.

Lemma gate_ok_send_turn (s s' : sys) (i : nat) :
  turn_ok s -> gate_ok s -> procs s !! i = Some (Running AtSendTurn) ->
  ptp2 s' = ptp2 s ++ [(index_of i + 1)%Z] -> ptp1 s' = ptp1 s ->
  procs s' = <[i:=Running AtSendGate]> (procs s) ->
  gate_ok s'.
Proof.
  intros Htok Hok Hi Hq2 Hq Hprocs.
  assert (holds_gate i (Running AtSendTurn) = true) as Hh by reflexivity.
  assert (holds_turn i (Running AtSendTurn) = true) as Hht by reflexivity.
  pose proof (fun j w => gate_sole s i j _ w Hok Hi Hh) as Hsole.
  pose proof (fun j w => turn_sole s i j _ w Htok Hi Hht) as Htsole.
  destruct Hok as (G1 & G2 & G3 & G4 & G5).
  destruct Htok as (_ & _ & T2 & _).
  pose proof (G2 _ _ Hi Hh) as Hempty.
  pose proof (T2 _ _ Hi Hht) as Hempty2.
  assert (forall j w, <[i:=Running AtSendGate]> (procs s) !! j = Some w ->
                      holds_gate j w = true -> j = i) as Hz.
  { intros j w Hj Hw. old_or_new Hj; [reflexivity|].
    rewrite (Hsole _ _ Hj) in Hw; [discriminate|assumption]. }
  unfold gate_ok. rewrite Hq, Hempty. split_and!.
  - simpl; lia.
  - reflexivity.
  - intros a b wa wb Ha Hb Hwa Hwb. rewrite Hprocs in Ha, Hb.
    rewrite (Hz _ _ Ha Hwa), (Hz _ _ Hb Hwb). reflexivity.
  - intros g t [].
  - intros k t Hk Ht. rewrite Hprocs in Hk.
    specialize (Hz _ _ Hk eq_refl). subst k.
    unfold turn_value, token_at in Ht. rewrite Hprocs, Hq2, Hempty2 in Ht.
    destruct Ht as [[[<-|[]]|[j Hj]]|(j & w & Hj & Hw & ->)].
    + reflexivity.
    + old_or_new Hj; [discriminate|].
      destruct (not_holding _ _ (Htsole _ _ Hj ltac:(assumption))) as (_ & Hreg & _).
      exfalso. eapply Hreg; reflexivity.
    + old_or_new Hj; [discriminate|].
      destruct (not_holding _ _ (Htsole _ _ Hj ltac:(assumption))) as (Hin & _).
      congruence.
Qed.

(** The read of line 503 takes the signal of the worker just before. *)
Lemma gate_ok_recv (s s' : sys) (i : nat) (g : Z) (rest : list Z) :
  gate_ok s -> procs s !! i = Some (Running AtGateRead) ->
  ptp1 s = g :: rest -> ptp1 s' = rest -> ptp2 s' = ptp2 s ->
  procs s' = <[i:=Running AtDisplay]> (procs s) ->
  gate_ok s' /\ g = index_of i.
Proof.
  intros Hok Hi Hpipe Hq Hq2 Hprocs.
  pose proof (fun j w H => proj1 (gate_pipe_nobody s g rest j w Hok Hpipe H)) as Hno.
  destruct (gate_pipe_nobody s g rest _ _ Hok Hpipe Hi) as [_ ->].
  destruct Hok as (G1 & G2 & G3 & G4 & G5).
  assert (forall j w, <[i:=Running AtDisplay]> (procs s) !! j = Some w ->
                      holds_gate j w = true -> j = i) as Hz.
  { intros j w Hj Hw. old_or_new Hj; [reflexivity|].
    rewrite (Hno _ _ Hj) in Hw. discriminate. }
  split.
  - unfold gate_ok. rewrite Hprocs, Hq. split_and!.
    + simpl; lia.
    + reflexivity.
    + intros a b wa wb Ha Hb Hwa Hwb.
      rewrite (Hz _ _ Ha Hwa), (Hz _ _ Hb Hwb). reflexivity.
    + intros g' t [].
    + intros k t Hk _. specialize (Hz _ _ Hk eq_refl). subst k.
      old_or_new Hk; [discriminate|congruence].
  - symmetry. eapply G4; [rewrite Hpipe; left; reflexivity|].
    right. exists i, (Running AtGateRead). auto.
Qed.

Lemma gate_ok_send_gate (s s' : sys) (i : nat) :
  gate_ok s -> procs s !! i = Some (Running AtSendGate) ->
  ptp1 s' = ptp1 s ++ [(index_of i + 1)%Z] -> ptp2 s' = ptp2 s ->
  procs s' = <[i:=Running AtReturn]> (procs s) ->
  gate_ok s'.
Proof.
  intros Hok Hi Hq Hq2 Hprocs.
  assert (holds_gate i (Running AtSendGate) = true) as Hh by reflexivity.
  pose proof (fun j w => gate_sole s i j _ w Hok Hi Hh) as Hsole.
  destruct Hok as (G1 & G2 & G3 & G4 & G5).
  pose proof (G2 _ _ Hi Hh) as Hempty.
  assert (forall j w, <[i:=Running AtReturn]> (procs s) !! j = Some w ->
                      holds_gate j w = false) as Hnone.
  { intros j w Hj. old_or_new Hj; [|auto].
    unfold holds_gate. simpl. apply andb_false_r. }
  assert (forall t, turn_value s' t -> turn_value s t) as Hval.
  { intros t. eapply turn_value_weaken; eauto; discriminate. }
  unfold gate_ok. rewrite Hq, Hempty. simpl. split_and!.
  - lia.
  - intros j w Hj Hw. rewrite Hprocs in Hj. rewrite (Hnone _ _ Hj) in Hw. discriminate.
  - intros a b wa wb Ha Hb Hwa. rewrite Hprocs in Ha.
    rewrite (Hnone _ _ Ha) in Hwa. discriminate.
  - intros g t [<-|[]] Ht. eauto.
  - intros k t Hk. rewrite Hprocs in Hk. specialize (Hnone _ _ Hk). discriminate.
Qed.

Lemma no_gate_failure_app (tr evs : list event) :
  no_gate_failure (tr ++ evs) -> no_gate_failure tr /\ no_gate_failure evs.
Proof.
  intros H. split; intros k Hk; apply (H k), in_or_app; auto.
Qed.

Lemma step_gate (s s' : sys) (tr evs : list event) (act : action) :
  slots_ok s tr -> turn_ok s ->
  (no_gate_failure tr -> gate_ok s) ->
  step act s = Some (s', evs) ->
  no_gate_failure (tr ++ evs) -> gate_ok s'.
Proof.
  intros Hslots Htok Hcond Hstep Hnf.
  apply no_gate_failure_app in Hnf as [Hnf Hnf'].
  specialize (Hcond Hnf). destruct act as [a|i a|i a].
  - destruct (main_step_frame _ _ _ _ Hstep)
      as (Hq & Hq2 & _ & [Hprocs|(n & Hp & _ & Hprocs)]).
    + eapply gate_ok_ext; eauto.
    + destruct (spawn_fresh _ _ _ Hslots Hp) as [Hn|Hn].
      * eapply gate_ok_weaken; eauto; try discriminate.
        intros t. eapply turn_value_weaken; eauto; discriminate.
      * rewrite list_insert_ge in Hprocs by assumption.
        eapply gate_ok_ext; eauto.
  - destruct (work_step_cases _ _ _ _ _ Hstep) as (p & w & Hi & Hprocs & Hkind).
    destruct Hkind as [(Hmove & Hq & Hq2 & _)|[(-> & -> & _ & _ & Hfail)|
      [(v & rest & -> & Hpipe & Hq2 & Hq & _ & ->)|[(v & -> & -> & Hq2 & Hq & _)|
      [(-> & -> & Hq2 & Hq & _)|[(g & rest & -> & -> & Hpipe & Hq & Hq2 & _)|
       (-> & -> & Hq & Hq2 & _)]]]]]].
    + inversion Hmove; subst;
        try (eapply gate_ok_weaken; [eassumption|exact Hi|exact Hprocs|exact Hq| | | ];
             [ intros t; eapply turn_value_weaken;
               [exact Hi|exact Hprocs|exact Hq2| |]; simpl; intros; congruence
             | unfold holds_gate; try destruct i; simpl; intros; congruence
             | simpl; intros; congruence ]).
      eapply gate_ok_enter_first; eauto.
    + exfalso. eapply Hnf'; eauto.
    + eapply gate_ok_weaken; eauto.
      * intros t. eapply turn_value_recv; eauto.
      * unfold holds_gate. destruct i, (index_of _ =? v)%Z; simpl; congruence.
      * destruct (index_of _ =? v)%Z; discriminate.
    + eapply gate_ok_weaken; eauto; try discriminate.
      intros t. eapply turn_value_resend; eauto.
    + eapply gate_ok_send_turn; eauto.
    + eapply gate_ok_recv; eauto.
    + eapply gate_ok_send_gate; eauto.
  - destruct (html_step_frame _ _ _ _ _ Hstep) as (Hprocs & _ & _ & _ & Hq & Hq2 & _).
    eapply gate_ok_ext; eauto.
Qed.

Lemma start_gate (paths : list string) (html0 : list block) :
  gate_ok (start paths html0).
Proof.
  assert (forall j w, replicate (length paths) NotSpawned !! j = Some w ->
                      w = NotSpawned) as Hall.
  { intros j w H. apply lookup_replicate in H as [-> _]. reflexivity. }
  unfold gate_ok, start; simpl. split_and!.
  - lia.
  - reflexivity.
  - intros i j wi wj Hi Hj Hwi Hwj.
    rewrite (Hall _ _ Hi) in Hwi. rewrite (Hall _ _ Hj) in Hwj.
    unfold holds_gate in *. simpl in *.
    rewrite andb_true_r in *. apply Nat.eqb_eq in Hwi, Hwj. congruence.
  - intros g t [].
  - intros k t Hk. apply Hall in Hk. discriminate.
Qed.

End GateFacts.

(** ** The order of events *)

Section OrderFacts.

Local Ltac old_or_new H :=
  apply lookup_insert_cases in H as [[? ?]|[? H]];
  [repeat match goal with E : ?x = _ |- _ => is_var x; subst x end|].

Lemma well_ordered_snoc (tr : list event) (e : event) :
  well_ordered tr -> justified tr e -> well_ordered (tr ++ [e]).
Proof.
  intros Htr He pre x post Heq.
  destruct post as [|y post _] using rev_ind.
  - apply app_inj_tail in Heq as [-> ->]. exact He.
  - rewrite app_comm_cons, app_assoc in Heq.
    apply app_inj_tail in Heq as [-> _]. eapply Htr; eauto.
Qed.

Lemma well_ordered_app (tr evs : list event) :
  well_ordered tr -> all_justified tr evs -> well_ordered (tr ++ evs).
Proof.
  revert tr. induction evs as [|e evs IH]; intros tr Htr Hall.
  - rewrite app_nil_r. exact Htr.
  - destruct Hall as [He Hrest].
    replace (tr ++ e :: evs) with ((tr ++ [e]) ++ evs)
      by (rewrite <- app_assoc; reflexivity).
    apply IH; [apply well_ordered_snoc; assumption | exact Hrest].
Qed.

Lemma resized_mono (i : nat) (tr tr' : list event) :
  (forall e, In e tr -> In e tr') -> resized i tr -> resized i tr'.
Proof. intros H (path & ? & ?). exists path. auto. Qed.

Lemma displayed_mono (i : nat) (tr tr' : list event) :
  (forall e, In e tr -> In e tr') -> displayed i tr -> displayed i tr'.
Proof. intros H (t & ?). exists t. auto. Qed.

Lemma gate_passed_mono (i : nat) (tr tr' : list event) :
  (forall e, In e tr -> In e tr') -> gate_passed i tr -> gate_passed i tr'.
Proof. intros H [(v & ?)|?]; [left; exists v|right]; auto. Qed.

Lemma known_mono (i : nat) (w : proc) (tr tr' : list event) :
  (forall e, In e tr -> In e tr') -> known i w tr -> known i w tr'.
Proof.
  intros H.
  pose proof (resized_mono i _ _ H). pose proof (displayed_mono i _ _ H).
  pose proof (gate_passed_mono i _ _ H).
  destruct w as [|p|st]; simpl; auto.
  destruct p; simpl; intros;
    repeat match goal with
           | Hc : _ /\ _ |- _ => destruct Hc
           | Hc : exists _, _ |- _ => destruct Hc
           end; split_and!; eauto; intuition auto.
Qed.

Lemma in_app_l (tr evs : list event) (e : event) : In e tr -> In e (tr ++ evs).
Proof. intros. apply in_or_app. auto. Qed.

Lemma in_last (tr : list event) (e : event) : In e (tr ++ [e]).
Proof. apply in_or_app. simpl. auto. Qed.

Lemma in_last2 (tr : list event) (e e' : event) : In e (tr ++ [e; e']).
Proof. apply in_or_app. simpl. auto. Qed.

Lemma in_last2' (tr : list event) (e e' : event) : In e (tr ++ [e'; e]).
Proof. apply in_or_app. simpl. auto. Qed.

Lemma remove_kid_In (i : nat) (l rest : list nat) :
  remove_kid i l = Some rest -> In i l /\ forall k, In k rest -> In k l.
Proof.
  revert rest. induction l as [|k l IH]; intros rest H; simpl in H; [discriminate|].
  destruct (k =? i)%nat eqn:E.
  - apply Nat.eqb_eq in E. inversion H; subst. simpl. auto.
  - destruct (remove_kid i l) as [rest'|]; [|discriminate].
    inversion H; subst. destruct (IH _ eq_refl) as [Hin Hsub].
    simpl. split; [auto|]. intros x [->|Hx]; auto.
Qed.

Lemma step_order (s s' : sys) (tr evs : list event) (act : action) :
  links s tr -> well_ordered tr -> step act s = Some (s', evs) ->
  links s' (tr ++ evs) /\ well_ordered (tr ++ evs).
Proof.
  intros (Hk & Hp2 & Hp1 & Hkid) Hwo Hstep.
  assert (forall j w, procs s !! j = Some w -> known j w (tr ++ evs)) as Hk'.
  { intros j w Hj. eapply known_mono; [|eauto]. intros; by apply in_app_l. }
  assert (forall v, In v (ptp2 s) -> exists j, In (EvTurnSend j v) (tr ++ evs)) as Hp2'.
  { intros v Hv. destruct (Hp2 v Hv) as (j & ?). exists j. by apply in_app_l. }
  assert (forall g, In g (ptp1 s) -> exists j, In (EvGateSend j g) (tr ++ evs)) as Hp1'.
  { intros v Hv. destruct (Hp1 v Hv) as (j & ?). exists j. by apply in_app_l. }
  assert (forall k, In k (kids s) -> In (EvImgFork k) (tr ++ evs)) as Hkid'.
  { intros k Hin. by apply in_app_l, Hkid. }
  destruct act as [a|i a|i a].
  - simpl in Hstep. unfold process in Hstep.
    repeat case_match; simplify_eq/=;
      (split; [unfold links; simpl; split_and!; try assumption
              | apply well_ordered_app; [assumption|simpl; done]]).
    intros j w Hj. old_or_new Hj; [|auto].
    simpl. split; [|exact I]. apply in_or_app. simpl. auto.
  - simpl in Hstep.
    destruct (procs s !! i) as [[|p|]|] eqn:Hi; try discriminate.
    destruct (argv s !! i) as [path|] eqn:Hpath; try discriminate.
    pose proof (Hk _ _ Hi) as Hme.
    unfold process_img, die, ask_user, cap_html in Hstep.
    destruct p; destruct a; simpl in Hstep, Hme; repeat case_match; simplify_eq/=.
    all: repeat match goal with
           | H : (index_of _ =? 1)%Z = true |- _ => apply index_of_first in H
           | H : (index_of _ =? 1)%Z = false |- _ => apply index_of_later in H
           | H : (_ =? _)%Z = true |- _ => apply Z.eqb_eq in H
           | H : (_ =? _)%Z = false |- _ => apply Z.eqb_neq in H
           end.
    all: try subst.
    all: unfold rotations in *; repeat case_match.
    all: split; [unfold links; simpl; split_and!; try assumption
                | apply well_ordered_app; [assumption|simpl] ].
    all: try (intros j w Hj; old_or_new Hj; [simpl|by auto]).
    all: unfold resized, displayed, gate_passed in *.
    all: repeat match goal with
           | Hc : _ /\ _ |- _ => destruct Hc
           | Hc : exists _, _ |- _ => destruct Hc
           end.
    all: try (intros v Hv; try apply in_app_or in Hv as [Hv|[<-|[]]]).
    all: split_and?.
    all: try done.
    all: try (apply Hp2'; simpl; by auto).
    all: try (apply Hp1'; simpl; by auto).
    all: try (apply Hp2; simpl; by auto).
    all: try (apply Hp1; simpl; by auto).
    all: try (by eauto 10 using in_app_l, in_last, in_last2, in_last2').
  - simpl in Hstep. unfold img_html in Hstep.
    destruct (remove_kid i (kids s)) as [rest|] eqn:Hr; [|discriminate].
    apply remove_kid_In in Hr as [Hin Hsub].
    repeat case_match; simplify_eq/=;
      (split; [unfold links; simpl; split_and!; auto
              | apply well_ordered_app; [assumption|simpl; auto]]);
      split_and?; auto using in_app_l.
Qed.

Lemma start_links (paths : list string) (html0 : list block) :
  links (start paths html0) [] /\ well_ordered [].
Proof.
  split.
  - unfold links, start; simpl. split_and!.
    + intros j w H. apply lookup_replicate in H as [-> _]. exact I.
    + intros v [].
    + intros g [].
    + intros k [].
  - intros pre e post H. destruct pre; discriminate.
Qed.

End OrderFacts.

(** ** The invariant of a run *)

Section Invariant.

Lemma step_argv (act : action) (s s' : sys) (evs : list event) :
  step act s = Some (s', evs) -> argv s' = argv s.
Proof.
  intros Hstep. destruct act as [a|i a|i a].
  - simpl in Hstep. unfold process in Hstep.
    repeat case_match; simplify_eq/=; reflexivity.
  - destruct (work_step_frame _ _ _ _ _ Hstep) as (? & ? & ? & ? & ? & ? & ? & ? & ?).
    assumption.
  - destruct (html_step_frame _ _ _ _ _ Hstep) as (? & ? & ? & ? & ?). assumption.
Qed.

(** Only the read of line 450 produces a turn-read event. *)
Lemma turn_recv_only (act : action) (s s' : sys) (evs : list event)
    (i : nat) (v : Z) :
  step act s = Some (s', evs) -> In (EvTurnRecv i v) evs ->
  procs s !! i = Some (Running AtTurnRead) /\ exists rest, ptp2 s = v :: rest.
Proof.
  intros Hstep Hin. destruct act as [a|k a|k a]; simpl in Hstep.
  - unfold process in Hstep. repeat case_match; simplify_eq/=; intuition congruence.
  - unfold process_img, die, ask_user, cap_html, rotations in Hstep.
    repeat case_match; simplify_eq/=; try (intuition congruence).
    all: destruct Hin as [Hin|[]]; inversion Hin; subst; eauto.
  - unfold img_html in Hstep. repeat case_match; simplify_eq/=; intuition congruence.
Qed.

(** Only a successful read of line 503 produces a gate-read event. *)
Lemma gate_recv_only (act : action) (s s' : sys) (evs : list event)
    (i : nat) (g : Z) :
  step act s = Some (s', evs) -> In (EvGateRecv i g) evs ->
  procs s !! i = Some (Running AtGateRead) /\
  procs s' = <[i:=Running AtDisplay]> (procs s) /\ ptp2 s' = ptp2 s /\
  exists rest, ptp1 s = g :: rest /\ ptp1 s' = rest.
Proof.
  intros Hstep Hin. destruct act as [a|k a|k a]; simpl in Hstep.
  - unfold process in Hstep. repeat case_match; simplify_eq/=; intuition congruence.
  - unfold process_img, die, ask_user, cap_html, rotations in Hstep.
    repeat case_match; simplify_eq/=; try (intuition congruence).
    destruct Hin as [Hin|[]]; inversion Hin; subst. eauto 10.
  - unfold img_html in Hstep. repeat case_match; simplify_eq/=; intuition congruence.
Qed.

Lemma step_recv_bounded (s s' : sys) (tr evs : list event) (act : action) :
  slots_ok s tr -> turn_ok s -> recv_bounded (length (argv s)) tr ->
  step act s = Some (s', evs) -> recv_bounded (length (argv s)) (tr ++ evs).
Proof.
  intros (_ & Hlw & _) (_ & _ & _ & _ & T4 & _) Hb Hstep i v Hin.
  apply in_app_or in Hin as [Hin|Hin]; [auto|].
  destruct (turn_recv_only _ _ _ _ _ _ Hstep Hin) as (Hi & rest & Hpipe).
  split.
  - eapply T4; [|exact Hi|reflexivity]. left. rewrite Hpipe. left. reflexivity.
  - rewrite <- Hlw. eapply lookup_lt_Some; eauto.
Qed.

Lemma step_gate_exact (s s' : sys) (tr evs : list event) (act : action) :
  (no_gate_failure tr -> gate_ok s) -> gate_exact tr ->
  step act s = Some (s', evs) -> gate_exact (tr ++ evs).
Proof.
  intros Hcond Hex Hstep Hnf i g Hin.
  apply no_gate_failure_app in Hnf as [Hnf _].
  apply in_app_or in Hin as [Hin|Hin]; [auto|].
  destruct (gate_recv_only _ _ _ _ _ _ Hstep Hin)
    as (Hi & Hprocs & Hq2 & rest & Hpipe & Hq).
  eapply gate_ok_recv; eauto.
Qed.

Lemma start_invariant (paths : list string) (html0 : list block) :
  invariant paths (start paths html0) [].
Proof.
  destruct (start_pool paths html0). destruct (start_links paths html0).
  unfold invariant. split_and!; auto.
  - apply start_turn.
  - intros _. apply start_gate.
  - intros i v Hin. destruct Hin.
  - intros _ i v Hin. destruct Hin.
Qed.

Lemma step_invariant (paths : list string) (s s' : sys) (tr evs : list event)
    (act : action) :
  invariant paths s tr -> step act s = Some (s', evs) ->
  invariant paths s' (tr ++ evs).
Proof.
  intros (Hargv & Hpool & Hslots & Hturn & Hgate & Hlinks & Hwo & Hb & Hex) Hstep.
  destruct (step_pool _ _ _ _ _ (conj Hpool Hslots) Hstep).
  destruct (step_order _ _ _ _ _ Hlinks Hwo Hstep).
  unfold invariant. split_and!; auto.
  - rewrite (step_argv _ _ _ _ Hstep). exact Hargv.
  - exact (step_turn _ _ _ _ _ Hslots Hturn Hstep).
  - exact (step_gate _ _ _ _ _ Hslots Hturn Hgate Hstep).
  - rewrite <- Hargv in *. exact (step_recv_bounded _ _ _ _ _ Hslots Hturn Hb Hstep).
  - exact (step_gate_exact _ _ _ _ _ Hgate Hex Hstep).
Qed.

(** The invariant holds wherever a run of process() gets. *)
Lemma run_keeps_invariant (paths : list string) (html0 : list block)
    (sched : list action) (s : sys) (tr : list event) :
  run sched (start paths html0) = Some (s, tr) -> invariant paths s tr.
Proof.
  apply (run_invariant (invariant paths)).
  - apply start_invariant.
  - intros. eapply step_invariant; eauto.
Qed.

End Invariant.

(** ** The claims about the scheduler *)

Section SchedulerFacts.

Lemma pool_membership (act : action) (s s' : sys) (evs : list event) (j : nat) :
  step act s = Some (s', evs) ->
  is_running (procs s' !! j) <> is_running (procs s !! j) ->
  (is_running (procs s' !! j) = true /\ evs = [EvSpawn j]) \/
  (is_running (procs s' !! j) = false /\ exists st, In (EvExit j st) evs).
Proof.
  intros Hstep Hdiff. destruct act as [a|i a|i a].
  - destruct (main_step_frame _ _ _ _ Hstep)
      as (_ & _ & _ & [Hprocs|(n & Hp & -> & Hprocs)]).
    + rewrite Hprocs in Hdiff. contradiction.
    + rewrite Hprocs in *. destruct (decide (j = n)) as [->|Hne].
      * destruct (Nat.lt_ge_cases n (length (procs s))) as [Hlt|Hge].
        -- left. rewrite list_lookup_insert_eq by assumption. auto.
        -- rewrite list_insert_ge in Hdiff by assumption. contradiction.
      * rewrite list_lookup_insert_ne in Hdiff by auto. contradiction.
  - destruct (work_step_frame _ _ _ _ _ Hstep)
      as (p & w & Hi & Hprocs & _ & _ & _ & _ & _ & Hexit).
    rewrite Hprocs in *. destruct (decide (j = i)) as [->|Hne].
    + rewrite list_lookup_insert_eq in * by (eapply lookup_lt_Some; eauto).
      rewrite Hi in Hdiff. right. destruct w; simpl in *; try contradiction; auto.
    + rewrite list_lookup_insert_ne in Hdiff by auto. contradiction.
  - destruct (html_step_frame _ _ _ _ _ Hstep) as (Hprocs & _).
    rewrite Hprocs in Hdiff. contradiction.
Qed.

(** A worker is forked only from line 636, which the parent reaches only
    by a return of concurrent() below the cap. *)
Lemma spawn_only_at_fork (act : action) (s s' : sys) (evs : list event) (i : nat) :
  step act s = Some (s', evs) -> In (EvSpawn i) evs -> parent s = AtFork i.
Proof.
  intros Hstep Hin. destruct act as [a|k a|k a].
  - destruct (main_step_frame _ _ _ _ Hstep)
      as (_ & _ & _ & [Hprocs|(n & Hp & -> & Hprocs)]).
    + simpl in Hstep. unfold process in Hstep.
      repeat case_match; simplify_eq/=; intuition congruence.
    + destruct Hin as [Hin|[]]. congruence.
  - destruct (work_step_frame _ _ _ _ _ Hstep)
      as (p & w & _ & _ & _ & _ & _ & _ & Hsp & _).
    exfalso. unfold spawned in Hsp.
    assert (In i (flat_map (fun e => match e with EvSpawn i => [i] | _ => [] end) evs))
      as Hbad by (apply in_flat_map; exists (EvSpawn i); simpl; auto).
    rewrite Hsp in Hbad. destruct Hbad.
  - destruct (html_step_frame _ _ _ _ _ Hstep)
      as (_ & _ & _ & _ & _ & _ & rc & [->|[msg ->]]);
      simpl in Hin; intuition discriminate.
Qed.

Lemma fork_after_poll (a : answer) (s s' : sys) (evs : list event) (i : nat) :
  step (Main a) s = Some (s', evs) -> parent s' = AtFork i ->
  exists j num,
    parent s = AtPoll i j num /\ length (argv s) <= j /\
    (num < max_conversions)%Z.
Proof.
  intros Hstep Hp. simpl in Hstep. unfold process in Hstep.
  repeat case_match; simplify_eq/=.
  do 2 eexists. split; [reflexivity|].
  split; [by apply Nat.ltb_ge | by apply Z.leb_gt].
Qed.

Lemma defer_when_full (a : answer) (s s' : sys) (evs : list event)
    (i j : nat) (num : Z) :
  parent s = AtPoll i j num -> length (argv s) <= j ->
  (max_conversions <= num)%Z ->
  step (Main a) s = Some (s', evs) ->
  parent s' = AtSleep i /\ procs s' = procs s /\ evs = [].
Proof.
  intros Hp Hj Hnum Hstep. simpl in Hstep. unfold process in Hstep.
  rewrite Hp in Hstep. apply Nat.ltb_ge in Hj. apply Z.leb_le in Hnum.
  rewrite Hj, Hnum in Hstep. destruct a; simplify_eq/=. auto.
Qed.

End SchedulerFacts.

(** C4. In every state a run of process() reaches, at most
    max_conversions = 3 workers are alive.  Workers are forked in the
    order of their indices.  A step changes which workers are alive only
    by forking one or by the exit of one.  A fork happens at line 636
    only, which the parent reaches only when concurrent() has just
    returned a count below the cap, that count being at least the number
    of workers alive; when concurrent() returns a count at or above the
    cap the parent sleeps and forks nothing. *)
Theorem pool_bounded (paths : list string) (html0 : list block)
    (sched : list action) (s : sys) (tr : list event) :
  run sched (start paths html0) = Some (s, tr) ->
  max_conversions = 3%Z /\
  (Z.of_nat (active (procs s)) <= max_conversions)%Z /\
  (exists k, spawned tr = seq 0 k) /\
  (forall act s' evs,
      step act s = Some (s', evs) ->
      (forall j, is_running (procs s' !! j) <> is_running (procs s !! j) ->
                 (is_running (procs s' !! j) = true /\ evs = [EvSpawn j]) \/
                 (is_running (procs s' !! j) = false /\
                  exists st, In (EvExit j st) evs)) /\
      (forall i, In (EvSpawn i) evs ->
                 parent s = AtFork i /\
                 (Z.of_nat (active (procs s)) < max_conversions)%Z) /\
      (forall a i, act = Main a -> parent s' = AtFork i ->
                   exists j num,
                     parent s = AtPoll i j num /\ length (argv s) <= j /\
                     (Z.of_nat (active (procs s)) <= num < max_conversions)%Z) /\
      (forall a i j num,
          act = Main a -> parent s = AtPoll i j num -> length (argv s) <= j ->
          (max_conversions <= num)%Z ->
          parent s' = AtSleep i /\ procs s' = procs s /\ evs = [])).
Proof.
  intros Hrun.
  destruct (run_keeps_invariant _ _ _ _ _ Hrun)
    as (Hargv & [Hcap Hpar] & (_ & Hlw & k & Hsp & _) & _).
  split_and!; eauto.
  intros act s' evs Hstep. split_and!.
  - intros j. exact (pool_membership _ _ _ _ j Hstep).
  - intros i Hin. pose proof (spawn_only_at_fork _ _ _ _ _ Hstep Hin) as Hp.
    rewrite Hp in Hpar. split; [exact Hp | apply Hpar].
  - intros a i -> Hp.
    destruct (fork_after_poll _ _ _ _ _ Hstep Hp) as (j & num & Hpoll & Hj & Hnum).
    exists j, num. rewrite Hpoll in Hpar. destruct Hpar as [Hbound _].
    rewrite firstn_all2 in Hbound by lia. auto.
  - intros a i j num -> Hp Hj Hnum. eapply defer_when_full; eauto.
Qed.

(** Four images: after three forks the fourth poll counts three live
    workers and the parent sleeps. *)
Lemma pool_bounded_witness :
  match run four_saturated (start four_paths []) with
  | Some (s, tr) =>
      parent s = AtSleep 3 /\ active (procs s) = 3 /\
      (Z.of_nat (active (procs s)) <= max_conversions)%Z
  | None => False
  end.
Proof.
  destruct (run four_saturated (start four_paths [])) as [[s tr]|] eqn:Hrun.
  - pose proof (pool_bounded _ _ _ _ _ Hrun) as (_ & Hcap & _).
    vm_compute in Hrun. inversion Hrun; subst.
    split; [reflexivity|]. split; [reflexivity|exact Hcap].
  - vm_compute in Hrun. discriminate.
Defined.

(** ** The claims about the two pipes *)

Section ProtocolFacts.

Lemma turn_read_other (i : nat) (path : string) (s : sys) (v : Z) (rest : list Z) :
  ptp2 s = v :: rest -> v <> index_of i ->
  process_img i path AtTurnRead Ok s
  = Some (Running (AtTurnResend v), set_ptp2 rest s, [EvTurnRecv i v]).
Proof.
  intros Hq Hne. unfold process_img. rewrite Hq.
  destruct (index_of i =? v)%Z eqn:E; [|reflexivity].
  apply Z.eqb_eq in E. congruence.
Qed.

Lemma turn_read_own (i : nat) (path : string) (s : sys) (rest : list Z) :
  ptp2 s = index_of i :: rest ->
  process_img i path AtTurnRead Ok s
  = Some (Running AtImgFork, set_ptp2 rest s, [EvTurnRecv i (index_of i)]).
Proof. intros Hq. unfold process_img. rewrite Hq, Z.eqb_refl. reflexivity. Qed.

Lemma event_justified (paths : list string) (html0 : list block)
    (sched : list action) (s : sys) (tr : list event) :
  run sched (start paths html0) = Some (s, tr) ->
  forall pre e post, tr = pre ++ e :: post -> justified pre e.
Proof.
  intros Hrun pre e post Heq.
  destruct (run_keeps_invariant _ _ _ _ _ Hrun) as (_ & _ & _ & _ & _ & _ & Hwo & _).
  eapply Hwo; eauto.
Qed.

(** What follows the fork of an img_html child in a trace where the
    children run at once. *)
Lemma prompt_after_fork (pre evs : list event) (m : nat) :
  prompt ((pre ++ [EvImgFork m]) ++ evs) = true ->
  evs = [] \/ exists rest, evs = EvImgHtml m 0 :: rest.
Proof.
  induction pre as [|e pre IH].
  - simpl. destruct evs as [|x evs]; [auto|].
    destruct x; try discriminate. intros H.
    apply andb_true_iff in H as [H1 _]. apply andb_true_iff in H1 as [Hi Hrc].
    apply Nat.eqb_eq in Hi. apply Z.eqb_eq in Hrc. subst. eauto.
  - destruct e; simpl; try exact IH.
    destruct pre as [|x pre]; [discriminate|].
    destruct x; simpl; try discriminate.
    intros H. apply andb_true_iff in H as [_ H2]. apply IH. exact H2.
Qed.

(** In such a trace an event that is not the run of an img_html child
    finds every child forked before it already run. *)
Lemma prompt_fork_done (tr pre post : list event) (e : event) (i : nat) :
  prompt tr = true -> tr = pre ++ e :: post ->
  (forall j rc, e <> EvImgHtml j rc) ->
  In (EvImgFork i) pre -> In (EvImgHtml i 0) pre.
Proof.
  intros Hprompt Heq He Hin.
  apply in_split in Hin as (a & b & ->).
  assert (tr = (a ++ [EvImgFork i]) ++ (b ++ e :: post)) as Htr.
  { rewrite Heq, <- !app_assoc. reflexivity. }
  rewrite Htr in Hprompt.
  destruct (prompt_after_fork _ _ _ Hprompt) as [Hnil|(rest & Hrest)].
  - destruct b; discriminate.
  - destruct b as [|x b]; simpl in Hrest; inversion Hrest; subst.
    + destruct (He i 0%Z eq_refl).
    + apply in_or_app. right. simpl. auto.
Qed.

End ProtocolFacts.

(** C2, as the code has it.  At the read of line 450 a worker that gets a
    value other than its index goes on to write that same value back,
    sleeps and reads again; a worker that gets its own index leaves the
    loop for line 482.  In every run: a worker writes a value back only
    after reading that very value, which is not its index; a worker forks
    its img_html child only after reading its own index, unless it is the
    first worker; the hand-off of line 570 carries index+1 and comes after
    the fork of the img_html child and after the caption is written; the
    first worker never reads the turn pipe; no worker reads a value above
    its own index, so the value N+1 written by the last worker is never
    read.  The link block, though, is written by the img_html child, which
    nobody waits for: only in a run where each child runs as soon as it is
    forked does the hand-off come after both writes.  With two images and
    the child of the second worker running late, the second worker hands
    on the turn (value 3) while index.html lacks its link block, and
    exits with 0 before that block is written; process() returns 0. *)
Theorem turn_protocol :
  (forall i path s v rest,
      ptp2 s = v :: rest -> v <> index_of i ->
      process_img i path AtTurnRead Ok s
      = Some (Running (AtTurnResend v), set_ptp2 rest s, [EvTurnRecv i v]) /\
      (forall s1,
          process_img i path (AtTurnResend v) Ok s1
          = Some (Running AtTurnSleep, set_ptp2 (ptp2 s1 ++ [v]) s1, [EvResend i v]) /\
          process_img i path AtTurnSleep Ok s1 = Some (Running AtTurnRead, s1, []))) /\
  (forall i path s rest,
      ptp2 s = index_of i :: rest ->
      process_img i path AtTurnRead Ok s
      = Some (Running AtImgFork, set_ptp2 rest s, [EvTurnRecv i (index_of i)])) /\
  (forall i path s,
      process_img i path AtSendTurn Ok s
      = Some (Running AtSendGate, set_ptp2 (ptp2 s ++ [(index_of i + 1)%Z]) s,
              [EvTurnSend i (index_of i + 1)%Z])) /\
  (forall paths html0 sched s tr,
      run sched (start paths html0) = Some (s, tr) ->
      (forall pre i v post,
          tr = pre ++ EvResend i v :: post ->
          v <> index_of i /\ In (EvTurnRecv i v) pre) /\
      (forall pre i post,
          tr = pre ++ EvImgFork i :: post ->
          i = 0 \/ In (EvTurnRecv i (index_of i)) pre) /\
      (forall pre i v post,
          tr = pre ++ EvTurnSend i v :: post ->
          v = (index_of i + 1)%Z /\ In (EvImgFork i) pre /\ In (EvCapHtml i) pre /\
          (prompt tr = true -> In (EvImgHtml i 0) pre)) /\
      (forall w, procs s !! 0 = Some w -> polling w = false) /\
      (forall v, ~ In (EvTurnRecv 0 v) tr) /\
      (forall i v, In (EvTurnRecv i v) tr ->
                   (v <= index_of i)%Z /\ i < length paths) /\
      (forall i, ~ In (EvTurnRecv i (Z.of_nat (length paths) + 1)%Z) tr)) /\
  match run two_handed_on (start two_paths []) with
  | Some (s, tr) =>
      last tr = Some (EvTurnSend 1 3) /\ ptp2 s = [3%Z] /\ kids s = [1] /\
      index_html s = [LinkBlock "med_a.jpg" "thumb_a.jpg"; CapBlock "first";
                      CapBlock "second"]
  | None => False
  end /\
  two_late_link
  = two_handed_on ++ [Work 1 Ok; Work 1 Ok; Html 1 Ok; Main Ok; Main Ok; Main Ok] /\
  match run two_late_link (start two_paths []) with
  | Some (s, tr) =>
      parent s = Returned 0 /\ procs s = [Exited 0; Exited 0] /\
      index_html s = [LinkBlock "med_a.jpg" "thumb_a.jpg"; CapBlock "first";
                      CapBlock "second"; LinkBlock "med_b.png" "thumb_b.png"] /\
      exists pre mid post,
        tr = pre ++ EvTurnSend 1 3 :: mid ++ EvImgHtml 1 0 :: post /\
        In (EvExit 1 0) mid /\
        forall rc, ~ In (EvImgHtml 1 rc) (pre ++ mid)
  | None => False
  end.
Proof.
  split_and!.
  - intros i path s v rest Hq Hne. split; [by apply turn_read_other|].
    intros s1. split; reflexivity.
  - intros. by apply turn_read_own.
  - reflexivity.
  - intros paths html0 sched s tr Hrun.
    pose proof (event_justified _ _ _ _ _ Hrun) as Hj.
    destruct (run_keeps_invariant _ _ _ _ _ Hrun)
      as (_ & _ & _ & (T0 & _) & _ & _ & _ & Hb & _).
    split_and!.
    + intros pre i v post Heq. exact (proj2 (Hj _ _ _ Heq)).
    + intros pre i post Heq. exact (proj2 (Hj _ _ _ Heq)).
    + intros pre i v post Heq.
      destruct (Hj _ _ _ Heq) as (_ & Hv & Hfork & Hcap).
      split_and!; auto. intros Hprompt.
      apply (prompt_fork_done tr pre post (EvTurnSend i v) i); auto.
    + intros w Hw. exact (proj1 (T0 _ Hw)).
    + intros v Hin. apply in_split in Hin as (pre & post & Heq).
      destruct (Hj _ _ _ Heq) as (_ & Hne & _). congruence.
    + exact Hb.
    + intros i Hin. destruct (Hb _ _ Hin) as [Hle Hlt].
      unfold index_of in Hle. lia.
  - destruct (run two_handed_on (start two_paths [])) as [[s tr]|] eqn:Hrun;
      vm_compute in Hrun; [|discriminate].
    inversion Hrun; subst. split_and!; reflexivity.
  - reflexivity.
  - destruct (run two_late_link (start two_paths [])) as [[s tr]|] eqn:Hrun;
      vm_compute in Hrun; [|discriminate].
    inversion Hrun; subst. split_and!; try reflexivity.
    exists [EvSpawn 0; EvSpawn 1;
            EvFork 0 (Resize "pics/a.jpg" "thumb_a.jpg" "10%");
            EvFork 0 (Resize "pics/a.jpg" "med_a.jpg" "25%");
            EvFork 1 (Resize "b.png" "thumb_b.png" "10%");
            EvFork 1 (Resize "b.png" "med_b.png" "25%");
            EvImgFork 0; EvImgHtml 0 0; EvFork 0 (Display "thumb_a.jpg");
            EvFork 0 (Rotate "thumb_a.jpg" "thumb_a.jpg" 1);
            EvFork 0 (Rotate "med_a.jpg" "med_a.jpg" 1);
            EvCapHtml 0; EvTurnSend 0 2; EvGateSend 0 2;
            EvExit 0 0; EvTurnRecv 1 2; EvImgFork 1;
            EvGateRecv 1 2; EvFork 1 (Display "thumb_b.png");
            EvCapHtml 1],
      [EvGateSend 1 3; EvExit 1 0], [EvReturn 0].
    split_and!.
    + reflexivity.
    + simpl. auto.
    + intros rc Hin. simpl in Hin.
      repeat (destruct Hin as [Hin|Hin]; [discriminate|]). exact Hin.
Qed.

(** Three images: the third worker reads 2, writes 2 back, and later
    reads 3. *)
Lemma turn_protocol_witness :
  match run three_resend (start three_paths []) with
  | Some (s, tr) =>
      In (EvResend 2 2%Z) tr /\ ~ In (EvTurnRecv 2 4%Z) tr
  | None => False
  end.
Proof.
  destruct (run three_resend (start three_paths [])) as [[s tr]|] eqn:Hrun.
  - pose proof (proj1 (proj2 (proj2 (proj2 turn_protocol))) _ _ _ _ _ Hrun)
      as (_ & _ & _ & _ & _ & _ & Hlast).
    split; [|exact (Hlast 2)].
    vm_compute in Hrun. inversion Hrun; subst. simpl. auto 30.
  - vm_compute in Hrun. discriminate.
Defined.




(** ** Failures *)

Section FailureFacts.

(** Once main has returned with no worker forked, nothing can move. *)
Lemma halted_no_step (s : sys) (st : Z) (act : action) :
  parent s = Returned st ->
  (forall j w, procs s !! j = Some w -> w = NotSpawned) ->
  kids s = [] ->
  step act s = None.
Proof.
  intros Hp Hprocs Hkids. destruct act as [a|i a|i a]; simpl.
  - rewrite Hp. destruct a; reflexivity.
  - destruct (procs s !! i) as [w|] eqn:Hi; [|reflexivity].
    rewrite (Hprocs _ _ Hi). reflexivity.
  - rewrite Hkids. reflexivity.
Qed.

Lemma halted_run (s s' : sys) (st : Z) (sched : list action) (tr : list event) :
  parent s = Returned st ->
  (forall j w, procs s !! j = Some w -> w = NotSpawned) ->
  kids s = [] ->
  run sched s = Some (s', tr) -> sched = [] /\ s' = s /\ tr = [].
Proof.
  intros Hp Hprocs Hkids Hrun. destruct sched as [|act sched].
  - simpl in Hrun. inversion Hrun. auto.
  - simpl in Hrun. rewrite (halted_no_step s st act Hp Hprocs Hkids) in Hrun.
    discriminate.
Qed.

Lemma start_not_spawned (paths : list string) (html0 : list block) (p : ppc)
    (j : nat) (w : proc) :
  procs (set_parent p (start paths html0)) !! j = Some w -> w = NotSpawned.
Proof. simpl. intros H. apply lookup_replicate in H as [-> _]. reflexivity. Qed.

End FailureFacts.

(** C9, as the code has it.  When pipe() fails, process() prints a message
    and returns -1 with no worker forked, and nothing runs afterwards.
    A failed read or write on the turn pipe, and a failed write on the
    gate pipe, make the worker print a message and exit(-1), status 255,
    where a worker that finishes exits with 0; the other workers, the
    pipes and index.html are left as they were.  A failed read on the
    gate pipe does not end the worker: it prints a message and goes on to
    the display. *)
Theorem channel_failures :
  (forall paths html0,
      step (Main Err) (start paths html0)
      = Some (set_parent (Returned (-1)) (start paths html0),
              [EvStderr pipe_err; EvReturn (-1)]) /\
      forall sched s tr,
        run sched (set_parent (Returned (-1)) (start paths html0)) = Some (s, tr) ->
        sched = [] /\ tr = []) /\
  (wexitstatus (-1) = 255%Z /\ wexitstatus 0 = 0%Z) /\
  (forall i p s s' evs,
      procs s !! i = Some (Running p) -> on_channel p = true ->
      p <> AtGateRead ->
      step (Work i Err) s = Some (s', evs) ->
      procs s' = <[i:=Exited (-1)]> (procs s) /\
      ptp1 s' = ptp1 s /\ ptp2 s' = ptp2 s /\ index_html s' = index_html s /\
      (exists msg, evs = [EvStderr msg; EvExit i (-1)]) /\
      forall j, j <> i -> procs s' !! j = procs s !! j) /\
  (forall i s s' evs,
      procs s !! i = Some (Running AtGateRead) ->
      step (Work i Err) s = Some (s', evs) ->
      procs s' = <[i:=Running AtDisplay]> (procs s) /\
      ptp1 s' = ptp1 s /\ ptp2 s' = ptp2 s /\
      evs = [EvStderr gate_err; EvGateFail i]) /\
  (forall i p path s,
      procs s !! i = Some (Running p) -> argv s !! i = Some path ->
      on_channel p = true ->
      exists s' evs, step (Work i Err) s = Some (s', evs)).
Proof.
  split_and!.
  - intros paths html0. split; [reflexivity|].
    intros sched s tr Hrun.
    destruct (halted_run (set_parent (Returned (-1)) (start paths html0))
                s (-1) sched tr eq_refl
                (start_not_spawned paths html0 _) eq_refl Hrun) as (? & _ & ?).
    auto.
  - reflexivity.
  - reflexivity.
  - intros i p s s' evs Hi Hch Hne Hstep. simpl in Hstep. rewrite Hi in Hstep.
    destruct (argv s !! i) as [path|]; [|discriminate].
    destruct p; try discriminate; try congruence; simpl in Hstep;
      inversion Hstep; subst; simpl; split_and!; eauto;
      intros j Hj; by rewrite list_lookup_insert_ne.
  - intros i s s' evs Hi Hstep. simpl in Hstep. rewrite Hi in Hstep.
    destruct (argv s !! i) as [path|]; [|discriminate].
    simpl in Hstep. inversion Hstep; subst. simpl. auto.
  - intros i p path s Hi Hpath Hch. simpl. rewrite Hi, Hpath.
    destruct p; try discriminate; simpl; eauto.
Qed.

(** The first worker's write of line 579 fails while the second waits at
    the gate: the first exits with -1, the second is left as it was. *)
Lemma channel_failures_witness :
  match run two_at_gate (start two_paths []) with
  | Some (s, _) =>
      match step (Work 0 Err) s with
      | Some (s', _) =>
          procs s' = <[0:=Exited (-1)]> (procs s) /\
          procs s' !! 1 = Some (Running AtGateRead)
      | None => False
      end
  | None => False
  end.
Proof.
  destruct (run two_at_gate (start two_paths [])) as [[s tr]|] eqn:Hrun;
    [|vm_compute in Hrun; discriminate].
  vm_compute in Hrun. inversion Hrun; subst; clear Hrun.
  match goal with
  | |- match step ?a ?s with _ => _ end =>
      destruct (step a s) as [[s' evs]|] eqn:Hstep; [|vm_compute in Hstep; discriminate];
      pose proof (proj1 (proj2 (proj2 channel_failures)) 0 AtSendGate s s' evs
                    eq_refl eq_refl ltac:(discriminate) Hstep) as (Hprocs & _)
  end.
  split; [exact Hprocs|]. rewrite Hprocs. reflexivity.
Defined.

(** C9 as stated fails for the read of the gate pipe: the worker is still
    running after the failed read. *)
Lemma gate_read_failure_not_fatal :
  ~ (forall i p s s' evs,
        procs s !! i = Some (Running p) -> on_channel p = true ->
        step (Work i Err) s = Some (s', evs) ->
        exists st, procs s' !! i = Some (Exited st) /\ wexitstatus st <> 0%Z).
Proof.
  intros H.
  destruct (run two_at_gate (start two_paths [])) as [[s tr]|] eqn:Hrun;
    [|vm_compute in Hrun; discriminate].
  vm_compute in Hrun.
  match type of Hrun with
  | Some (?s0, _) = Some _ =>
      destruct (step (Work 1 Err) s0) as [[s' evs]|] eqn:Hstep;
        [|vm_compute in Hstep; discriminate];
      destruct (H 1 AtGateRead s0 s' evs eq_refl eq_refl Hstep) as (st & Hst & _);
      vm_compute in Hstep; inversion Hstep; subst;
      vm_compute in Hst; discriminate
  end.
Qed.

(** ** File names and the resize requests *)

Section NameFacts.

Lemma after_last_slash_spec (path : string) :
  match after_last_slash path with
  | Some img => has_slash img = false /\ exists d, path = (d ++ "/" ++ img)%string
  | None => has_slash path = false
  end.
Proof.
  induction path as [|c rest IH]; simpl; [reflexivity|].
  destruct (after_last_slash rest) as [img|].
  - destruct IH as [Hno [d ->]]. split; [exact Hno|].
    exists (String c d). reflexivity.
  - destruct (is_slash c) eqn:E; simpl.
    + split; [exact IH|]. exists EmptyString. simpl.
      unfold is_slash in E. apply Ascii.eqb_eq in E. subst c. reflexivity.
    + exact IH.
Qed.

Lemma img_of_no_slash (path : string) : has_slash (img_of path) = false.
Proof.
  unfold img_of. pose proof (after_last_slash_spec path) as H.
  destruct (after_last_slash path); [apply H | exact H].
Qed.

Lemma img_of_suffix (path : string) :
  path = img_of path \/ exists d, path = (d ++ "/" ++ img_of path)%string.
Proof.
  unfold img_of. pose proof (after_last_slash_spec path) as H.
  destruct (after_last_slash path); [right; apply H | left; reflexivity].
Qed.

Lemma resize_first (paths : list string) (html0 : list block)
    (sched : list action) (s : sys) (tr pre post : list event) (e : event) (i : nat) :
  run sched (start paths html0) = Some (s, tr) -> tr = pre ++ e :: post ->
  worker_of e = Some i -> is_resize e = false -> resized i pre.
Proof.
  intros Hrun Heq Hw Hr. pose proof (event_justified _ _ _ _ _ Hrun _ _ _ Heq) as Hj.
  destruct e as [| | | |k c| | | | | | | | |]; simpl in Hw; inversion Hw; subst;
    try apply Hj.
  destruct c; simpl in Hr; try discriminate; apply Hj.
Qed.

End NameFacts.

(** C10.  A worker starts at the two resize calls; that step is never
    blocked and forks, in this order, magick convert -resize 10% of the
    image into "thumb_" followed by what comes after the last slash of
    its path, and magick convert -resize 25% into "med_" followed by the
    same; neither name has a slash in it, so both files land in the
    current directory.  In every run, each later event of a worker comes
    after both forks. *)
Theorem resize_requests :
  (forall i s,
      parent s = AtFork i -> i < length (procs s) ->
      exists s', step (Main Ok) s = Some (s', [EvSpawn i]) /\
                 procs s' !! i = Some (Running AtResize)) /\
  (forall i path s,
      procs s !! i = Some (Running AtResize) -> argv s !! i = Some path ->
      exists s',
        step (Work i Ok) s
        = Some (s', [EvFork i (Resize path ("thumb_" ++ img_of path) "10%");
                     EvFork i (Resize path ("med_" ++ img_of path) "25%")])) /\
  (forall path,
      exec_argv (Resize path ("thumb_" ++ img_of path) "10%")
      = ["magick"; "convert"; "-resize"; "10%"; path; ("thumb_" ++ img_of path)%string] /\
      exec_argv (Resize path ("med_" ++ img_of path) "25%")
      = ["magick"; "convert"; "-resize"; "25%"; path; ("med_" ++ img_of path)%string]) /\
  (forall path,
      (path = img_of path \/ exists d, path = (d ++ "/" ++ img_of path)%string) /\
      has_slash (img_of path) = false /\
      has_slash ("thumb_" ++ img_of path)%string = false /\
      has_slash ("med_" ++ img_of path)%string = false) /\
  (forall paths html0 sched s tr pre e post i,
      run sched (start paths html0) = Some (s, tr) ->
      tr = pre ++ e :: post -> worker_of e = Some i -> is_resize e = false ->
      exists path,
        In (EvFork i (Resize path ("thumb_" ++ img_of path) "10%")) pre /\
        In (EvFork i (Resize path ("med_" ++ img_of path) "25%")) pre).
Proof.
  split_and!.
  - intros i s Hp Hlt. simpl. rewrite Hp. simpl. eexists. split; [reflexivity|].
    simpl. apply list_lookup_insert_eq. exact Hlt.
  - intros i path s Hi Hpath. simpl. rewrite Hi, Hpath. simpl. eexists. reflexivity.
  - intros path. split; reflexivity.
  - intros path. pose proof (img_of_no_slash path) as Hno.
    split_and!; [apply img_of_suffix | exact Hno | simpl; exact Hno | simpl; exact Hno].
  - intros paths html0 sched s tr pre e post i Hrun Heq Hw Hr.
    exact (resize_first _ _ _ _ _ _ _ _ _ Hrun Heq Hw Hr).
Qed.

(** Two images in program order: the second worker's read of the turn
    pipe comes after its two resize forks. *)
Lemma resize_requests_witness :
  exists s', step (Work 1 Ok)
               (Sys two_paths (AtReap 0) [Some 0; Some 1]
                    [Running AtResize; Running AtResize] [] [] [] [])
             = Some (s', [EvFork 1 (Resize "b.png" "thumb_b.png" "10%");
                          EvFork 1 (Resize "b.png" "med_b.png" "25%")]).
Proof.
  apply (proj1 (proj2 resize_requests) 1 "b.png"); reflexivity.
Defined.

(** ** Validation *)

Section ValidateFacts.

Lemma invalid_img_nonzero (fs : filesystem) (stack : list byte) (arg : string) :
  fs arg = None \/
  (exists content, fs arg = Some content /\
                   header_is_img (fread8 stack content) = false) ->
  invalid_img fs stack arg <> 0%Z.
Proof.
  unfold invalid_img. intros [->|(content & -> & ->)]; discriminate.
Qed.

Lemma validate_loop_finds (fs : filesystem) (stack : nat -> list byte)
    (args : list string) (n k : nat) (arg : string) :
  args !! k = Some arg -> invalid_img fs (stack (n + k)) arg <> 0%Z ->
  exists bad, validate_loop fs stack n args = Some bad /\ In bad args.
Proof.
  revert n k. induction args as [|a rest IH]; intros n k Hk Hbad; [discriminate|].
  simpl. destruct (invalid_img fs (stack n) a =? 0)%Z eqn:E.
  - apply Z.eqb_eq in E. destruct k as [|k].
    + simpl in Hk. inversion Hk; subst. rewrite Nat.add_0_r in Hbad. contradiction.
    + simpl in Hk. replace (n + S k) with (S n + k) in Hbad by lia.
      destruct (IH _ _ Hk Hbad) as (bad & Hv & Hin). exists bad. simpl. auto.
  - exists a. simpl. auto.
Qed.

End ValidateFacts.

(** With no image on the command line, or with an argument that cannot
    be opened or that leaves in the array bytes that are not the header of
    an image, main prints the usage message, respectively the error
    message naming an argument, and returns -1, exit status 255;
    process() is never entered. *)
Lemma rejected_by_array (fs : filesystem) (stack : nat -> list byte)
    (cmdline : list string) (html0 : list block) :
  length cmdline <= 1 \/
  (exists i arg,
      1 <= i /\ cmdline !! i = Some arg /\
      (fs arg = None \/
       exists content, fs arg = Some content /\
                       header_is_img (fread8 (stack i) content) = false)) ->
  exists msg,
    main fs stack cmdline html0
    = (set_parent (Returned (-1)) (start (tail cmdline) html0),
       [EvStderr msg; EvReturn (-1)]) /\
    (length cmdline <= 1 -> msg = usage_msg) /\
    (1 < length cmdline -> exists arg, In arg (tail cmdline) /\ msg = invalid_msg arg) /\
    wexitstatus (-1) = 255%Z /\
    forall sched s tr,
      run sched (fst (main fs stack cmdline html0)) = Some (s, tr) ->
      sched = [] /\ spawned tr = [].
Proof.
  intros Hbad.
  assert (exists msg,
             validate fs stack cmdline = ((-1)%Z, [msg]) /\
             (length cmdline <= 1 -> msg = usage_msg) /\
             (1 < length cmdline ->
              exists arg, In arg (tail cmdline) /\ msg = invalid_msg arg))
    as (msg & Hval & Husage & Harg).
  { unfold validate.
    destruct (Z.of_nat (length cmdline) <=? 1)%Z eqn:E.
    - apply Z.leb_le in E. exists usage_msg. split_and!; auto. lia.
    - apply Z.leb_gt in E. destruct Hbad as [Hle|(i & arg & Hi & Hlook & Hwhy)]; [lia|].
      destruct i as [|k]; [lia|].
      destruct cmdline as [|prog args]; [discriminate|]. simpl in Hlook.
      destruct (validate_loop_finds fs stack args 1 k arg Hlook
                  (invalid_img_nonzero _ _ _ Hwhy)) as (bad & Hv & Hin).
      assert (1 < length (prog :: args)) as Hlen by lia.
      simpl. rewrite Hv. exists (invalid_msg bad). split_and!; eauto.
      intros Hle. exfalso. simpl in Hlen. lia. }
  exists msg. unfold main. rewrite Hval. simpl. split_and!; auto.
  intros sched s tr Hrun.
  destruct (halted_run (set_parent (Returned (-1)) (start (tail cmdline) html0))
              s (-1) sched tr eq_refl
              (start_not_spawned _ html0 _) eq_refl Hrun) as (-> & _ & ->).
  auto.
Qed.

(** C6, as the code has it.  With no image on the command line, or with
    an argument that cannot be opened, or one of eight bytes or more whose
    first eight bytes are not the header of an image, main prints the
    usage message, respectively the error message naming an argument, and
    returns -1, exit status 255; process() is never entered: no step of
    the system is possible afterwards, so no worker is forked.  A shorter
    file is tested on what the array of invalid_img held before: in
    [./album b.png empty.dat] the call for the empty file finds the
    signature the call for b.png left in the array, validate prints
    nothing and returns 0, process() is entered and a worker is forked for
    each of the two arguments. *)
Theorem validation_rejects :
  (forall (fs : filesystem) (stack : nat -> list byte) (cmdline : list string)
          (html0 : list block),
      length cmdline <= 1 \/
      (exists i arg,
          1 <= i /\ cmdline !! i = Some arg /\
          (fs arg = None \/
           exists content, fs arg = Some content /\ 8 <= length content /\
                           header_is_img (take 8 content) = false)) ->
      exists msg,
        main fs stack cmdline html0
        = (set_parent (Returned (-1)) (start (tail cmdline) html0),
           [EvStderr msg; EvReturn (-1)]) /\
        (length cmdline <= 1 -> msg = usage_msg) /\
        (1 < length cmdline ->
         exists arg, In arg (tail cmdline) /\ msg = invalid_msg arg) /\
        wexitstatus (-1) = 255%Z /\
        forall sched s tr,
          run sched (fst (main fs stack cmdline html0)) = Some (s, tr) ->
          sched = [] /\ spawned tr = []) /\
  (let cmdline := ["./album"; "b.png"; "empty.dat"] in
   let stack := stale stale_fs (repeat x00 8) (tail cmdline) in
   stale_fs "empty.dat" = Some [] /\
   header_is_img (take 8 []) = false /\
   stack 2 = png /\
   validate stale_fs stack cmdline = (0%Z, []) /\
   main stale_fs stack cmdline [] = (start ["b.png"; "empty.dat"] [], []) /\
   match run two_forked (fst (main stale_fs stack cmdline [])) with
   | Some (s, tr) =>
       spawned tr = [0; 1] /\
       procs s = [Running (AtImgFork); Running AtTurnRead]
   | None => False
   end).
Proof.
  split.
  - intros fs stack cmdline html0 Hbad.
    apply rejected_by_array.
    destruct Hbad as [Hle|(i & arg & Hi & Hlook & Hwhy)]; [left; exact Hle|].
    right. exists i, arg. split_and!; auto.
    destruct Hwhy as [Hnone|(content & Hsome & Hlen & Hhead)]; [left; exact Hnone|].
    right. exists content. split; [exact Hsome|].
    rewrite (fread8_long _ _ Hlen). exact Hhead.
  - split_and!; try reflexivity.
    destruct (run two_forked _) as [[s tr]|] eqn:Hrun;
      vm_compute in Hrun; [|discriminate].
    inversion Hrun; subst. split; reflexivity.
Qed.

(** A text file among the arguments. *)
Lemma validation_rejects_witness :
  exists msg,
    main demo_fs zero_stack ["./album"; "b.png"; "notes.txt"] []
    = (set_parent (Returned (-1)) (start ["b.png"; "notes.txt"] []),
       [EvStderr msg; EvReturn (-1)]).
Proof.
  destruct (proj1 validation_rejects demo_fs zero_stack
              ["./album"; "b.png"; "notes.txt"] []) as (msg & H & _).
  - right. exists 2, "notes.txt". split; [lia|]. split; [reflexivity|].
    right. eexists. split; [reflexivity|]. split; [simpl; lia|reflexivity].
  - exists msg. exact H.
Defined.

(** ** The report file *)

Section ReportFacts.

Lemma w_or_a_first : w_or_a 1 = ModeW.
Proof. reflexivity. Qed.

Lemma w_or_a_later (order : Z) : order <> 1%Z -> w_or_a order = ModeA.
Proof.
  intros Hne. unfold w_or_a.
  destruct (order =? 1)%Z eqn:E; [apply Z.eqb_eq in E; contradiction | reflexivity].
Qed.

End ReportFacts.

(** C1, as the code has it.  The link block of an image is written by a
    child forked at line 482 that nobody waits for, its caption block by
    the worker itself.  With the child of each worker running as soon as
    it is forked, two images give link, caption, link, caption.  With the
    second worker's child running after that worker's caption, the same
    two images and the same answers give a report in which the second
    caption block comes before the second link block, every process
    having returned 0. *)
Theorem report_blocks_race :
  match run two_in_order (start two_paths []) with
  | Some (s, tr) =>
      parent s = Returned 0 /\ procs s = [Exited 0; Exited 0] /\ kids s = [] /\
      index_html s = [LinkBlock "med_a.jpg" "thumb_a.jpg"; CapBlock "first";
                      LinkBlock "med_b.png" "thumb_b.png"; CapBlock "second"]
  | None => False
  end /\
  match run two_late_link (start two_paths []) with
  | Some (s, tr) =>
      parent s = Returned 0 /\ procs s = [Exited 0; Exited 0] /\ kids s = [] /\
      In (EvImgHtml 0 0) tr /\ In (EvImgHtml 1 0) tr /\
      index_html s = [LinkBlock "med_a.jpg" "thumb_a.jpg"; CapBlock "first";
                      CapBlock "second"; LinkBlock "med_b.png" "thumb_b.png"]
  | None => False
  end.
Proof.
  split.
  - destruct (run two_in_order (start two_paths [])) as [[s tr]|] eqn:Hrun;
      vm_compute in Hrun; [|discriminate].
    inversion Hrun; subst. split_and!; reflexivity.
  - destruct (run two_late_link (start two_paths [])) as [[s tr]|] eqn:Hrun;
      vm_compute in Hrun; [|discriminate].
    inversion Hrun; subst. split_and!; try reflexivity; simpl; tauto.
Qed.

(** C8, as the code has it.  img_html opens index.html with "w" for the
    image of index 1 and with "a" for every other one, cap_html always
    with "a"; so for one image whose img_html child runs when it is
    forked, the file holds the link block and then the caption block
    whatever it held before.  The child is not waited for: when it runs
    after the worker has written the caption, its "w" discards the
    caption and the file holds the link block alone. *)
Theorem report_open_modes :
  w_or_a 1 = ModeW /\
  (forall order, order <> 1%Z -> w_or_a order = ModeA) /\
  (forall thumb med old,
      img_html thumb med 1 Ok old = (0%Z, [LinkBlock med thumb])) /\
  (forall thumb med order old,
      order <> 1%Z ->
      img_html thumb med order Ok old = (0%Z, old ++ [LinkBlock med thumb])) /\
  (forall caption old,
      cap_html caption Ok old = (0%Z, old ++ [CapBlock caption])) /\
  (forall old,
      option_map (fun r => index_html (fst r))
                 (run one_in_order (start ["a.jpg"] old))
      = Some [LinkBlock "med_a.jpg" "thumb_a.jpg"; CapBlock "only"]) /\
  (forall old,
      option_map (fun r => (parent (fst r), procs (fst r), index_html (fst r)))
                 (run one_late_link (start ["a.jpg"] old))
      = Some (Returned 0, [Exited 0], [LinkBlock "med_a.jpg" "thumb_a.jpg"])).
Proof.
  split_and!.
  - reflexivity.
  - exact w_or_a_later.
  - reflexivity.
  - intros thumb med order old Hne. unfold img_html. rewrite (w_or_a_later _ Hne).
    reflexivity.
  - reflexivity.
  - intros old. vm_compute. reflexivity.
  - intros old. vm_compute. reflexivity.
Qed.

(** The link block of a second image is appended. *)
Lemma report_open_modes_witness :
  img_html "thumb_b.png" "med_b.png" 2 Ok [CapBlock "first"]
  = (0%Z, [CapBlock "first"; LinkBlock "med_b.png" "thumb_b.png"]).
Proof.
  apply (proj1 (proj2 (proj2 (proj2 report_open_modes)))). lia.
Defined.

(** ** Validation, argument by argument *)

Section ValidateOrder.

Context (fs : filesystem) (stack : nat -> list byte).

Lemma validate_loop_none (args : list string) (n : nat) :
  validate_loop fs stack n args = None <->
  forall k arg, args !! k = Some arg -> invalid_img fs (stack (n + k)) arg = 0%Z.
Proof.
  revert n. induction args as [|a rest IH]; intros n; simpl.
  - split; [intros _ k arg Hk; discriminate | reflexivity].
  - destruct (invalid_img fs (stack n) a =? 0)%Z eqn:E.
    + apply Z.eqb_eq in E. rewrite IH. split.
      * intros H [|k] arg Hk; simpl in Hk.
        -- inversion Hk; subst. rewrite Nat.add_0_r. exact E.
        -- replace (n + S k) with (S n + k) by lia. auto.
      * intros H k arg Hk. replace (S n + k) with (n + S k) by lia.
        apply H. exact Hk.
    + apply Z.eqb_neq in E. split; [discriminate|].
      intros H. exfalso. apply E. specialize (H 0 a eq_refl).
      rewrite Nat.add_0_r in H. exact H.
Qed.

Lemma validate_loop_first (args : list string) (n : nat) (bad : string) :
  validate_loop fs stack n args = Some bad <->
  exists k,
    args !! k = Some bad /\ invalid_img fs (stack (n + k)) bad <> 0%Z /\
    forall j a, j < k -> args !! j = Some a ->
                invalid_img fs (stack (n + j)) a = 0%Z.
Proof.
  revert n. induction args as [|a rest IH]; intros n; simpl.
  - split; [discriminate | intros (k & Hk & _); discriminate].
  - destruct (invalid_img fs (stack n) a =? 0)%Z eqn:E.
    + apply Z.eqb_eq in E. rewrite IH. split.
      * intros (k & Hk & Hbad & Hbefore). exists (S k).
        replace (n + S k) with (S n + k) by lia. split_and!; auto.
        intros [|j] a' Hj Ha'; simpl in Ha'.
        -- inversion Ha'; subst. rewrite Nat.add_0_r. exact E.
        -- replace (n + S j) with (S n + j) by lia. apply Hbefore; [lia|exact Ha'].
      * intros ([|k] & Hk & Hbad & Hbefore); simpl in Hk.
        -- inversion Hk; subst. rewrite Nat.add_0_r in Hbad. contradiction.
        -- exists k. replace (S n + k) with (n + S k) by lia. split_and!; auto.
           intros j a' Hj Ha'. replace (S n + j) with (n + S j) by lia.
           apply (Hbefore (S j)); [lia|exact Ha'].
    + apply Z.eqb_neq in E. split.
      * intros H. inversion H; subst. exists 0. rewrite Nat.add_0_r.
        split_and!; auto. intros j a' Hj. lia.
      * intros ([|k] & Hk & Hbad & Hbefore); simpl in Hk.
        -- congruence.
        -- exfalso. apply E. specialize (Hbefore 0 a ltac:(lia) eq_refl).
           rewrite Nat.add_0_r in Hbefore. exact Hbefore.
Qed.

End ValidateOrder.

(** X1.  validate returns 0, printing nothing, exactly when there is at
    least one argument after the program name and invalid_img returns 0
    for every one of them; main then enters process() with these
    arguments as the image paths.  In every other case validate prints
    one message and returns -1, and main returns -1 without entering
    process(). *)
Theorem validate_accepts (fs : filesystem) (stack : nat -> list byte)
    (cmdline : list string) (html0 : list block) :
  let valid :=
    1 < length cmdline /\
    forall k arg, tail cmdline !! k = Some arg ->
                  invalid_img fs (stack (S k)) arg = 0%Z in
  (validate fs stack cmdline = (0%Z, []) <-> valid) /\
  (valid -> main fs stack cmdline html0 = (start (tail cmdline) html0, [])) /\
  (~ valid ->
   exists msg,
     validate fs stack cmdline = ((-1)%Z, [msg]) /\
     main fs stack cmdline html0
     = (set_parent (Returned (-1)) (start (tail cmdline) html0),
        [EvStderr msg; EvReturn (-1)])).
Proof.
  intros valid.
  assert (validate fs stack cmdline = (0%Z, []) <-> valid) as Hiff.
  { unfold valid, validate.
    destruct (Z.of_nat (length cmdline) <=? 1)%Z eqn:E.
    - apply Z.leb_le in E. split; [discriminate | intros [Hlen _]; lia].
    - apply Z.leb_gt in E.
      pose proof (validate_loop_none fs stack (tail cmdline) 1) as Hnone.
      destruct (validate_loop fs stack 1 (tail cmdline)) as [bad|].
      + split; [discriminate|]. intros [_ Hall].
        apply Hnone in Hall. discriminate.
      + split; [|reflexivity]. intros _. split; [lia|].
        apply Hnone. reflexivity. }
  split_and!.
  - exact Hiff.
  - intros Hv. unfold main. rewrite (proj2 Hiff Hv). reflexivity.
  - intros Hnot.
    assert (exists msg, validate fs stack cmdline = ((-1)%Z, [msg])) as [msg Hmsg].
    { destruct (validate fs stack cmdline) as [rc msgs] eqn:Hval.
      unfold validate in Hval. repeat case_match; simplify_eq/=; eauto.
      exfalso. apply Hnot, Hiff. unfold validate. repeat case_match; congruence. }
    exists msg. split; [exact Hmsg|]. unfold main. rewrite Hmsg. reflexivity.
Qed.

(** The PNG file alone is accepted. *)
Lemma validate_accepts_witness :
  main demo_fs zero_stack ["./album"; "b.png"] [] = (start ["b.png"] [], []).
Proof.
  apply (proj1 (proj2 (validate_accepts demo_fs zero_stack ["./album"; "b.png"] []))).
  split; [simpl; lia|].
  intros [|[|k]] arg Hk; simpl in Hk; inversion Hk; subst. reflexivity.
Defined.

(** X2.  When validate refuses the command line for one of its
    arguments, the one message it prints names the first argument, in
    command-line order, for which invalid_img does not return 0: the
    arguments before it were accepted, the ones after it are not looked
    at. *)
Theorem validate_names_first (fs : filesystem) (stack : nat -> list byte)
    (cmdline : list string) (k : nat) (bad : string) :
  tail cmdline !! k = Some bad ->
  invalid_img fs (stack (S k)) bad <> 0%Z ->
  (forall j a, j < k -> tail cmdline !! j = Some a ->
               invalid_img fs (stack (S j)) a = 0%Z) ->
  validate fs stack cmdline = ((-1)%Z, [invalid_msg bad]).
Proof.
  intros Hk Hbad Hbefore.
  assert (validate_loop fs stack 1 (tail cmdline) = Some bad) as Hloop.
  { apply validate_loop_first. exists k. simpl. auto. }
  unfold validate. rewrite Hloop.
  destruct (Z.of_nat (length cmdline) <=? 1)%Z eqn:E; [|reflexivity].
  apply Z.leb_le in E.
  destruct cmdline as [|prog [|a rest]]; simpl in *; try discriminate; lia.
Qed.

(** Two text files after an image: the first of the two is named. *)
Lemma validate_names_first_witness :
  validate demo_fs zero_stack ["./album"; "b.png"; "notes.txt"; "missing.gif"]
  = ((-1)%Z, [invalid_msg "notes.txt"]).
Proof.
  apply (validate_names_first demo_fs zero_stack _ 1).
  - reflexivity.
  - discriminate.
  - intros [|j] a Hj Ha; [|lia]. simpl in Ha. inversion Ha; subst. reflexivity.
Defined.

(** ** Files shorter than the header *)

Section ShortFiles.

Lemma header_is_img_prefix (bytes : list byte) :
  header_is_img bytes = true <->
  jpg `prefix_of` bytes \/ png `prefix_of` bytes \/
  bmp `prefix_of` bytes \/ gif `prefix_of` bytes.
Proof.
  rewrite header_is_img_agree.
  destruct sig_nonzero as (Hj & Hp & Hb & Hg).
  rewrite (at_agree_prefix jpg Hj), (at_agree_prefix png Hp),
    (at_agree_prefix bmp Hb), (at_agree_prefix gif Hg).
  reflexivity.
Qed.

(** A signature the file starts with is in the buffer after fread. *)
Lemma fread8_keeps_prefix (sig stack content : list byte) :
  length sig <= 8 -> sig `prefix_of` content -> sig `prefix_of` fread8 stack content.
Proof.
  intros Hlen [k ->]. unfold fread8. rewrite <- app_assoc.
  rewrite take_app_ge by exact Hlen. apply prefix_app_r. reflexivity.
Qed.

Lemma fread8_empty (stack : list byte) : fread8 stack [] = take 8 stack.
Proof. reflexivity. Qed.

End ShortFiles.

(** X3.  invalid_img does not look at what fread returns.  A readable
    file that starts with one of the four signatures is accepted, however
    short it is, and a file of eight bytes or more that starts with none
    is refused, whatever the buffer held before the call.  For an empty
    file fread stores nothing: the file is accepted exactly when the
    bytes the buffer happened to hold start with a signature. *)
Theorem invalid_img_short_files (fs : filesystem) (stack : list byte)
    (path : string) (content : list byte) :
  fs path = Some content ->
  let signed (bytes : list byte) :=
    jpg `prefix_of` bytes \/ png `prefix_of` bytes \/
    bmp `prefix_of` bytes \/ gif `prefix_of` bytes in
  (signed content -> invalid_img fs stack path = 0%Z) /\
  (8 <= length content -> ~ signed content ->
   invalid_img fs stack path = (-1)%Z) /\
  (content = [] ->
   (invalid_img fs stack path = 0%Z <-> signed (take 8 stack))).
Proof.
  intros Hfs signed. unfold invalid_img. rewrite Hfs. split_and!.
  - intros Hsig.
    assert (header_is_img (fread8 stack content) = true) as ->; [|reflexivity].
    apply header_is_img_prefix.
    destruct Hsig as [H|[H|[H|H]]];
      [left | right; left | right; right; left | right; right; right];
      (apply fread8_keeps_prefix; [simpl; lia | exact H]).
  - intros Hlen Hno.
    destruct (header_is_img (fread8 stack content)) eqn:E; [|reflexivity].
    exfalso. apply Hno. apply header_is_img_prefix in E.
    rewrite (fread8_long _ _ Hlen) in E.
    assert (take 8 content `prefix_of` content) as Htake by apply prefix_take.
    unfold signed.
    destruct E as [H|[H|[H|H]]];
      [left | right; left | right; right; left | right; right; right];
      (etrans; [exact H | exact Htake]).
  - intros ->. rewrite fread8_empty. unfold signed.
    rewrite <- header_is_img_prefix.
    destruct (header_is_img (take 8 stack)); simpl; split; congruence.
Qed.

(** A file that holds the two bytes of a BMP header and nothing else. *)
Lemma invalid_img_short_files_witness :
  invalid_img (fun _ => Some [x42; x4d]) (repeat x00 8) "tiny.bmp" = 0%Z.
Proof.
  apply (proj1 (invalid_img_short_files (fun _ => Some [x42; x4d]) (repeat x00 8)
                  "tiny.bmp" [x42; x4d] eq_refl)).
  right. right. left. exists []. reflexivity.
Defined.

(** ** Lines read from the user *)

Section LineFacts.

Lemma str_app_assoc (a b c : string) : ((a ++ b) ++ c = a ++ (b ++ c))%string.
Proof. induction a as [|x a IH]; simpl; [reflexivity | by rewrite IH]. Qed.

Lemma str_length_app (a b : string) :
  String.length (a ++ b) = String.length a + String.length b.
Proof. induction a as [|x a IH]; simpl; [reflexivity | by rewrite IH]. Qed.

Lemma has_app (p : ascii -> bool) (a b : string) :
  has p (a ++ b) = has p a || has p b.
Proof.
  induction a as [|x a IH]; simpl; [reflexivity|].
  rewrite IH. apply orb_assoc.
Qed.

Lemma cstr_id (s : string) : has is_nul s = false -> cstr s = s.
Proof.
  induction s as [|c s IH]; simpl; [reflexivity|].
  intros H. apply orb_false_iff in H as [Hc Hs]. unfold is_nul in Hc.
  rewrite Hc, (IH Hs). reflexivity.
Qed.

Lemma cstr_length (s : string) : String.length (cstr s) <= String.length s.
Proof.
  induction s as [|c s IH]; simpl; [lia|].
  destruct (Ascii.eqb c "000"); simpl; lia.
Qed.

Lemma has_cstr (p : ascii -> bool) (s : string) :
  has p s = false -> has p (cstr s) = false.
Proof.
  induction s as [|c s IH]; simpl; [reflexivity|].
  intros H. apply orb_false_iff in H as [Hc Hs].
  destruct (Ascii.eqb c "000"); simpl; [reflexivity|].
  rewrite Hc, (IH Hs). reflexivity.
Qed.

(** Cutting at the first NUL, for a line and the newline after it. *)
Lemma cstr_line_nl (line : string) :
  cstr (line ++ nl) = (if has is_nul line then cstr line else line ++ nl)%string.
Proof.
  induction line as [|c line IH]; simpl; [reflexivity|].
  unfold is_nul at 1. destruct (Ascii.eqb c "000"); simpl; [reflexivity|].
  rewrite IH. destruct (has is_nul line); reflexivity.
Qed.

Lemma chomp_nl (line : string) : chomp (line ++ nl) = line.
Proof.
  induction line as [|c line IH]; simpl; [reflexivity|].
  rewrite IH. destruct line; reflexivity.
Qed.

Lemma chomp_id (s : string) : has is_nl s = false -> chomp s = s.
Proof.
  induction s as [|c s IH]; simpl; [reflexivity|].
  intros H. apply orb_false_iff in H as [Hc Hs]. rewrite (IH Hs), Hc.
  destruct s; reflexivity.
Qed.

Lemma chomp_length (s : string) : String.length (chomp s) <= String.length s.
Proof.
  induction s as [|c s IH]; simpl; [lia|].
  destruct s as [|d s]; [destruct (is_nl c); simpl; lia|].
  simpl in *. lia.
Qed.

(** fgets on a line that fits: the line and its newline are stored. *)
Lemma fgets_chars_line (n : nat) (line rest : string) :
  has is_nl line = false -> String.length line < n ->
  fgets_chars n (line ++ nl ++ rest) = ((line ++ nl)%string, rest).
Proof.
  revert n. induction line as [|c line IH]; intros n Hno Hlen.
  - destruct n; [simpl in Hlen; lia | reflexivity].
  - simpl in Hno. apply orb_false_iff in Hno as [Hc Hline].
    destruct n; [simpl in Hlen; lia|]. simpl in *.
    rewrite Hc, (IH n Hline) by lia. reflexivity.
Qed.

(** fgets on a line that does not fit: the buffer is filled, the rest of
    the line stays on the input. *)
Lemma fgets_chars_full (n : nat) (l1 rest : string) :
  has is_nl l1 = false -> String.length l1 = n ->
  fgets_chars n (l1 ++ rest) = (l1, rest).
Proof.
  revert n. induction l1 as [|c l1 IH]; intros n Hno Hlen.
  - simpl in Hlen. subst n. reflexivity.
  - simpl in Hno. apply orb_false_iff in Hno as [Hc Hl1].
    destruct n; [discriminate|]. simpl in *.
    rewrite Hc, (IH n Hl1) by lia. reflexivity.
Qed.

(** What fgets stores, whatever the input. *)
Lemma fgets_chars_spec (n : nat) (input got unread : string) :
  fgets_chars n input = (got, unread) ->
  input = (got ++ unread)%string /\ String.length got <= n /\
  (n <> 0 -> input <> EmptyString -> got <> EmptyString) /\
  exists line,
    has is_nl line = false /\
    ((got = line /\ (String.length got = n \/ unread = EmptyString)) \/
     got = (line ++ nl)%string).
Proof.
  revert input got unread. induction n as [|n IH]; intros input got unread H.
  - simpl in H. inversion H; subst. split_and!; [reflexivity|simpl; lia|congruence|].
    exists EmptyString. auto.
  - destruct input as [|c rest]; simpl in H.
    + inversion H; subst. split_and!; [reflexivity|simpl; lia|congruence|].
      exists EmptyString. auto.
    + destruct (is_nl c) eqn:Hc.
      * inversion H; subst. split_and!; [reflexivity|simpl; lia|discriminate|].
        exists EmptyString. split; [reflexivity|]. right. simpl. unfold nl.
        unfold is_nl in Hc. apply Ascii.eqb_eq in Hc. subst c. reflexivity.
      * destruct (fgets_chars n rest) as [got' unread'] eqn:E.
        inversion H; subst.
        destruct (IH _ _ _ E) as (-> & Hlen & _ & line & Hline & Hshape).
        split_and!; [reflexivity|simpl; lia|discriminate|].
        exists (String c line). simpl. rewrite Hc, Hline. split; [reflexivity|].
        destruct Hshape as [[-> Hend]| ->]; [left|right; reflexivity].
        split; [reflexivity|]. destruct Hend; [left; simpl|right]; auto.
Qed.

(** With room for a character and input left, fgets reads. *)
Lemma fgets_reads (buffer stdin : string) (len : nat) :
  2 <= len -> stdin <> EmptyString ->
  fgets buffer len stdin
  = let '(got, unread) := fgets_chars (len - 1) stdin in (cstr got, unread).
Proof.
  intros Hlen Hne. destruct len as [|[|n]]; try lia.
  destruct stdin; [contradiction|reflexivity].
Qed.

End LineFacts.

(** X4.  input_string with room for at least the terminating NUL
    ([1 <= len]) on input that is not at its end: the string left in the
    buffer has at most len-1 characters and no newline, the return code is
    0 or -1, and for len of 2 or more some input is consumed.  When the
    input has no NUL character nothing typed is dropped but the newline
    that ended the line, and a return code of 0 means the whole line was
    read. *)
Theorem input_string_bounds (buffer stdin : string) (len : nat)
    (rc : Z) (buf unread : string) :
  1 <= len -> stdin <> EmptyString ->
  input_string buffer len stdin = (rc, buf, unread) ->
  String.length buf <= len - 1 /\ has is_nl buf = false /\
  (rc = 0%Z \/ rc = (-1)%Z) /\
  (2 <= len -> String.length unread < String.length stdin) /\
  (has is_nul stdin = false ->
   (stdin = (buf ++ unread)%string \/ stdin = (buf ++ nl ++ unread)%string) /\
   (rc = 0%Z -> unread = EmptyString \/ stdin = (buf ++ nl ++ unread)%string)).
Proof.
  intros Hlen1 Hne H. unfold input_string in H.
  destruct (decide (len = 1)) as [->|Hroom].
  { (* room for the NUL only: nothing is read *)
    simpl in H. inversion H; subst rc buf unread. clear H.
    split_and!; [simpl; lia | reflexivity | auto | lia |].
    intros _. split; [left; reflexivity | discriminate]. }
  rewrite (fgets_reads buffer stdin len) in H by (lia || assumption).
  destruct (fgets_chars (len - 1) stdin) as [got unread'] eqn:E.
  inversion H; subst rc buf unread'. clear H.
  destruct (fgets_chars_spec _ _ _ _ E) as (Hsplit & Hlen & Hsome & line & Hline & Hshape).
  pose proof (cstr_length got) as Hc. pose proof (chomp_length (cstr got)) as Hch.
  split_and!.
  - lia.
  - destruct Hshape as [[-> _]| ->].
    + rewrite chomp_id; apply has_cstr; exact Hline.
    + rewrite cstr_line_nl. destruct (has is_nul line).
      * rewrite chomp_id; apply has_cstr; exact Hline.
      * rewrite chomp_nl. exact Hline.
  - destruct (len <=? String.length (cstr got) + 1)%nat; auto.
  - intros Hlen2. rewrite Hsplit, str_length_app.
    assert (got <> EmptyString) as Hgot by (apply Hsome; [lia | assumption]).
    destruct got; [contradiction|]. simpl. lia.
  - intros Hnul. rewrite Hsplit, has_app in Hnul.
    apply orb_false_iff in Hnul as [Hgot _]. rewrite (cstr_id _ Hgot).
    destruct Hshape as [[-> Hend]| ->].
    + rewrite (chomp_id _ Hline). split; [left; exact Hsplit|].
      intros Hrc. destruct Hend as [Hfull|Hend]; [|left; exact Hend].
      destruct (len <=? String.length line + 1)%nat eqn:Hcmp; [discriminate|].
      apply Nat.leb_gt in Hcmp. lia.
    + rewrite chomp_nl. rewrite str_app_assoc in Hsplit.
      split; [right; exact Hsplit | intros _; right; exact Hsplit].
Qed.

(** A line of five characters into a buffer of 50. *)
Lemma input_string_bounds_witness :
  String.length "hello" <= STRING_LEN - 1 /\ has is_nl "hello" = false.
Proof.
  destruct (input_string_bounds "junk" ("hello" ++ nl ++ "next") STRING_LEN
              0%Z "hello" "next" ltac:(unfold STRING_LEN; lia)
              ltac:(discriminate) eq_refl) as (H1 & H2 & _).
  exact (conj H1 H2).
Defined.

Section ReplyFacts.

(** input_string on a line with its newline, when the line fits. *)
Lemma input_string_fits (junk line more : string) (len : nat) :
  has is_nl line = false -> has is_nul line = false ->
  String.length line + 2 <= len ->
  input_string junk len (line ++ nl ++ more)
  = (if (len <=? String.length line + 2)%nat then (-1)%Z else 0%Z, line, more).
Proof.
  intros Hnl Hnul Hlen. unfold input_string.
  assert (fgets_chars (len - 1) (line ++ nl ++ more) = ((line ++ nl)%string, more))
    as Hget by (apply fgets_chars_line; [exact Hnl | lia]).
  rewrite fgets_reads by (lia || (destruct line; discriminate)).
  rewrite Hget, cstr_line_nl, Hnul, chomp_nl, str_length_app. simpl.
  replace (String.length line + 1 + 1) with (String.length line + 2) by lia.
  reflexivity.
Qed.

(** The same when the buffer is too small for the line. *)
Lemma input_string_cut (junk l1 rest : string) (len : nat) :
  has is_nl l1 = false -> has is_nul l1 = false ->
  String.length l1 + 1 = len -> rest <> EmptyString ->
  input_string junk len (l1 ++ rest) = ((-1)%Z, l1, rest).
Proof.
  intros Hnl Hnul Hlen Hrest. unfold input_string.
  destruct l1 as [|c l1]; [simpl in Hlen; subst len; reflexivity|].
  assert (fgets_chars (len - 1) (String c l1 ++ rest) = (String c l1, rest))
    as Hget by (apply fgets_chars_full; [exact Hnl | lia]).
  rewrite fgets_reads by (simpl in Hlen; lia || discriminate).
  rewrite Hget, (cstr_id _ Hnul), (chomp_id _ Hnl).
  rewrite (proj2 (Nat.leb_le _ _)) by lia. reflexivity.
Qed.

Lemma nl_app_nonempty (s : string) : (nl ++ s)%string <> EmptyString.
Proof. discriminate. Qed.

End ReplyFacts.

(** X5.  For a typed line with no newline or NUL inside, followed by its
    newline: when the line has fewer than len-2 characters input_string
    returns 0, the buffer holds the line without the newline and the
    input stands after the newline; a line of exactly len-2 characters is
    read just as completely, yet the call returns -1 (and prints its
    warning); when the line has len-1 characters or more the buffer
    holds its first len-1 characters and the rest of the line, newline
    included, stays on the input. *)
Theorem input_string_lines (junk line more : string) (len : nat) :
  has is_nl line = false -> has is_nul line = false ->
  (String.length line + 2 < len ->
   input_string junk len (line ++ nl ++ more) = (0%Z, line, more)) /\
  (String.length line + 2 = len ->
   input_string junk len (line ++ nl ++ more) = ((-1)%Z, line, more)) /\
  (forall l1 l2,
      line = (l1 ++ l2)%string -> String.length l1 + 1 = len ->
      input_string junk len (line ++ nl ++ more)
      = ((-1)%Z, l1, (l2 ++ nl ++ more)%string)).
Proof.
  intros Hnl Hnul. split_and!.
  - intros Hlen. rewrite input_string_fits by (auto; lia).
    destruct (len <=? String.length line + 2)%nat eqn:Hcmp; [|reflexivity].
    apply Nat.leb_le in Hcmp. lia.
  - intros Hlen. rewrite input_string_fits by (auto; lia).
    destruct (len <=? String.length line + 2)%nat eqn:Hcmp; [reflexivity|].
    apply Nat.leb_gt in Hcmp. lia.
  - intros l1 l2 -> Hlen. rewrite has_app in Hnl, Hnul.
    apply orb_false_iff in Hnl as [Hnl1 _]. apply orb_false_iff in Hnul as [Hnul1 _].
    rewrite str_app_assoc. apply input_string_cut; auto.
    destruct l2; discriminate.
Qed.

(** A line of 48 characters into the buffer of 50: read whole, with the
    warning. *)
Lemma input_string_lines_witness :
  input_string "junk" STRING_LEN
    ("123456789012345678901234567890123456789012345678" ++ nl ++ "caption")
  = ((-1)%Z, "123456789012345678901234567890123456789012345678", "caption").
Proof.
  apply (proj1 (proj2 (input_string_lines "junk"
                         "123456789012345678901234567890123456789012345678"
                         "caption" STRING_LEN eq_refl eq_refl))).
  reflexivity.
Defined.



(** ** Names of the files written *)

Section BaseNames.

Lemma after_last_slash_none (f : string) :
  has_slash f = false -> after_last_slash f = None.
Proof.
  induction f as [|c f IH]; simpl; [reflexivity|].
  intros H. apply orb_false_iff in H as [Hc Hf]. rewrite (IH Hf), Hc. reflexivity.
Qed.

Lemma after_last_slash_file (d f : string) :
  has_slash f = false -> after_last_slash (d ++ "/" ++ f) = Some f.
Proof.
  intros Hf. induction d as [|c d IH]; simpl.
  - rewrite (after_last_slash_none _ Hf). reflexivity.
  - simpl in IH. rewrite IH. reflexivity.
Qed.

End BaseNames.

(** X7.  The name process() takes for an image is the path with its
    directories removed: for a path dir/file it is file, for a path
    without a slash it is the path, and taking it twice changes nothing.
    So two images with the same file name in different directories get
    the same thumbnail name and the same medium name. *)
Theorem img_of_basename :
  (forall d f, has_slash f = false -> img_of (d ++ "/" ++ f) = f) /\
  (forall path, has_slash path = false -> img_of path = path) /\
  (forall path, img_of (img_of path) = img_of path) /\
  (forall d1 d2 f,
      has_slash f = false ->
      thumb_name_of (d1 ++ "/" ++ f) = thumb_name_of (d2 ++ "/" ++ f) /\
      med_name_of (d1 ++ "/" ++ f) = med_name_of (d2 ++ "/" ++ f)).
Proof.
  assert (forall d f, has_slash f = false -> img_of (d ++ "/" ++ f) = f) as Hfile.
  { intros d f Hf. unfold img_of. rewrite (after_last_slash_file d f Hf). reflexivity. }
  assert (forall path, has_slash path = false -> img_of path = path) as Hplain.
  { intros path Hp. unfold img_of. rewrite (after_last_slash_none _ Hp). reflexivity. }
  split_and!; auto.
  - intros path. apply Hplain, img_of_no_slash.
  - intros d1 d2 f Hf. unfold thumb_name_of, med_name_of.
    rewrite (Hfile d1 f Hf), (Hfile d2 f Hf). auto.
Qed.

(** Two directories, one file name. *)
Lemma img_of_basename_witness :
  thumb_name_of "trip/day1/a.jpg" = thumb_name_of "home/a.jpg".
Proof.
  apply (proj1 (proj2 (proj2 (proj2 img_of_basename)) "trip/day1" "home" "a.jpg" eq_refl)).
Defined.

(** ** The end of a worker and of process() *)

Section EndFacts.

Local Ltac old_or_new H :=
  apply lookup_insert_cases in H as [[? ?]|[? H]];
  [repeat match goal with E : ?x = _ |- _ => is_var x; subst x end|].

Lemma seq_inj (k n : nat) : seq 0 k = seq 0 n -> k = n.
Proof. intros H. apply (f_equal (@length nat)) in H. by rewrite !length_seq in H. Qed.

Lemma start_reaped (paths : list string) (html0 : list block) :
  reaped (start paths html0) [].
Proof. exact I. Qed.

Lemma is_exited_insert (l : list proc) (i j : nat) (p : pc) (w : proc) :
  l !! i = Some (Running p) -> is_exited (l !! j) = true ->
  is_exited (<[i:=w]> l !! j) = true.
Proof.
  intros Hi Hj. destruct (decide (j = i)) as [->|Hne].
  - rewrite Hi in Hj. discriminate.
  - by rewrite list_lookup_insert_ne.
Qed.

Lemma step_reaped (s s' : sys) (tr evs : list event) (act : action) :
  slots_ok s tr -> reaped s tr -> step act s = Some (s', evs) ->
  reaped s' (tr ++ evs).
Proof.
  intros Hslots Hr Hstep.
  pose proof (step_argv _ _ _ _ Hstep) as Hargv.
  destruct act as [a|i a|i a].
  - destruct Hslots as (Hlp & Hlw & k & Hsp & Hk & Hlow & Hhigh & Hnext).
    simpl in Hstep. unfold process in Hstep. unfold reaped in *.
    destruct (parent s) as [|n|n j num|n|n|n|st] eqn:Hp; destruct a; simpl in Hstep;
      try discriminate.
    + inversion Hstep; subst; simpl. exact I.
    + inversion Hstep; subst; simpl. split; [auto|]. intros; discriminate.
    + (* the test of line 631 *)
      subst k. inversion Hstep; subst; simpl. rewrite app_nil_r.
      destruct (n <? length (argv s))%nat eqn:E; [exact I|].
      apply Nat.ltb_ge in E. split; [|intros j Hj; lia].
      rewrite Hsp. f_equal. lia.
    + repeat case_match; simplify_eq/=; exact I.
    + repeat case_match; simplify_eq/=; exact I.
    + inversion Hstep; subst; simpl. exact I.
    + inversion Hstep; subst; simpl. exact I.
    + (* lines 669-674 *)
      destruct Hr as [Hall Hdone].
      rewrite Hall in Hsp. apply seq_inj in Hsp. subst k.
      destruct (n <? length (argv s))%nat eqn:E.
      * apply Nat.ltb_lt in E. rewrite (Hlow n E) in Hstep.
        destruct (is_exited (procs s !! n)) eqn:Hex; [|discriminate].
        inversion Hstep; subst; simpl. rewrite app_nil_r. split; [exact Hall|].
        intros j Hj Hlt. destruct (decide (j = n)) as [->|Hne]; [exact Hex|].
        apply Hdone; lia.
      * apply Nat.ltb_ge in E. inversion Hstep; subst; simpl.
        split; [auto|]. intros _. rewrite spawned_app, app_nil_r.
        split; [exact Hall|]. intros j Hj. apply Hdone; lia.
  - destruct (work_step_frame _ _ _ _ _ Hstep)
      as (p & w & Hi & Hprocs & _ & Hp & _ & _ & Hsp & _).
    unfold reaped in *. rewrite Hp, Hargv, Hprocs, spawned_app, Hsp, app_nil_r.
    destruct (parent s); auto.
    + destruct Hr as [Hall Hdone]. split; [exact Hall|].
      intros j Hj Hlt. eapply is_exited_insert; eauto.
    + destruct Hr as [Hst Hdone]. split; [exact Hst|]. intros H0.
      destruct (Hdone H0) as [Hall Hex]. split; [exact Hall|].
      intros j Hj. eapply is_exited_insert; eauto.
  - destruct (html_step_frame _ _ _ _ _ Hstep)
      as (Hprocs & Hp & _ & _ & _ & _ & rc & Hevs).
    assert (spawned evs = []) as Hnone by (destruct Hevs as [->|[msg ->]]; reflexivity).
    unfold reaped in *. rewrite Hp, Hargv, Hprocs, spawned_app, Hnone, app_nil_r.
    exact Hr.
Qed.

Lemma start_ends (paths : list string) (html0 : list block) :
  ends_ok (start paths html0) [].
Proof.
  assert (forall j w, procs (start paths html0) !! j = Some w -> w = NotSpawned) as Hall.
  { intros j w H. simpl in H. apply lookup_replicate in H as [-> _]. reflexivity. }
  unfold ends_ok. split_and!.
  - intros i st. split; [intros [] | intros H; apply Hall in H; discriminate].
  - intros i st H. apply Hall in H. discriminate.
  - intros i w H [->| ->]; apply Hall in H; discriminate.
  - intros i v [].
Qed.

(** A step of worker [i] from [p] to [w], in terms of what it adds to the
    trace. *)
Lemma ends_ok_move (s s' : sys) (tr evs : list event) (i : nat) (p : pc) (w : proc) :
  ends_ok s tr -> procs s !! i = Some (Running p) ->
  procs s' = <[i:=w]> (procs s) ->
  (forall k st, In (EvExit k st) evs <-> k = i /\ w = Exited st) ->
  (forall st, w = Exited st -> st = 0%Z \/ st = (-1)%Z) ->
  (w = Running AtReturn \/ w = Exited 0 ->
   In (EvCapHtml i) (tr ++ evs) /\ In (EvTurnSend i (index_of i + 1)%Z) (tr ++ evs) /\
   In (EvGateSend i (index_of i + 1)%Z) (tr ++ evs)) ->
  (forall k v, In (EvGateSend k v) evs -> k = i /\ w = Running AtReturn) ->
  (p = AtReturn -> w = Exited 0) ->
  ends_ok s' (tr ++ evs).
Proof.
  intros (E1 & E2 & E3 & E4) Hi Hprocs Hexit Hst Hdone Hsend Hret.
  assert (i < length (procs s)) as Hlt by (eapply lookup_lt_Some; eauto).
  unfold ends_ok. rewrite Hprocs. split_and!.
  - intros k st. rewrite in_app_iff, Hexit, E1. split.
    + intros [Hk|[-> ->]]; [|by apply list_lookup_insert_eq].
      rewrite list_lookup_insert_ne; [exact Hk|]. intros ->. congruence.
    + intros Hk. old_or_new Hk; auto.
  - intros k st Hk. old_or_new Hk; eauto.
  - intros k w' Hk Hw'. old_or_new Hk; [auto|].
    destruct (E3 _ _ Hk Hw') as (? & ? & ?). split_and!; by apply in_app_l.
  - intros k v Hin. apply in_app_or in Hin as [Hin|Hin].
    + destruct (decide (k = i)) as [->|Hne].
      * rewrite list_lookup_insert_eq by exact Hlt.
        destruct (E4 _ _ Hin) as [Hk|Hk]; [|congruence].
        rewrite Hi in Hk. inversion Hk; subst. right. by rewrite Hret.
      * rewrite list_lookup_insert_ne by auto. eauto.
    + destruct (Hsend _ _ Hin) as [-> ->].
      left. by apply list_lookup_insert_eq.
Qed.

Lemma ends_ok_ext (s s' : sys) (tr evs : list event) :
  ends_ok s tr -> procs s' = procs s ->
  (forall k st, ~ In (EvExit k st) evs) -> (forall k v, ~ In (EvGateSend k v) evs) ->
  ends_ok s' (tr ++ evs).
Proof.
  intros (E1 & E2 & E3 & E4) Hprocs Hexit Hsend. unfold ends_ok. rewrite Hprocs.
  split_and!.
  - intros k st. rewrite in_app_iff, <- E1. split; [|auto].
    intros [H|H]; [exact H | destruct (Hexit _ _ H)].
  - exact E2.
  - intros k w' Hk Hw'. destruct (E3 _ _ Hk Hw') as (? & ? & ?).
    split_and!; by apply in_app_l.
  - intros k v Hin. apply in_app_or in Hin as [Hin|Hin]; [eauto|].
    destruct (Hsend _ _ Hin).
Qed.

Lemma step_ends (s s' : sys) (tr evs : list event) (act : action) :
  slots_ok s tr -> links s tr -> ends_ok s tr -> step act s = Some (s', evs) ->
  ends_ok s' (tr ++ evs).
Proof.
  intros Hslots (Hk & _) Hok Hstep. destruct act as [a|i a|i a].
  - destruct (main_step_frame _ _ _ _ Hstep)
      as (_ & _ & _ & [Hprocs|(n & Hp & -> & Hprocs)]).
    + apply (ends_ok_ext s s'); auto.
      * intros k st Hin. simpl in Hstep. unfold process in Hstep.
        repeat case_match; simplify_eq/=; intuition congruence.
      * intros k v Hin. simpl in Hstep. unfold process in Hstep.
        repeat case_match; simplify_eq/=; intuition congruence.
    + destruct (spawn_fresh _ _ _ Hslots Hp) as [Hn|Hn].
      * destruct Hok as (E1 & E2 & E3 & E4). unfold ends_ok. rewrite Hprocs.
        split_and!.
        -- intros k st. rewrite in_app_iff, E1. split.
           ++ intros [H|[H|[]]]; [|discriminate].
              rewrite list_lookup_insert_ne; [exact H|]. intros ->. congruence.
           ++ intros H. old_or_new H; [discriminate|auto].
        -- intros k st H. old_or_new H; [discriminate|eauto].
        -- intros k w' H Hw'. old_or_new H; [destruct Hw'; discriminate|].
           destruct (E3 _ _ H Hw') as (? & ? & ?). split_and!; by apply in_app_l.
        -- intros k v Hin. apply in_app_or in Hin as [Hin|[Hin|[]]]; [|discriminate].
           rewrite list_lookup_insert_ne; [eauto|].
           intros ->. destruct (E4 _ _ Hin); congruence.
      * rewrite list_insert_ge in Hprocs by assumption.
        apply (ends_ok_ext s s'); auto; intros ? ? [H|[]]; discriminate.
  - simpl in Hstep.
    destruct (procs s !! i) as [[|p|]|] eqn:Hi; try discriminate.
    destruct (argv s !! i) as [path|] eqn:Hpath; try discriminate.
    pose proof (Hk _ _ Hi) as Hme.
    unfold process_img, die, ask_user, cap_html in Hstep.
    destruct p; destruct a; simpl in Hstep, Hme; repeat case_match; simplify_eq/=.
    all: unfold rotations in *; repeat case_match.
    all: eapply ends_ok_move; [exact Hok|exact Hi|reflexivity|..]; simpl.
    all: try (intros k st; split; [intros Hin|intros [? ?]]; simplify_eq/=;
              intuition congruence).
    all: try (intros st Hst; simplify_eq/=; by auto).
    all: try (intros [?|?]; discriminate).
    all: try (intros k v Hin; simpl in Hin; intuition congruence).
    all: try discriminate.
    all: try (intros _; reflexivity).
    all: try (intros _; destruct Hme as (_ & _ & _ & ? & ?);
              split_and!; eauto using in_app_l, in_last).
    intros _. destruct Hok as (_ & _ & E3 & _).
    destruct (E3 _ _ Hi (or_introl eq_refl)) as (? & ? & ?).
    split_and!; by apply in_app_l.
  - destruct (html_step_frame _ _ _ _ _ Hstep)
      as (Hprocs & _ & _ & _ & _ & _ & rc & [->|[msg ->]]);
      apply (ends_ok_ext s s'); auto; intros ? ? H; simpl in H; intuition discriminate.
Qed.

(** The invariant of a run together with how workers and process() end. *)
Lemma run_keeps_ends (paths : list string) (html0 : list block)
    (sched : list action) (s : sys) (tr : list event) :
  run sched (start paths html0) = Some (s, tr) ->
  invariant paths s tr /\ reaped s tr /\ ends_ok s tr.
Proof.
  apply (run_invariant
           (fun s tr => invariant paths s tr /\ reaped s tr /\ ends_ok s tr)).
  - split_and!; [apply start_invariant | apply start_reaped | apply start_ends].
  - intros s0 tr0 act s1 evs (Hinv & Hr & He) Hstep.
    pose proof Hinv as (_ & _ & Hslots & _ & _ & Hlinks & _).
    split_and!.
    + eapply step_invariant; eauto.
    + eapply step_reaped; eauto.
    + eapply step_ends; eauto.
Qed.

End EndFacts.

Section EndOfRun.

Context (paths : list string) (html0 : list block).

(** An event of a run has what justifies it in the trace. *)
Lemma in_justified (sched : list action) (s : sys) (tr : list event) (e : event) :
  run sched (start paths html0) = Some (s, tr) -> In e tr ->
  exists pre, (forall x, In x pre -> In x tr) /\ justified pre e.
Proof.
  intros Hrun Hin. apply in_split in Hin as (pre & post & Heq).
  exists pre. split.
  - intros x Hx. rewrite Heq. apply in_or_app. auto.
  - exact (event_justified _ _ _ _ _ Hrun _ _ _ Heq).
Qed.

(** The signal a worker read at the gate, when no gate read failed, was
    sent by the worker before it. *)
Lemma gate_signal_from_previous (sched : list action) (s : sys) (tr : list event)
    (i : nat) (v : Z) :
  run sched (start paths html0) = Some (s, tr) -> no_gate_failure tr ->
  In (EvGateRecv i v) tr ->
  exists j, i = S j /\ In (EvGateSend j v) tr.
Proof.
  intros Hrun Hnf Hin.
  destruct (run_keeps_invariant _ _ _ _ _ Hrun) as (_ & _ & _ & _ & _ & _ & _ & _ & Hex).
  pose proof (Hex Hnf _ _ Hin) as ->.
  destruct (in_justified _ _ _ _ Hrun Hin) as (pre & Hsub & _ & _ & _ & j & Hsend).
  apply Hsub in Hsend.
  destruct (in_justified _ _ _ _ Hrun Hsend) as (pre' & _ & _ & Hv & _).
  exists j. split; [|exact Hsend]. unfold index_of in Hv. lia.
Qed.

(** A worker that wrote its caption has passed the gate, unless it is the
    first. *)
Lemma caption_after_gate (sched : list action) (s : sys) (tr : list event) (i : nat) :
  run sched (start paths html0) = Some (s, tr) -> In (EvCapHtml i) tr ->
  In (EvImgFork i) tr /\ displayed i tr /\ (i = 0 \/ gate_passed i tr).
Proof.
  intros Hrun Hin.
  destruct (in_justified _ _ _ _ Hrun Hin) as (pre & Hsub & _ & Hfork & thumb & Hdis).
  split_and!; [auto | exists thumb; auto |].
  apply Hsub in Hdis.
  destruct (in_justified _ _ _ _ Hrun Hdis) as (pre' & Hsub' & _ & _ & [->|Hgate]);
    [left; reflexivity|right].
  eapply gate_passed_mono; eauto.
Qed.

(** When process() has returned 0 every worker has exited. *)
Lemma returned_all_exited (sched : list action) (s : sys) (tr : list event) :
  run sched (start paths html0) = Some (s, tr) -> parent s = Returned 0 ->
  spawned tr = seq 0 (length paths) /\
  forall j, j < length paths ->
            exists x, procs s !! j = Some (Exited x) /\ In (EvExit j x) tr /\
                      (x = 0%Z \/ x = (-1)%Z).
Proof.
  intros Hrun Hp.
  destruct (run_keeps_ends _ _ _ _ _ Hrun) as ((Hargv & _) & Hr & E1 & E2 & _).
  unfold reaped in Hr. rewrite Hp, Hargv in Hr. destruct Hr as [_ Hdone].
  destruct (Hdone eq_refl) as [Hall Hex].
  split; [exact Hall|]. intros j Hj. specialize (Hex j Hj).
  destruct (procs s !! j) as [[| |x]|] eqn:E; try discriminate.
  exists x. split_and!; [reflexivity | by apply E1 | eauto].
Qed.

End EndOfRun.

(** X8.  In every state a run can reach, at most one worker is between
    line 482 and the hand-off of line 570, the part of process_img with
    the display, the two questions and the caption; while one is there
    the turn pipe is empty and no worker holds a value to write back; the
    pipe never holds more than one value; and every worker that has not
    had its turn yet has a higher index than the one that has it. *)
Theorem turn_exclusive (paths : list string) (html0 : list block)
    (sched : list action) (s : sys) (tr : list event) :
  run sched (start paths html0) = Some (s, tr) ->
  (forall i j wi wj,
      procs s !! i = Some wi -> procs s !! j = Some wj ->
      in_turn wi = true -> in_turn wj = true -> i = j) /\
  length (ptp2 s) <= 1 /\
  (forall i w,
      procs s !! i = Some w -> in_turn w = true ->
      ptp2 s = [] /\ forall k v, procs s !! k <> Some (Running (AtTurnResend v))) /\
  (forall k wk j w,
      procs s !! k = Some wk -> in_turn wk = true ->
      procs s !! j = Some w -> pre_turn w = true -> k < j).
Proof.
  intros Hrun.
  destruct (run_keeps_invariant _ _ _ _ _ Hrun)
    as (_ & _ & _ & (_ & T1 & T2 & T3 & _ & T5) & _).
  assert (forall i w, in_turn w = true -> holds_turn i w = true) as Hhold.
  { intros i w Hw. apply holds_turn_cases. auto. }
  split_and!.
  - intros i j wi wj Hi Hj Hwi Hwj. eapply T3; eauto.
  - exact T1.
  - intros i w Hi Hw. split; [eapply T2; eauto|].
    intros k v Hk.
    assert (i = k) as ->.
    { apply (T3 i k w (Running (AtTurnResend v)) Hi Hk (Hhold _ _ Hw)).
      apply holds_turn_cases. eauto. }
    rewrite Hi in Hk. inversion Hk; subst. discriminate.
  - exact T5.
Qed.

(** Two images: while the first worker shows its thumbnail the second has
    not left the wait for its turn. *)
Lemma turn_exclusive_witness :
  match run two_at_gate (start two_paths []) with
  | Some (s, tr) => length (ptp2 s) <= 1
  | None => False
  end.
Proof.
  destruct (run two_at_gate (start two_paths [])) as [[s tr]|] eqn:Hrun.
  - exact (proj1 (proj2 (turn_exclusive _ _ _ _ _ Hrun))).
  - vm_compute in Hrun. discriminate.
Defined.

(** X9.  process() returns 0 or -1.  When it has returned 0, a worker was
    forked for every image, in the order of the command line, and every
    one of them has exited, with 0 or with -1: the loop of lines 669-670
    waits for each. *)
Theorem process_joins (paths : list string) (html0 : list block)
    (sched : list action) (s : sys) (tr : list event) (st : Z) :
  run sched (start paths html0) = Some (s, tr) ->
  parent s = Returned st ->
  (st = 0%Z \/ st = (-1)%Z) /\
  (st = 0%Z ->
   spawned tr = seq 0 (length paths) /\
   forall j, j < length paths ->
             exists x, procs s !! j = Some (Exited x) /\ In (EvExit j x) tr /\
                       (x = 0%Z \/ x = (-1)%Z)).
Proof.
  intros Hrun Hp.
  destruct (run_keeps_ends _ _ _ _ _ Hrun) as (_ & Hr & _).
  unfold reaped in Hr. rewrite Hp in Hr. destruct Hr as [Hst _].
  split; [exact Hst|]. intros ->.
  exact (returned_all_exited _ _ _ _ _ Hrun Hp).
Qed.

(** Two images, both workers done. *)
Lemma process_joins_witness :
  match run two_in_order (start two_paths []) with
  | Some (s, tr) => parent s = Returned 0 /\ spawned tr = [0; 1]
  | None => False
  end.
Proof.
  destruct (run two_in_order (start two_paths [])) as [[s tr]|] eqn:Hrun.
  - assert (parent s = Returned 0) as Hp
        by (vm_compute in Hrun; inversion Hrun; reflexivity).
    split; [exact Hp|].
    exact (proj1 (proj2 (process_joins _ _ _ _ _ 0 Hrun Hp) eq_refl)).
  - vm_compute in Hrun. discriminate.
Defined.

(** X10.  A worker exits with 0 or with -1.  One that has exited with 0
    has forked its img_html child, forked its display, written its
    caption and sent both the turn and the gate signal, each carrying its
    index plus one.  One that has exited with -1 has not sent the gate
    signal. *)
Theorem worker_exit (paths : list string) (html0 : list block)
    (sched : list action) (s : sys) (tr : list event) :
  run sched (start paths html0) = Some (s, tr) ->
  (forall i st,
      In (EvExit i st) tr ->
      (st = 0%Z \/ st = (-1)%Z) /\ procs s !! i = Some (Exited st)) /\
  (forall i,
      In (EvExit i 0) tr ->
      In (EvImgFork i) tr /\ displayed i tr /\ In (EvCapHtml i) tr /\
      In (EvTurnSend i (index_of i + 1)%Z) tr /\
      In (EvGateSend i (index_of i + 1)%Z) tr) /\
  (forall i v, In (EvExit i (-1)) tr -> ~ In (EvGateSend i v) tr).
Proof.
  intros Hrun.
  destruct (run_keeps_ends _ _ _ _ _ Hrun) as (_ & _ & E1 & E2 & E3 & E4).
  split_and!.
  - intros i st Hin. apply E1 in Hin. eauto.
  - intros i Hin. apply E1 in Hin.
    destruct (E3 _ _ Hin (or_intror eq_refl)) as (Hcap & Hturn & Hgate).
    destruct (caption_after_gate _ _ _ _ _ _ Hrun Hcap) as (Hfork & Hdis & _).
    auto.
  - intros i v Hin Hsend. apply E1 in Hin.
    destruct (E4 _ _ Hsend) as [H|H]; congruence.
Qed.

(** Two images, both workers done. *)
Lemma worker_exit_witness :
  match run two_in_order (start two_paths []) with
  | Some (s, tr) => In (EvCapHtml 1) tr /\ In (EvGateSend 1 3%Z) tr
  | None => False
  end.
Proof.
  destruct (run two_in_order (start two_paths [])) as [[s tr]|] eqn:Hrun.
  - destruct (proj1 (proj2 (worker_exit _ _ _ _ _ Hrun)) 1) as (_ & _ & Hc & _ & Hg).
    + vm_compute in Hrun. inversion Hrun; subst. simpl. auto 60.
    + exact (conj Hc Hg).
  - vm_compute in Hrun. discriminate.
Defined.

(** X11.  A worker that exits with -1 takes the next one with it: as long
    as no read of the gate pipe has failed, the worker after it never
    exits with 0, so process() can return 0 only if that worker has
    exited with -1 as well. *)
Theorem failure_cascades (paths : list string) (html0 : list block)
    (sched : list action) (s : sys) (tr : list event) (i : nat) :
  run sched (start paths html0) = Some (s, tr) ->
  no_gate_failure tr -> In (EvExit i (-1)) tr ->
  ~ In (EvExit (S i) 0) tr /\
  (parent s = Returned 0 -> S i < length paths -> In (EvExit (S i) (-1)) tr).
Proof.
  intros Hrun Hnf Hdead.
  destruct (run_keeps_ends _ _ _ _ _ Hrun) as (_ & _ & E1 & E2 & E3 & E4).
  assert (~ In (EvExit (S i) 0) tr) as Hnot.
  { intros Hin. apply E1 in Hin.
    destruct (E3 _ _ Hin (or_intror eq_refl)) as (Hcap & _).
    destruct (caption_after_gate _ _ _ _ _ _ Hrun Hcap) as (_ & _ & [?|Hgate]);
      [discriminate|].
    destruct Hgate as [(v & Hv)|Hfail]; [|exact (Hnf _ Hfail)].
    destruct (gate_signal_from_previous _ _ _ _ _ _ _ Hrun Hnf Hv) as (j & Hj & Hsend).
    inversion Hj; subst j.
    apply E1 in Hdead. destruct (E4 _ _ Hsend) as [H|H]; congruence. }
  split; [exact Hnot|]. intros Hp Hlt.
  destruct (proj2 (returned_all_exited _ _ _ _ _ Hrun Hp) (S i) Hlt)
    as (x & Hx & Hin & [->| ->]); [contradiction|exact Hin].
Qed.

(** The first worker's write of line 579 fails while the second waits at
    the gate. *)
Lemma failure_cascades_witness :
  match run (two_at_gate ++ [Work 0 Err]) (start two_paths []) with
  | Some (s, tr) => ~ In (EvExit 1 0) tr
  | None => False
  end.
Proof.
  destruct (run (two_at_gate ++ [Work 0 Err]) (start two_paths []))
    as [[s tr]|] eqn:Hrun.
  - refine (proj1 (failure_cascades _ _ _ _ _ 0 Hrun _ _));
      vm_compute in Hrun; inversion Hrun; subst.
    + intros k Hin. simpl in Hin. intuition discriminate.
    + simpl. auto 60.
  - vm_compute in Hrun. discriminate.
Defined.

(** ** The order of the turns *)

Section TurnOrder.

Local Ltac old_or_new H :=
  apply lookup_insert_cases in H as [[? ?]|[? H]];
  [repeat match goal with E : ?x = _ |- _ => is_var x; subst x end|].

(** A property of each event and what precedes it, for a trace that
    grows. *)
Lemma each_event_app (J : list event -> event -> Prop) (tr evs : list event) :
  (forall pre e post, tr = pre ++ e :: post -> J pre e) ->
  (forall pre e post, evs = pre ++ e :: post -> J (tr ++ pre) e) ->
  forall pre e post, tr ++ evs = pre ++ e :: post -> J pre e.
Proof.
  intros Htr Hevs pre e post Heq.
  apply app_eq_app in Heq as (l & [[-> Hl]|[-> Hl]]).
  - destruct l as [|x l]; simpl in Hl.
    + pose proof (Hevs [] e post (eq_sym Hl)) as H.
      rewrite !app_nil_r in H. exact H.
    + inversion Hl; subst. exact (Htr pre x l eq_refl).
  - eapply Hevs. exact Hl.
Qed.

Lemma coming_some (w : proc) (q : nat) :
  coming w = Some q -> pre_turn w = true \/ in_turn w = true.
Proof. destruct w as [|[]|]; simpl; intros; auto; discriminate. Qed.

Lemma comes_before_le (k : nat * nat) (i q0 q : nat) :
  comes_before k (i, q0) -> q0 <= q -> comes_before k (i, q).
Proof. unfold comes_before. simpl. lia. Qed.

(** A worker goes from [w0] to [w], adding [evs] to the trace. *)
Lemma turns_ok_move (s s' : sys) (tr evs : list event) (i : nat) (w0 w : proc) :
  turn_ok s -> turns_ok s tr -> turns_ordered tr ->
  procs s !! i = Some w0 -> procs s' = <[i:=w]> (procs s) ->
  (forall q, coming w = Some q -> exists q0, coming w0 = Some q0 /\ q0 <= q) ->
  (forall e k,
      In e evs -> turn_step e = Some k ->
      in_turn w0 = true /\ fst k = i /\
      (exists q0, coming w0 = Some q0 /\ q0 <= snd k) /\
      (forall q, coming w = Some q -> snd k < q)) ->
  (forall pre e post k e' k',
      evs = pre ++ e :: post -> turn_step e = Some k -> In e' pre ->
      turn_step e' = Some k' -> k' = k /\ snd k = 3) ->
  turns_ok s' (tr ++ evs) /\ turns_ordered (tr ++ evs).
Proof.
  intros (_ & _ & _ & T3 & _ & T5) Hok Hord Hi Hprocs Hgrow Hevs Hamong. split.
  - intros e k Hin Hk j w' q Hj Hq. rewrite Hprocs in Hj.
    apply in_app_or in Hin as [Hin|Hin].
    + old_or_new Hj; [|eauto].
      destruct (Hgrow _ Hq) as (q0 & Hq0 & Hle).
      eapply comes_before_le; eauto.
    + destruct (Hevs _ _ Hin Hk) as (Hturn & Hfst & _ & Hnext).
      destruct k as [ki ph]. simpl in *. subst ki.
      old_or_new Hj.
      * right. simpl. split; [reflexivity|]. by apply Hnext.
      * left. simpl. destruct (coming_some _ _ Hq) as [Hpre|Hin'].
        -- eapply T5; eauto.
        -- exfalso. apply H. eapply T3; eauto; apply holds_turn_cases; auto.
  - refine (each_event_app in_turn_order tr evs Hord _).
    intros pre e post Heq k e' k' Hk Hin' Hk'. apply in_app_or in Hin' as [Hin'|Hin'].
    + left.
      assert (In e evs) as Hin by (rewrite Heq; apply in_or_app; simpl; auto).
      destruct (Hevs _ _ Hin Hk) as (_ & Hfst & (q0 & Hq0 & Hle) & _).
      pose proof (Hok _ _ Hin' Hk' _ _ _ Hi Hq0) as Hb.
      destruct k as [ki ph]. simpl in *. subst ki.
      eapply comes_before_le; eauto.
    + right. eapply Hamong; eauto.
Qed.

(** A step that leaves the workers where they are and adds no event of a
    turn. *)
Lemma turns_ok_ext (s s' : sys) (tr evs : list event) :
  turns_ok s tr -> turns_ordered tr -> procs s' = procs s ->
  (forall e, In e evs -> turn_step e = None) ->
  turns_ok s' (tr ++ evs) /\ turns_ordered (tr ++ evs).
Proof.
  intros Hok Hord Hprocs Hnone. split.
  - intros e k Hin Hk j w q Hj Hq. rewrite Hprocs in Hj.
    apply in_app_or in Hin as [Hin|Hin]; [eauto|].
    rewrite (Hnone _ Hin) in Hk. discriminate.
  - refine (each_event_app in_turn_order tr evs Hord _).
    intros pre e post Heq k e' k' Hk.
    rewrite Hnone in Hk; [discriminate|].
    rewrite Heq. apply in_or_app. simpl. auto.
Qed.

Lemma step_turns (s s' : sys) (tr evs : list event) (act : action) :
  slots_ok s tr -> turn_ok s -> turns_ok s tr -> turns_ordered tr ->
  step act s = Some (s', evs) ->
  turns_ok s' (tr ++ evs) /\ turns_ordered (tr ++ evs).
Proof.
  intros Hslots Hturn Hok Hord Hstep. destruct act as [a|i a|i a].
  - destruct (main_step_frame _ _ _ _ Hstep)
      as (_ & _ & _ & [Hprocs|(n & Hp & -> & Hprocs)]).
    + apply (turns_ok_ext s s'); auto.
      intros e Hin. simpl in Hstep. unfold process in Hstep.
      repeat case_match; simplify_eq/=; intuition (subst; reflexivity).
    + destruct (spawn_fresh _ _ _ Hslots Hp) as [Hn|Hn].
      * apply (turns_ok_move s s' tr _ n NotSpawned _ Hturn Hok Hord Hn Hprocs).
        -- intros q Hq. exists 0. simpl in *. split; [reflexivity|lia].
        -- intros e k [<-|[]] Hk. discriminate.
        -- intros pre e post k e' k' Heq. destruct pre as [|? [|? ?]]; simplify_eq/=.
           intros _ [].
      * rewrite list_insert_ge in Hprocs by assumption.
        apply (turns_ok_ext s s'); auto. intros e [<-|[]]. reflexivity.
  - simpl in Hstep.
    destruct (procs s !! i) as [[|p|]|] eqn:Hi; try discriminate.
    destruct (argv s !! i) as [path|] eqn:Hpath; try discriminate.
    unfold process_img, die, ask_user, cap_html in Hstep.
    destruct p; destruct a; simpl in Hstep; repeat case_match; simplify_eq/=.
    all: unfold rotations in *; repeat case_match.
    all: eapply turns_ok_move; [exact Hturn|exact Hok|exact Hord|exact Hi|reflexivity|..].
    all: try (intros q Hq; simpl in *; simplify_eq/=; eexists; split; [reflexivity|lia]).
    all: try (intros e k Hin Hk; simpl in Hin;
              repeat (match type of Hin with
                      | _ \/ _ => destruct Hin as [He|Hin];
                                   [subst e; simpl in Hk; simplify_eq/=|]
                      end);
              try destruct Hin;
              split_and!; try reflexivity; try (eexists; split; [reflexivity|simpl; lia]);
              intros q Hq; simpl in *; simplify_eq/=; lia).
    all: try (intros q Hq; discriminate).
    all: intros pre e post k e' k' Heq Hk Hin Hk';
      destruct pre as [|? [|? [|? ?]]]; simplify_eq/=;
      try destruct Hin as [<-|[]]; try destruct Hin; simplify_eq/=; done.
  - destruct (html_step_frame _ _ _ _ _ Hstep)
      as (Hprocs & _ & _ & _ & _ & _ & rc & [->|[msg ->]]);
      apply (turns_ok_ext s s'); auto; intros e H; simpl in H;
      intuition (subst; reflexivity).
Qed.

Lemma start_turns (paths : list string) (html0 : list block) :
  turns_ok (start paths html0) [] /\ turns_ordered [].
Proof.
  split.
  - intros e k [].
  - intros pre e post H. destruct pre; discriminate.
Qed.

Lemma run_keeps_turns (paths : list string) (html0 : list block)
    (sched : list action) (s : sys) (tr : list event) :
  run sched (start paths html0) = Some (s, tr) ->
  invariant paths s tr /\ turns_ok s tr /\ turns_ordered tr.
Proof.
  apply (run_invariant
           (fun s tr => invariant paths s tr /\ turns_ok s tr /\ turns_ordered tr)).
  - split; [apply start_invariant | apply start_turns].
  - intros s0 tr0 act s1 evs (Hinv & Hok & Hord) Hstep.
    pose proof Hinv as (_ & _ & Hslots & Hturn & _).
    split; [eapply step_invariant; eauto | eapply step_turns; eauto].
Qed.

End TurnOrder.

(** X12.  The turns do not interleave.  Of two events that belong to the
    turns of workers (the fork of the img_html child, the read of the
    gate, the display, the rotations, the caption, the hand-off of the
    turn), the earlier one in the trace is of a worker with a lower
    index, or of the same worker and earlier in process_img; only the
    two rotations of one worker share a place.  So the img_html
    children are forked, the thumbnails displayed and the captions
    written in the order of the command line, each at most once per
    image. *)
Theorem turns_in_order (paths : list string) (html0 : list block)
    (sched : list action) (s : sys) (tr : list event) :
  run sched (start paths html0) = Some (s, tr) ->
  (forall pre e post e' i ph j ph',
      tr = pre ++ e :: post -> In e' pre ->
      turn_step e = Some (i, ph) -> turn_step e' = Some (j, ph') ->
      j < i \/ (j = i /\ (ph' < ph \/ (ph' = ph /\ ph = 3)))) /\
  (forall pre i post j,
      tr = pre ++ EvImgFork i :: post -> In (EvImgFork j) pre -> j < i) /\
  (forall pre i thumb post j thumb',
      tr = pre ++ EvFork i (Display thumb) :: post ->
      In (EvFork j (Display thumb')) pre -> j < i) /\
  (forall pre i post j,
      tr = pre ++ EvCapHtml i :: post -> In (EvCapHtml j) pre -> j < i).
Proof.
  intros Hrun.
  destruct (run_keeps_turns _ _ _ _ _ Hrun) as (_ & _ & Hord).
  assert (forall pre e post e' i ph j ph',
             tr = pre ++ e :: post -> In e' pre ->
             turn_step e = Some (i, ph) -> turn_step e' = Some (j, ph') ->
             j < i \/ (j = i /\ (ph' < ph \/ (ph' = ph /\ ph = 3)))) as Hgen.
  { intros pre e post e' i ph j ph' Heq Hin He He'.
    destruct (Hord _ _ _ Heq _ _ _ He Hin He') as [[Hlt|[Heq' Hlt]]|[Hk Hph]];
      simpl in *; [auto | auto | inversion Hk; subst; auto]. }
  split_and!; [exact Hgen|..].
  - intros pre i post j Heq Hin.
    destruct (Hgen _ _ _ _ i 0 j 0 Heq Hin eq_refl eq_refl); lia.
  - intros pre i thumb post j thumb' Heq Hin.
    destruct (Hgen _ _ _ _ i 2 j 2 Heq Hin eq_refl eq_refl); lia.
  - intros pre i post j Heq Hin.
    destruct (Hgen _ _ _ _ i 4 j 4 Heq Hin eq_refl eq_refl); lia.
Qed.

(** Two images: the second caption is not written before the first. *)
Lemma turns_in_order_witness :
  match run two_in_order (start two_paths []) with
  | Some (s, tr) =>
      forall pre post, tr = pre ++ EvCapHtml 0 :: post -> ~ In (EvCapHtml 1) pre
  | None => False
  end.
Proof.
  destruct (run two_in_order (start two_paths [])) as [[s tr]|] eqn:Hrun.
  - intros pre post Heq Hin.
    pose proof (proj2 (proj2 (proj2 (turns_in_order _ _ _ _ _ Hrun))) _ _ _ _ Heq Hin).
    lia.
  - vm_compute in Hrun. discriminate.
Defined.

(** ** index.html when every img_html child runs at once *)

Section ReportOrder.

Local Ltac old_or_new H :=
  apply lookup_insert_cases in H as [[? ?]|[? H]];
  [repeat match goal with E : ?x = _ |- _ => is_var x; subst x end|].

Lemma prompt_app_l (tr evs : list event) :
  prompt (tr ++ evs) = true -> prompt tr = true.
Proof.
  induction tr as [|e tr IH]; [reflexivity|].
  destruct e; simpl; try exact IH.
  destruct tr as [|x tr]; [reflexivity|].
  destruct x; simpl; try discriminate.
  intros H. apply andb_true_iff in H as [H1 H2].
  rewrite H1. simpl. apply IH. exact H2.
Qed.

Lemma entries_app (ps ps' cs cs' : list string) :
  length ps = length cs ->
  entries (ps ++ ps') (cs ++ cs') = entries ps cs ++ entries ps' cs'.
Proof.
  revert cs. induction ps as [|p ps IH]; intros [|c cs] H; simpl in *;
    try discriminate; [reflexivity|].
  rewrite IH by lia. reflexivity.
Qed.

Lemma entries_snoc (paths caps : list string) (m : nat) (path c : string) :
  length caps = m -> paths !! m = Some path ->
  entries (take (S m) paths) (caps ++ [c])
  = entries (take m paths) caps ++ [link_of path; CapBlock c].
Proof.
  intros Hlen Hpath. rewrite (take_S_r _ _ _ Hpath).
  apply entries_app. rewrite length_take.
  apply lookup_lt_Some in Hpath. lia.
Qed.

Lemma entries_length (ps cs : list string) :
  length ps = length cs -> length (entries ps cs) = 2 * length ps.
Proof.
  revert cs. induction ps as [|p ps IH]; intros [|c cs] H; simpl in *;
    try discriminate; [reflexivity|].
  rewrite IH by lia. lia.
Qed.

(** From the pending state to the linked one, and past a caption. *)
Lemma expects_linked (j : nat) (w : proc) (m : nat) :
  expects j w m false true -> expects j w m true false.
Proof.
  destruct w as [|[]|]; simpl; intros H; try exact I; try tauto;
    try (intros Hj; destruct (H Hj) as (_ & _ & ?); discriminate);
    destruct H as (_ & _ & ?); discriminate.
Qed.

Lemma expects_next (j : nat) (w : proc) (m : nat) :
  j <> m -> expects j w m true false -> expects j w (S m) false false.
Proof.
  intros Hne. destruct w as [|[]|]; simpl; intros H; try exact I;
    try (intros Hj; destruct (H Hj) as (_ & ? & _); discriminate);
    try (destruct H as (? & _); contradiction);
    destruct H as (_ & ? & _); discriminate.
Qed.

Lemma expects_pending (j : nat) (w : proc) (m : nat) :
  in_turn w = false -> (j = 0 -> pre_turn w = false) ->
  expects j w m false false -> expects j w m false true.
Proof.
  intros Hin Hfirst. destruct w as [|[]|]; simpl in *; intros H; try exact I;
    try discriminate;
    intros Hj; specialize (Hfirst Hj); discriminate.
Qed.

Lemma token_at_move (s s' : sys) (i : nat) (w : proc) :
  procs s' = <[i:=w]> (procs s) ->
  (forall t, In t (ptp2 s') -> token_at s t) ->
  (forall t, w = Running (AtTurnResend t) -> token_at s t) ->
  forall t, token_at s' t -> token_at s t.
Proof.
  intros Hprocs Hpipe Hw t [Hin|[k Hk]]; [auto|].
  rewrite Hprocs in Hk. old_or_new Hk; [auto|].
  right. eauto.
Qed.

(** While a worker has the turn there is no turn value in flight. *)
Lemma no_token_in_turn (s : sys) (i : nat) (w : proc) (t : Z) :
  turn_ok s -> procs s !! i = Some w -> in_turn w = true -> ~ token_at s t.
Proof.
  intros (_ & _ & T2 & T3 & _) Hi Hw [Hin|[k Hk]].
  - rewrite (T2 i w Hi) in Hin; [destruct Hin|]. apply holds_turn_cases. auto.
  - assert (i = k) as ->.
    { apply (T3 i k w _ Hi Hk); apply holds_turn_cases; eauto. }
    rewrite Hi in Hk. inversion Hk; subst. discriminate.
Qed.

(** A worker goes from [w0] to [w] and neither the file nor the pending
    child changes. *)
Lemma report_at_move (paths : list string) (html0 : list block) (s s' : sys)
    (tr evs : list event) (m : nat) (caps : list string) (l p : bool)
    (i : nat) (w0 w : proc) :
  report_at paths html0 s tr m caps l p ->
  prompt (tr ++ evs) = true ->
  procs s !! i = Some w0 -> procs s' = <[i:=w]> (procs s) ->
  kids s' = kids s -> index_html s' = index_html s ->
  (forall k rc rest, evs <> EvImgHtml k rc :: rest) ->
  (forall j, ~ In (EvCapHtml j) evs) ->
  (expects i w0 m l p -> evs = [] \/ p = false -> expects i w m l p) ->
  (forall t, token_at s' t -> token_at s t \/ (t = index_of m /\ l = false /\ p = false)) ->
  report_at paths html0 s' (tr ++ evs) m caps l p.
Proof.
  intros (Hlen & Hm & Hlt & Hkids & Hpend & Hfile & Hexp & Htok & Hcap & Hall)
    Hprompt Hi Hprocs Hk Hf Hhead Hnocap Hw Htok'.
  assert (evs = [] \/ p = false) as Hquiet.
  { destruct p; [left|right; reflexivity].
    destruct (Hpend eq_refl) as (_ & pre & ->).
    destruct (prompt_after_fork _ _ _ Hprompt) as [?|(rest & ?)]; [assumption|].
    exfalso. eapply Hhead; eauto. }
  unfold report_at. rewrite Hk, Hf, Hprocs. split_and!; auto.
  - intros Hp. destruct Hquiet as [->|Hq]; [|congruence].
    rewrite app_nil_r. auto.
  - intros j w' Hj. old_or_new Hj; [|eauto]. apply Hw; auto.
  - intros t Ht. destruct (Htok' _ Ht) as [Hold|?]; auto.
  - intros j Hin. apply in_app_or in Hin as [Hin|Hin]; [auto|].
    destruct (Hnocap _ Hin).
  - intros j Hj. apply in_app_l. auto.
Qed.

(** The fork of line 482. *)
Lemma report_at_fork (paths : list string) (html0 : list block) (s s' : sys)
    (tr : list event) (m : nat) (caps : list string) (l p : bool) (i : nat) :
  turn_ok s -> report_at paths html0 s tr m caps l p ->
  procs s !! i = Some (Running AtImgFork) -> i < length paths ->
  procs s' = <[i:=Running AtWaitThumb]> (procs s) ->
  kids s' = kids s ++ [i] -> index_html s' = index_html s -> ptp2 s' = ptp2 s ->
  report_at paths html0 s' (tr ++ [EvImgFork i]) m caps false true.
Proof.
  intros Hturn (Hlen & Hm & Hlt & Hkids & Hpend & Hfile & Hexp & Htok & Hcap & Hall)
    Hi Hin Hprocs Hk Hf Hq.
  destruct (Hexp _ _ Hi) as (-> & -> & ->).
  pose proof Hturn as (_ & _ & _ & T3 & _).
  unfold report_at. rewrite Hk, Hf, Hprocs, Hkids. split_and!; auto.
  - intros _. split; [reflexivity|]. eauto.
  - intros j w' Hj. old_or_new Hj; [simpl; auto|].
    apply expects_pending; [| |auto].
    + destruct (in_turn w') eqn:E; [|reflexivity].
      exfalso. apply H. apply (T3 j m w' _ Hj Hi); apply holds_turn_cases; auto.
    + intros ->. destruct (pre_turn w') eqn:E; [|reflexivity].
      exfalso. apply H. apply (T3 0 m w' _ Hj Hi); apply holds_turn_cases; auto.
  - intros t Ht. exfalso.
    apply (no_token_in_turn s m _ t Hturn Hi eq_refl).
    eapply token_at_move; eauto.
    + intros t' Ht'. left. by rewrite <- Hq.
    + discriminate.
  - intros j Hj. apply in_app_or in Hj as [Hj|[Hj|[]]]; [auto|discriminate].
  - intros j Hj. apply in_app_l. auto.
Qed.

(** The caption is written. *)
Lemma report_at_cap (paths : list string) (html0 : list block) (s s' : sys)
    (tr : list event) (m : nat) (caps : list string) (l p : bool) (i : nat)
    (c : string) :
  turn_ok s -> report_at paths html0 s tr m caps l p ->
  procs s !! i = Some (Running (AtCapHtml c)) ->
  procs s' = <[i:=Running AtSendTurn]> (procs s) ->
  kids s' = kids s -> index_html s' = index_html s ++ [CapBlock c] ->
  ptp2 s' = ptp2 s ->
  report_at paths html0 s' (tr ++ [EvCapHtml i]) (S m) (caps ++ [c]) false false.
Proof.
  intros Hturn (Hlen & Hm & Hlt & Hkids & Hpend & Hfile & Hexp & Htok & Hcap & Hall)
    Hi Hprocs Hk Hf Hq.
  destruct (Hexp _ _ Hi) as (-> & -> & ->).
  specialize (Hlt eq_refl).
  destruct (lookup_lt_is_Some_2 paths m Hlt) as [path Hpath].
  unfold report_at. rewrite Hk, Hf, Hprocs, Hkids, Hfile. split_and!; auto.
  - rewrite length_app. simpl. lia.
  - discriminate.
  - discriminate.
  - unfold report. simpl. rewrite Hpath, app_nil_r.
    rewrite (entries_snoc _ _ _ _ _ Hlen Hpath).
    destruct m; simpl; rewrite <- ?app_assoc; reflexivity.
  - intros j w' Hj. old_or_new Hj; [simpl; auto|].
    apply expects_next; auto.
  - intros t Ht. exfalso.
    apply (no_token_in_turn s m _ t Hturn Hi eq_refl).
    eapply token_at_move; eauto.
    + intros t' Ht'. left. by rewrite <- Hq.
    + discriminate.
  - intros j Hj. apply in_app_or in Hj as [Hj|[Hj|[]]].
    + specialize (Hcap _ Hj). lia.
    + inversion Hj. lia.
  - intros j Hj. destruct (decide (j = m)) as [->|Hne]; [apply in_last|].
    apply in_app_l, Hall. lia.
Qed.

(** The img_html child runs. *)
Lemma report_at_html (paths : list string) (html0 : list block) (s s' : sys)
    (tr evs : list event) (m : nat) (caps : list string) (l p : bool)
    (i : nat) (a : answer) :
  argv s = paths -> report_at paths html0 s tr m caps l p ->
  step (Html i a) s = Some (s', evs) -> prompt (tr ++ evs) = true ->
  report_at paths html0 s' (tr ++ evs) m caps true false.
Proof.
  intros Hargv (Hlen & Hm & Hlt & Hkids & Hpend & Hfile & Hexp & Htok & Hcap & Hall)
    Hstep Hprompt.
  simpl in Hstep. rewrite Hkids in Hstep.
  destruct p; simpl in Hstep; [|destruct a; discriminate].
  destruct (m =? i)%nat eqn:E; [|destruct a; discriminate].
  apply Nat.eqb_eq in E. subst i.
  destruct (Hpend eq_refl) as (-> & pre & ->).
  specialize (Hlt eq_refl).
  destruct (argv s !! m) as [path|] eqn:Hpath; [|destruct a; discriminate].
  rewrite Hargv in Hpath.
  assert (a = Ok /\ s' = set_kids [] (set_index_html
            (fwrite (w_or_a (index_of m)) (link_of path) (index_html s)) s) /\
          evs = [EvImgHtml m 0]) as (-> & -> & ->).
  { destruct a; simpl in Hstep; inversion Hstep; subst; auto.
    destruct (prompt_after_fork _ _ _ Hprompt) as [?|(rest & ?)]; discriminate. }
  unfold report_at. simpl. split_and!; auto.
  - discriminate.
  - rewrite Hfile. unfold report. rewrite Hpath. destruct m as [|m]; [reflexivity|].
    rewrite w_or_a_later by (unfold index_of; lia).
    simpl. rewrite app_nil_r. reflexivity.
  - intros j w' Hj. apply expects_linked. auto.
  - intros t Ht. destruct (Htok _ Ht) as (_ & _ & ?). discriminate.
  - intros j Hj. apply in_app_or in Hj as [Hj|[Hj|[]]]; [auto|discriminate].
  - intros j Hj. apply in_app_l. auto.
Qed.

End ReportOrder.

Section ReportRun.

Local Ltac old_or_new H :=
  apply lookup_insert_cases in H as [[? ?]|[? H]];
  [repeat match goal with E : ?x = _ |- _ => is_var x; subst x end|].

(** A step that moves no worker and touches neither the file nor the
    turn pipe. *)
Lemma report_at_ext (paths : list string) (html0 : list block) (s s' : sys)
    (tr evs : list event) (m : nat) (caps : list string) (l p : bool) :
  report_at paths html0 s tr m caps l p ->
  prompt (tr ++ evs) = true ->
  procs s' = procs s -> kids s' = kids s -> index_html s' = index_html s ->
  ptp2 s' = ptp2 s ->
  (forall k rc rest, evs <> EvImgHtml k rc :: rest) ->
  (forall j, ~ In (EvCapHtml j) evs) ->
  report_at paths html0 s' (tr ++ evs) m caps l p.
Proof.
  intros (Hlen & Hm & Hlt & Hkids & Hpend & Hfile & Hexp & Htok & Hcap & Hall)
    Hprompt Hprocs Hk Hf Hq Hhead Hnocap.
  unfold report_at, token_at. rewrite Hk, Hf, Hprocs, Hq. split_and!; auto.
  - intros Hp. destruct (Hpend Hp) as (Hl & pre & ->). split; [exact Hl|].
    destruct (prompt_after_fork _ _ _ Hprompt) as [->|(rest & ?)].
    + rewrite app_nil_r. eauto.
    + exfalso. eapply Hhead; eauto.
  - intros j Hin. apply in_app_or in Hin as [Hin|Hin]; [auto|].
    destruct (Hnocap _ Hin).
  - intros j Hj. apply in_app_l. auto.
Qed.

Lemma start_report (paths : list string) (html0 : list block) :
  report_ok paths html0 (start paths html0) [].
Proof.
  intros _. exists 0, [], false, false. unfold report_at, token_at. simpl.
  split_and!; auto; try discriminate; try lia;
    try (intros i w H; apply lookup_replicate in H as [-> _]; simpl; by auto);
    try (intros t [[]|[k Hk]]; apply lookup_replicate in Hk as [? _]; discriminate);
    try (intros i []); intros; lia.
Qed.

Local Ltac no_write :=
  first [ by (intros; discriminate)
        | by (intros ? Hin; simpl in Hin; intuition discriminate) ].

Local Ltac same_tokens Hi :=
  let t := fresh "t" in
  let Ht := fresh "Ht" in
  intros t Ht; left; revert t Ht;
  eapply token_at_move;
  [ reflexivity
  | intros t Ht; simpl in Ht;
    first [ by (left; exact Ht)
          | by (left; match goal with H : ptp2 _ = _ |- _ => rewrite H end;
                simpl; auto)
          | (apply in_app_or in Ht as [Ht|[<-|[]]];
             [by left | right; eexists; exact Hi]) ]
  | intros t Ht; simplify_eq/=;
    try (left; match goal with H : ptp2 _ = _ |- _ => rewrite H end;
         simpl; by auto) ].

Lemma step_report (paths : list string) (html0 : list block) (s s' : sys)
    (tr evs : list event) (act : action) :
  invariant paths s tr -> report_ok paths html0 s tr ->
  step act s = Some (s', evs) -> report_ok paths html0 s' (tr ++ evs).
Proof.
  intros (Hargv & _ & Hslots & Hturn & _) Hrep Hstep Hprompt.
  destruct (Hrep (prompt_app_l _ _ Hprompt)) as (m & caps & l & p & Hat).
  destruct act as [a|i a|i a].
  - (* the parent *)
    exists m, caps, l, p.
    destruct (main_step_frame _ _ _ _ Hstep)
      as (_ & Hq & _ & [Hprocs|(n & Hp & -> & Hprocs)]).
    + eapply report_at_ext; eauto.
      all: simpl in Hstep; unfold process in Hstep;
        repeat case_match; simplify_eq/=; try reflexivity; no_write.
    + assert (kids s' = kids s /\ index_html s' = index_html s) as [Hk Hf].
      { simpl in Hstep. unfold process in Hstep.
        repeat case_match; simplify_eq/=; auto. }
      destruct (spawn_fresh _ _ _ Hslots Hp) as [Hn|Hn].
      * apply (report_at_move paths html0 s s' tr [EvSpawn n] m caps l p n
                 NotSpawned (Running AtResize) Hat Hprompt Hn Hprocs Hk Hf);
          try no_write.
        intros t Ht. left. revert t Ht. eapply token_at_move; eauto.
        -- intros t Ht. left. by rewrite <- Hq.
        -- discriminate.
      * rewrite list_insert_ge in Hprocs by assumption.
        eapply report_at_ext; eauto; no_write.
  - (* a worker *)
    simpl in Hstep.
    destruct (procs s !! i) as [[|pc0|]|] eqn:Hi; try discriminate.
    destruct (argv s !! i) as [path|] eqn:Hpath; try discriminate.
    assert (i < length paths) as Hlti.
    { rewrite <- Hargv. eapply lookup_lt_Some; eauto. }
    pose proof Hat as (_ & _ & _ & _ & _ & _ & Hexp & Htok & _ & _).
    pose proof (Hexp _ _ Hi) as Hme.
    unfold process_img, die, ask_user, cap_html in Hstep.
    destruct pc0; destruct a; simpl in Hstep, Hme; repeat case_match; simplify_eq/=.
    all: repeat match goal with
           | H : (index_of _ =? 1)%Z = true |- _ => apply index_of_first in H
           | H : (index_of _ =? 1)%Z = false |- _ => apply index_of_later in H
           | H : (_ =? _)%Z = true |- _ => apply Z.eqb_eq in H
           | H : (_ =? _)%Z = false |- _ => apply Z.eqb_neq in H
           end.
    all: unfold rotations in *; repeat case_match.
    all: try (exists m, caps, false, true; eapply report_at_fork; eauto; done).
    all: try (eexists (S m), (caps ++ [_]), false, false;
              eapply report_at_cap; eauto; done).
    all: exists m, caps, l, p;
      (eapply report_at_move;
       [exact Hat|exact Hprompt|exact Hi|reflexivity|reflexivity|reflexivity|..]);
      try no_write.
    all: try (simpl; intros He [Hev|Hpf]; try discriminate Hev; subst; simpl in *;
              intuition (subst; auto); done).
    all: try (same_tokens Hi; done).
    + (* the worker reads its own index from the turn pipe *)
      intros _ _. simpl.
      destruct (Htok (index_of i)) as (Hm & -> & ->).
      { left. rewrite H2. simpl. auto. }
      apply index_of_inj in Hm. auto.
    + (* the turn is handed on *)
      destruct Hme as (-> & -> & ->).
      intros t [Hin|[k Hk]]; [simpl in Hin|simpl in Hk].
      * apply in_app_or in Hin as [Hin|[<-|[]]].
        -- left. left. exact Hin.
        -- right. unfold index_of. split_and!; auto. lia.
      * old_or_new Hk; [discriminate|]. left. right. eauto.
  - exists m, caps, true, false. eapply report_at_html; eauto.
Qed.

(** Everything that is kept along a run. *)
Lemma run_keeps_report (paths : list string) (html0 : list block)
    (sched : list action) (s : sys) (tr : list event) :
  run sched (start paths html0) = Some (s, tr) ->
  invariant paths s tr /\ reaped s tr /\ ends_ok s tr /\ report_ok paths html0 s tr.
Proof.
  apply (run_invariant
           (fun s tr => invariant paths s tr /\ reaped s tr /\ ends_ok s tr /\
                        report_ok paths html0 s tr)).
  - split_and!; [apply start_invariant | apply start_reaped | apply start_ends
                | apply start_report].
  - intros s0 tr0 act s1 evs (Hinv & Hr & He & Hrep) Hstep.
    pose proof Hinv as (_ & _ & Hslots & _ & _ & Hlinks & _).
    split_and!.
    + eapply step_invariant; eauto.
    + eapply step_reaped; eauto.
    + eapply step_ends; eauto.
    + eapply step_report; eauto.
Qed.

End ReportRun.

(** X13.  When each img_html child runs, and returns 0, before anything
    else is added to the trace after its fork, index.html is written in
    the order of the command line.  At every point of such a run the file
    is what the run found, as long as the first child has not run; after
    that it holds the link block and the caption block of the first m
    images, for the m captions written so far, followed by the link
    block of the next image once that is written, and nothing else.
    When process() has returned 0 and no worker has exited with -1, the
    file holds exactly one link block and one caption block per image, in
    order. *)
Theorem report_in_order (paths : list string) (html0 : list block)
    (sched : list action) (s : sys) (tr : list event) :
  run sched (start paths html0) = Some (s, tr) -> prompt tr = true ->
  (exists m captions linked,
      length captions = m /\ m <= length paths /\
      index_html s = report paths html0 m captions linked /\
      forall i, In (EvCapHtml i) tr <-> i < m) /\
  (paths <> [] -> parent s = Returned 0 ->
   (forall i, ~ In (EvExit i (-1)) tr) ->
   exists captions,
     length captions = length paths /\ index_html s = entries paths captions).
Proof.
  intros Hrun Hprompt.
  destruct (run_keeps_report _ html0 _ _ _ Hrun) as (_ & _ & (E1 & _ & E3 & _) & Hrep).
  destruct (Hrep Hprompt)
    as (m & caps & l & p & Hlen & Hm & Hlt & _ & _ & Hfile & _ & _ & Hcap & Hall').
  split.
  - exists m, caps, l. split_and!; auto. intros i. split; auto.
  - intros Hne Hp Hok.
    destruct (returned_all_exited _ _ _ _ _ Hrun Hp) as [_ Hall].
    assert (m = length paths) as Hfull.
    { destruct paths as [|path rest]; [contradiction|]. simpl in *.
      destruct (Hall (length rest) ltac:(lia)) as (x & Hx & Hin & [->| ->]);
        [|destruct (Hok _ Hin)].
      destruct (E3 _ _ Hx (or_intror eq_refl)) as (Hc & _).
      specialize (Hcap _ Hc). lia. }
    assert (l = false) as ->.
    { destruct l; [|reflexivity]. specialize (Hlt eq_refl). lia. }
    exists caps. split; [congruence|].
    rewrite Hfile, Hfull. unfold report.
    assert ((length paths =? 0)%nat = false) as ->.
    { apply Nat.eqb_neq. destruct paths; [contradiction|discriminate]. }
    simpl. rewrite take_ge by lia. apply app_nil_r.
Qed.

(** Two images, each img_html child running as soon as it is forked,
    index.html holding one caption block from an earlier run. *)
Lemma report_in_order_witness :
  match run two_in_order (start two_paths [CapBlock "old"]) with
  | Some (s, tr) =>
      exists captions,
        length captions = 2 /\ index_html s = entries two_paths captions
  | None => False
  end.
Proof.
  destruct (run two_in_order (start two_paths [CapBlock "old"]))
    as [[s tr]|] eqn:Hrun.
  - refine (proj2 (report_in_order _ _ _ _ _ Hrun _) _ _ _);
      vm_compute in Hrun; inversion Hrun; subst; try reflexivity.
    + discriminate.
    + intros i Hin. simpl in Hin. intuition discriminate.
  - vm_compute in Hrun. discriminate.
Defined.

(** ** Runs without failures *)

Section Progress.

Local Ltac old_or_new H :=
  apply lookup_insert_cases in H as [[? ?]|[? H]];
  [repeat match goal with E : ?x = _ |- _ => is_var x; subst x end|].

Lemma quiet_app (tr evs : list event) :
  quiet (tr ++ evs) <-> quiet tr /\ quiet evs.
Proof.
  unfold quiet. split.
  - intros H. split; intros msg Hin; apply (H msg), in_or_app; auto.
  - intros [H1 H2] msg Hin. apply in_app_or in Hin as [Hin|Hin]; [eapply H1|eapply H2]; eauto.
Qed.

Lemma start_alive (paths : list string) (html0 : list block) :
  alive_ok (start paths html0) [].
Proof.
  intros _. split.
  - destruct paths as [|path rest]; [left; reflexivity|right].
    right. exists 0, NotSpawned. split; reflexivity.
  - intros j [[[]|[k Hk]]|(w & Hw & Hb)]; simpl in *.
    + apply lookup_replicate in Hk as [? _]. discriminate.
    + apply lookup_replicate in Hw as [-> _]. discriminate.
Qed.

(** A worker goes from [w0] to [w]: the turn stays alive when the worker
    keeps it or puts it into the pipe. *)
Lemma turn_alive_move (s s' : sys) (i : nat) (w0 w : proc) :
  procs s = [] \/ turn_alive s ->
  procs s !! i = Some w0 -> procs s' = <[i:=w]> (procs s) ->
  (ptp2 s <> [] -> ptp2 s' <> [] \/ holds_turn i w = true) ->
  (holds_turn i w0 = true -> ptp2 s' <> [] \/ holds_turn i w = true) ->
  turn_alive s'.
Proof.
  intros Halive Hi Hprocs Hpipe Hkeep.
  assert (i < length (procs s)) as Hlt by (eapply lookup_lt_Some; eauto).
  assert (ptp2 s' <> [] \/ holds_turn i w = true -> turn_alive s') as Hmine.
  { intros [H|H]; [left; exact H|right].
    exists i, w. split; [|exact H]. rewrite Hprocs. by apply list_lookup_insert_eq. }
  destruct Halive as [Hnil|[Hq|(h & wh & Hh & Hhold)]].
  - rewrite Hnil in Hi. discriminate.
  - auto.
  - destruct (decide (h = i)) as [->|Hne].
    + rewrite Hi in Hh. inversion Hh; subst. auto.
    + right. exists h, wh. split; [|exact Hhold].
      rewrite Hprocs. by rewrite list_lookup_insert_ne.
Qed.

Lemma turn_alive_ext (s s' : sys) :
  procs s = [] \/ turn_alive s -> procs s' = procs s -> ptp2 s' = ptp2 s ->
  procs s' = [] \/ turn_alive s'.
Proof. unfold turn_alive. intros H -> ->. exact H. Qed.

Lemma step_turn_alive (s s' : sys) (tr evs : list event) (act : action) :
  slots_ok s tr -> procs s = [] \/ turn_alive s ->
  step act s = Some (s', evs) -> quiet evs ->
  procs s' = [] \/ turn_alive s'.
Proof.
  intros Hslots Halive Hstep Hquiet. destruct act as [a|i a|i a].
  - destruct (main_step_frame _ _ _ _ Hstep)
      as (_ & Hq & _ & [Hprocs|(n & Hp & -> & Hprocs)]).
    + eapply turn_alive_ext; eauto.
    + destruct (spawn_fresh _ _ _ Hslots Hp) as [Hn|Hn].
      * right. eapply turn_alive_move; eauto.
        intros Hne. left. by rewrite Hq.
      * rewrite list_insert_ge in Hprocs by assumption.
        eapply turn_alive_ext; eauto.
  - simpl in Hstep.
    destruct (procs s !! i) as [[|p|]|] eqn:Hi; try discriminate.
    destruct (argv s !! i) as [path|] eqn:Hpath; try discriminate.
    unfold process_img, die, ask_user, cap_html in Hstep.
    destruct p; destruct a; simpl in Hstep; repeat case_match; simplify_eq/=.
    all: try (exfalso; eapply Hquiet; simpl; by eauto).
    all: repeat match goal with
           | H : (index_of _ =? 1)%Z = true |- _ => apply index_of_first in H
           | H : (index_of _ =? 1)%Z = false |- _ => apply index_of_later in H
           end.
    all: try subst i.
    all: right; eapply turn_alive_move; [exact Halive|exact Hi|reflexivity|..]; simpl.
    all: try (intros _; right; reflexivity).
    all: try (intros _; left; by destruct (ptp2 s)).
    all: try (intros Hne; left; exact Hne).
    all: try (unfold holds_turn; simpl; rewrite ?andb_true_r, ?andb_false_r;
              intros Hh; right; by rewrite ?Hh).
  - destruct (html_step_frame _ _ _ _ _ Hstep)
      as (Hprocs & _ & _ & _ & _ & Hq & _).
    eapply turn_alive_ext; eauto.
Qed.

Lemma before_gate_in_turn (w : proc) : before_gate w = true -> in_turn w = true.
Proof. destruct w as [|[]|]; simpl; auto. Qed.

(** A step of a worker that keeps the turn values and the gate signals
    there are. *)
Lemma gate_ready_move (s s' : sys) (i : nat) (w0 w : proc) :
  gate_ready s -> procs s !! i = Some w0 -> procs s' = <[i:=w]> (procs s) ->
  (forall g, In g (ptp1 s) -> In g (ptp1 s')) ->
  (forall t, token_at s' t -> token_at s t) ->
  (before_gate w = true ->
   before_gate w0 = true \/ i = 0 \/ token_at s (index_of i)) ->
  (w0 = Running AtSendGate ->
   w = Running AtSendGate \/ In (index_of (S i)) (ptp1 s')) ->
  gate_ready s'.
Proof.
  intros Hready Hi Hprocs Hp1 Htok Hbefore Hsend j Hdue.
  assert (i < length (procs s)) as Hlt by (eapply lookup_lt_Some; eauto).
  assert (gate_due s j) as Hold.
  { destruct Hdue as [Ht|(w' & Hw' & Hb)]; [left; auto|].
    rewrite Hprocs in Hw'. destruct (decide (S j = i)) as [Heq|Hne].
    - rewrite Heq, list_lookup_insert_eq in Hw' by exact Hlt.
      inversion Hw'; subst w'.
      destruct (Hbefore Hb) as [H0|[H0|H0]].
      + right. exists w0. rewrite Heq. auto.
      + lia.
      + left. rewrite Heq. exact H0.
    - rewrite list_lookup_insert_ne in Hw' by auto. right. eauto. }
  rewrite Hprocs. destruct (Hready j Hold) as [Hj|Hin]; [|auto].
  destruct (decide (j = i)) as [->|Hne].
  - rewrite Hi in Hj. inversion Hj; subst.
    destruct (Hsend eq_refl) as [->|?]; [left|auto].
    by apply list_lookup_insert_eq.
  - left. by rewrite list_lookup_insert_ne.
Qed.

(** After a step of the worker that has the turn, which leaves it past
    the gate, no gate is due but for the turn value the step wrote. *)
Lemma gate_due_after_turn (s s' : sys) (i j : nat) (w0 w : proc) (t0 : Z) :
  turn_ok s -> procs s !! i = Some w0 -> in_turn w0 = true ->
  procs s' = <[i:=w]> (procs s) -> before_gate w = false ->
  (forall t, w <> Running (AtTurnResend t)) ->
  (forall t, In t (ptp2 s') -> In t (ptp2 s) \/ t = t0) ->
  gate_due s' j -> index_of (S j) = t0 /\ In t0 (ptp2 s').
Proof.
  intros Hturn Hi Hin Hprocs Hw Hres Hpipe Hdue.
  pose proof Hturn as (_ & _ & _ & T3 & _).
  assert (forall t, ~ token_at s t) as Hno.
  { intros t. eapply no_token_in_turn; eauto. }
  destruct Hdue as [[Ht|[k Hk]]|(w' & Hw' & Hb)].
  - destruct (Hpipe _ Ht) as [Hold|Heq].
    + destruct (Hno _ (or_introl Hold)).
    + split; [exact Heq|]. rewrite <- Heq. exact Ht.
  - rewrite Hprocs in Hk. apply lookup_insert_cases in Hk as [[_ Hk]|[_ Hk]].
    + symmetry in Hk. destruct (Hres _ Hk).
    + destruct (Hno (index_of (S j))). right. eauto.
  - rewrite Hprocs in Hw'. exfalso. destruct (decide (S j = i)) as [Heq|Hne].
    + assert (i < length (procs s)) as Hlt by (eapply lookup_lt_Some; eauto).
      rewrite Heq, list_lookup_insert_eq in Hw' by exact Hlt.
      inversion Hw'; subst w'. congruence.
    + rewrite list_lookup_insert_ne in Hw' by auto. apply Hne.
      apply (T3 (S j) i w' w0 Hw' Hi); apply holds_turn_cases; left;
        auto using before_gate_in_turn.
Qed.

Lemma gate_ready_ext (s s' : sys) :
  gate_ready s -> procs s' = procs s -> ptp1 s' = ptp1 s -> ptp2 s' = ptp2 s ->
  gate_ready s'.
Proof. unfold gate_ready, gate_due, token_at. intros H -> -> ->. exact H. Qed.

Local Ltac tokens_kept Hi :=
  eapply token_at_move;
  [ reflexivity
  | intros t Ht; simpl in Ht;
    first [ by (left; exact Ht)
          | by (left; match goal with H : ptp2 _ = _ |- _ => rewrite H end;
                simpl; auto)
          | (apply in_app_or in Ht as [Ht|[<-|[]]];
             [by left | right; eexists; exact Hi]) ]
  | intros t Ht; simplify_eq/=;
    try (left; match goal with H : ptp2 _ = _ |- _ => rewrite H end;
         simpl; by auto) ].

Lemma step_gate_ready (s s' : sys) (tr evs : list event) (act : action) :
  slots_ok s tr -> turn_ok s -> gate_ready s ->
  step act s = Some (s', evs) -> quiet evs -> gate_ready s'.
Proof.
  intros Hslots Hturn Hready Hstep Hquiet. destruct act as [a|i a|i a].
  - destruct (main_step_frame _ _ _ _ Hstep)
      as (Hq1 & Hq & _ & [Hprocs|(n & Hp & -> & Hprocs)]).
    + eapply gate_ready_ext; eauto.
    + destruct (spawn_fresh _ _ _ Hslots Hp) as [Hn|Hn].
      * eapply gate_ready_move; eauto; try discriminate.
        -- intros g. by rewrite Hq1.
        -- eapply token_at_move; eauto; [|discriminate].
           intros t Ht. left. by rewrite <- Hq.
      * rewrite list_insert_ge in Hprocs by assumption.
        eapply gate_ready_ext; eauto.
  - simpl in Hstep.
    destruct (procs s !! i) as [[|p|]|] eqn:Hi; try discriminate.
    destruct (argv s !! i) as [path|] eqn:Hpath; try discriminate.
    unfold process_img, die, ask_user, cap_html in Hstep.
    destruct p; destruct a; simpl in Hstep; repeat case_match; simplify_eq/=.
    all: try (exfalso; eapply Hquiet; simpl; by eauto).
    all: repeat match goal with
           | H : (index_of _ =? 1)%Z = true |- _ => apply index_of_first in H
           | H : (index_of _ =? 1)%Z = false |- _ => apply index_of_later in H
           | H : (_ =? _)%Z = true |- _ => apply Z.eqb_eq in H
           | H : (_ =? _)%Z = false |- _ => apply Z.eqb_neq in H
           end.
    all: try (eapply gate_ready_move; [exact Hready|exact Hi|reflexivity|..]; simpl;
              [ by auto
              | tokens_kept Hi
              | try discriminate; try (intros _; by auto);
                intros _; right; right; left;
                match goal with H : ptp2 _ = _ |- _ => rewrite H end; simpl; by auto
              | try discriminate;
                intros _; right; apply in_or_app; right; left;
                unfold index_of; lia ]; done).
    + (* the gate signal is read *)
      intros j Hdue. exfalso.
      assert (In 0%Z (ptp2 s)) as Hin.
      { match type of Hdue with
        | gate_due ?s1 _ =>
            apply (gate_due_after_turn s s1 i j _ (Running AtDisplay) 0%Z Hturn Hi
                     eq_refl eq_refl eq_refl); [discriminate | simpl; by auto | exact Hdue]
        end. }
      apply (no_token_in_turn s i _ 0%Z Hturn Hi eq_refl). left. exact Hin.
    + (* the turn is handed on *)
      intros j Hdue.
      assert (index_of (S j) = (index_of i + 1)%Z) as Heq.
      { match type of Hdue with
        | gate_due ?s1 _ =>
            apply (gate_due_after_turn s s1 i j _ (Running AtSendGate) _ Hturn Hi
                     eq_refl eq_refl eq_refl); [discriminate | | exact Hdue]
        end.
        simpl. intros t Ht. apply in_app_or in Ht as [Ht|[<-|[]]]; auto. }
      assert (j = i) as -> by (unfold index_of in Heq; lia).
      left. simpl. apply list_lookup_insert_eq. eapply lookup_lt_Some; eauto.
    + (* the gate signal is sent *)
      eapply gate_ready_move; [exact Hready|exact Hi|reflexivity|..]; simpl.
      * intros g Hg. apply in_or_app. auto.
      * tokens_kept Hi.
      * discriminate.
      * intros _. right. apply in_or_app. right. left. unfold index_of. lia.
  - destruct (html_step_frame _ _ _ _ _ Hstep)
      as (Hprocs & _ & _ & _ & Hq1 & Hq & _).
    eapply gate_ready_ext; eauto.
Qed.

Lemma step_alive (s s' : sys) (tr evs : list event) (act : action) :
  slots_ok s tr -> turn_ok s -> alive_ok s tr ->
  step act s = Some (s', evs) -> alive_ok s' (tr ++ evs).
Proof.
  intros Hslots Hturn Hok Hstep Hquiet.
  apply quiet_app in Hquiet as [Hq Hqe].
  destruct (Hok Hq) as [Halive Hready]. split.
  - eapply step_turn_alive; eauto.
  - eapply step_gate_ready; eauto.
Qed.

Lemma run_keeps_alive (paths : list string) (html0 : list block)
    (sched : list action) (s : sys) (tr : list event) :
  run sched (start paths html0) = Some (s, tr) ->
  invariant paths s tr /\ reaped s tr /\ alive_ok s tr.
Proof.
  apply (run_invariant
           (fun s tr => invariant paths s tr /\ reaped s tr /\ alive_ok s tr)).
  - split_and!; [apply start_invariant | apply start_reaped | apply start_alive].
  - intros s0 tr0 act s1 evs (Hinv & Hr & Ha) Hstep.
    pose proof Hinv as (_ & _ & Hslots & Hturn & _).
    split_and!.
    + eapply step_invariant; eauto.
    + eapply step_reaped; eauto.
    + eapply step_alive; eauto.
Qed.

End Progress.

Section ProgressFacts.

Local Ltac old_or_new H :=
  apply lookup_insert_cases in H as [[? ?]|[? H]];
  [repeat match goal with E : ?x = _ |- _ => is_var x; subst x end|].

Lemma in_spawned (tr : list event) (j : nat) :
  In j (spawned tr) <-> In (EvSpawn j) tr.
Proof.
  unfold spawned. rewrite in_flat_map. split.
  - intros (e & He & Hj). destruct e; simpl in Hj; try destruct Hj as [Hj|[]];
      try contradiction. by subst.
  - intros H. exists (EvSpawn j). simpl. auto.
Qed.

Lemma step_forked (s s' : sys) (tr evs : list event) (act : action) :
  pool_ok s -> slots_ok s tr -> forked_ok s tr ->
  step act s = Some (s', evs) -> forked_ok s' (tr ++ evs).
Proof.
  intros [_ Hpool] (_ & Hlw & _) Hok Hstep j Hin. destruct act as [a|i a|i a].
  - simpl in Hstep. unfold process in Hstep.
    destruct (parent s) as [|n|n k num|n|n|n|st] eqn:Hp; destruct a;
      simpl in Hstep; try discriminate;
      repeat case_match; simplify_eq/=;
      apply in_app_or in Hin as [Hin|Hin];
      try (simpl in Hin; intuition congruence); auto.
    + destruct (Hok _ Hin) as (w & Hw & Hne).
      destruct (decide (j = n)) as [->|Hjn].
      * exists (Running AtResize). split; [|discriminate].
        apply list_lookup_insert_eq. eapply lookup_lt_Some; eauto.
      * exists w. by rewrite list_lookup_insert_ne.
    + destruct Hin as [Hin|[]]. inversion Hin; subst j.
      exists (Running AtResize). split; [|discriminate].
      apply list_lookup_insert_eq. destruct Hpool as [_ Hlt]. lia.
  - destruct (work_step_frame _ _ _ _ _ Hstep)
      as (p & w & Hi & Hprocs & Hne & _ & _ & _ & Hsp & _).
    rewrite Hprocs. apply in_app_or in Hin as [Hin|Hin].
    + destruct (Hok _ Hin) as (w' & Hw' & Hne').
      destruct (decide (j = i)) as [->|Hji].
      * exists w. split; [|exact Hne].
        apply list_lookup_insert_eq. eapply lookup_lt_Some; eauto.
      * exists w'. by rewrite list_lookup_insert_ne.
    + apply in_spawned in Hin. rewrite Hsp in Hin. destruct Hin.
  - destruct (html_step_frame _ _ _ _ _ Hstep)
      as (Hprocs & _ & _ & _ & _ & _ & rc & Hevs).
    rewrite Hprocs. apply in_app_or in Hin as [Hin|Hin]; [auto|].
    destruct Hevs as [->|[msg ->]]; simpl in Hin; intuition discriminate.
Qed.

Lemma start_forked (paths : list string) (html0 : list block) :
  forked_ok (start paths html0) [].
Proof. intros j []. Qed.

Lemma run_keeps_progress (paths : list string) (html0 : list block)
    (sched : list action) (s : sys) (tr : list event) :
  run sched (start paths html0) = Some (s, tr) ->
  invariant paths s tr /\ reaped s tr /\ alive_ok s tr /\ forked_ok s tr.
Proof.
  apply (run_invariant
           (fun s tr => invariant paths s tr /\ reaped s tr /\ alive_ok s tr /\
                        forked_ok s tr)).
  - split_and!; [apply start_invariant | apply start_reaped | apply start_alive
                | apply start_forked].
  - intros s0 tr0 act s1 evs (Hinv & Hr & Ha & Hf) Hstep.
    pose proof Hinv as (_ & Hpool & Hslots & Hturn & _).
    split_and!.
    + eapply step_invariant; eauto.
    + eapply step_reaped; eauto.
    + eapply step_alive; eauto.
    + eapply step_forked; eauto.
Qed.

(** A worker that is not waiting at an empty pipe can take a step in
    which no system call fails. *)
Lemma worker_can_step (s : sys) (i : nat) (p : pc) :
  procs s !! i = Some (Running p) -> length (procs s) = length (argv s) ->
  (p = AtTurnRead -> ptp2 s <> []) -> (p = AtGateRead -> ptp1 s <> []) ->
  can_go s i.
Proof.
  intros Hi Hlen Hturn Hgate.
  assert (exists path, argv s !! i = Some path) as [path Hpath].
  { apply lookup_lt_is_Some_2. rewrite <- Hlen. eapply lookup_lt_Some; eauto. }
  exists (match p with AtAskUser | AtAskCaption => Line EmptyString | _ => Ok end).
  simpl. rewrite Hi, Hpath.
  destruct p; simpl;
    try (do 2 eexists; split_and!; [discriminate|reflexivity|];
         intros msg Hin; simpl in Hin; by intuition congruence).
  - destruct (ptp2 s) as [|v rest]; [by destruct Hturn|].
    do 2 eexists; split_and!; [discriminate|reflexivity|].
    intros msg [Hin|[]]. discriminate.
  - destruct (ptp1 s) as [|v rest]; [by destruct Hgate|].
    do 2 eexists; split_and!; [discriminate|reflexivity|].
    intros msg [Hin|[]]. discriminate.
Qed.

(** While nothing has failed, a running worker can take a step, or it
    waits at an empty pipe for a worker that can: at the gate for the
    worker before it, at the turn pipe for the worker that has the turn
    value, which itself goes on or waits at the gate. *)
Lemma worker_goes (paths : list string) (html0 : list block)
    (sched : list action) (s : sys) (tr : list event) (r : nat) (p : pc) :
  run sched (start paths html0) = Some (s, tr) -> quiet tr ->
  procs s !! r = Some (Running p) ->
  can_go s r \/
  (waits_gate s r /\ can_go s (pred r)) \/
  exists h, waits_turn s r h /\
            (can_go s h \/ (waits_gate s h /\ can_go s (pred h))).
Proof.
  intros Hrun Hquiet Hr.
  destruct (run_keeps_progress _ _ _ _ _ Hrun)
    as ((_ & _ & Hslots & Hturn & _ & Hlinks & _) & _ & Halive & Hforked).
  destruct (Halive Hquiet) as [Hliving Hready].
  pose proof Hslots as (_ & Hlen & k & Hsp & _).
  pose proof Hturn as (T0 & _ & T2 & _).
  assert (forall i q, procs s !! i = Some (Running q) ->
                      (q = AtTurnRead -> ptp2 s <> []) ->
                      (q = AtGateRead -> ptp1 s <> []) -> can_go s i) as Hcan.
  { intros i q Hi H1 H2. eapply worker_can_step; eauto. }
  (* a worker at the gate *)
  assert (forall i, procs s !! i = Some (Running AtGateRead) ->
                    can_go s i \/ (waits_gate s i /\ can_go s (pred i))) as Hgate.
  { intros i Hi.
    destruct i as [|j]; [destruct (T0 _ Hi) as [_ ?]; congruence|].
    destruct (ptp1 s) as [|g rest] eqn:Hpipe.
    - destruct (Hready j) as [Hj|Hin].
      + right. exists (Running AtGateRead). auto.
      + right. split.
        * split_and!; [exact Hi|exact Hpipe|]. exists j. auto.
        * apply (Hcan _ _ Hj); discriminate.
      + rewrite Hpipe in Hin. destruct Hin.
    - left. apply (Hcan _ _ Hi); discriminate. }
  assert (p = AtGateRead \/ p <> AtGateRead) as [->|Hng]
    by (destruct p; auto; right; discriminate).
  { destruct (Hgate _ Hr) as [?|?]; auto. }
  assert (p = AtTurnRead \/ p <> AtTurnRead) as [->|Hnt]
    by (destruct p; auto; right; discriminate);
    [|left; apply (Hcan _ _ Hr); contradiction].
  destruct (ptp2 s) as [|v rest] eqn:Hpipe;
    [|left; apply (Hcan _ _ Hr); discriminate].
  (* the turn value is with a worker *)
  right. right.
  destruct Hliving as [Hnil|[Hne|(h & w & Hh & Hhold)]];
    [rewrite Hnil in Hr; discriminate | by destruct Hne |].
  assert (exists q, w = Running q) as [q ->].
  { destruct w as [|q|st]; [|eauto|].
    - (* worker 0, and it is forked since worker r is *)
      exfalso. apply holds_turn_cases in Hhold as [?|[[? ?]|[-> _]]]; try discriminate.
      destruct Hlinks as [Hknown _]. destruct (Hknown _ _ Hr) as [Hspawn _].
      apply in_spawned in Hspawn. rewrite Hsp in Hspawn. apply in_seq in Hspawn.
      assert (In 0 (spawned tr)) as H0 by (rewrite Hsp; apply in_seq; lia).
      apply in_spawned in H0. destruct (Hforked _ H0) as (w' & Hw' & Hne').
      congruence.
    - apply holds_turn_cases in Hhold as [?|[[? ?]|[_ ?]]]; discriminate. }
  assert (q <> AtTurnRead) as Hq.
  { intros ->. apply holds_turn_cases in Hhold as [?|[[? ?]|[-> _]]]; try discriminate.
    destruct (T0 _ Hh) as [? _]. discriminate. }
  exists h. split.
  - split_and!; [exact Hr|exact Hpipe| |eauto].
    intros ->. rewrite Hr in Hh. inversion Hh. congruence.
  - assert (q = AtGateRead \/ q <> AtGateRead) as [->|Hqg]
      by (destruct q; auto; right; discriminate).
    + apply (Hgate _ Hh).
    + left. apply (Hcan _ _ Hh); contradiction.
Qed.

End ProgressFacts.

(** X14.  No deadlock without a failure.  In every state reached by a run
    in which nothing was printed on stderr (no call has failed), each
    worker still running can take a step with an answer that is not a
    failure and prints nothing, or it waits at an empty pipe for a worker
    that can: at the read of line 503 for the worker just before it,
    which stands at the write of line 579; at the read of line 450 for
    the worker that has the turn value in hand, which either goes on or
    waits at line 503 in the same way.  And as long as process() has not
    returned, the parent can take a step without failure, or it waits for
    a worker and some worker can. *)
Theorem no_deadlock (paths : list string) (html0 : list block)
    (sched : list action) (s : sys) (tr : list event) :
  run sched (start paths html0) = Some (s, tr) -> quiet tr ->
  (forall r p,
      procs s !! r = Some (Running p) ->
      can_go s r \/
      (waits_gate s r /\ can_go s (pred r)) \/
      exists h, waits_turn s r h /\
                (can_go s h \/ (waits_gate s h /\ can_go s (pred h)))) /\
  ((forall st, parent s <> Returned st) ->
   (exists s' evs, step (Main Ok) s = Some (s', evs) /\ quiet evs) \/
   (exists n c, parent s = AtReap n /\ pid s !! n = Some (Some c) /\
                is_running (procs s !! c) = true /\ exists i, can_go s i)).
Proof.
  intros Hrun Hquiet.
  assert (forall r p,
             procs s !! r = Some (Running p) ->
             can_go s r \/
             (waits_gate s r /\ can_go s (pred r)) \/
             exists h, waits_turn s r h /\
                       (can_go s h \/ (waits_gate s h /\ can_go s (pred h))))
    as Hwork.
  { intros r p Hr. eapply worker_goes; eauto. }
  split; [exact Hwork|]. intros Hp.
  destruct (run_keeps_progress _ _ _ _ _ Hrun)
    as ((_ & _ & Hslots & _) & Hreaped & _ & Hforked).
  destruct Hslots as (Hlp & Hlw & k & Hsp & _ & Hlow & _).
  assert (forall s1 evs, step (Main Ok) s = Some (s1, evs) ->
                         (forall msg, ~ In (EvStderr msg) evs) ->
                         exists s' evs, step (Main Ok) s = Some (s', evs) /\ quiet evs)
    as Hmain.
  { intros s1 evs H1 H2. exists s1, evs. auto. }
  unfold reaped in Hreaped.
  destruct (parent s) as [|n|n j num|n|n|n|st] eqn:Hparent.
  - left. eapply Hmain; [simpl; rewrite Hparent; reflexivity|]. intros msg [].
  - left. eapply Hmain; [simpl; rewrite Hparent; reflexivity|]. intros msg [].
  - left. destruct (j <? length (argv s))%nat eqn:E.
    + pose proof (proj1 (Nat.ltb_lt _ _) E) as Hlt.
      destruct (lookup_lt_is_Some_2 (pid s) j ltac:(lia)) as [[c|] Hc];
        (eapply Hmain; [simpl; rewrite Hparent; simpl; rewrite E, Hc; reflexivity|]);
        intros msg [].
    + eapply Hmain; [simpl; rewrite Hparent; simpl; rewrite E; reflexivity|].
      intros msg [].
  - left. eapply Hmain; [simpl; rewrite Hparent; reflexivity|]. intros msg [].
  - left. eapply Hmain; [simpl; rewrite Hparent; reflexivity|].
    intros msg [Hin|[]]. discriminate.
  - destruct Hreaped as [Hall _].
    rewrite Hall in Hsp. apply seq_inj in Hsp. subst k.
    destruct (n <? length (argv s))%nat eqn:E.
    + pose proof (proj1 (Nat.ltb_lt _ _) E) as Hlt.
      assert (In (EvSpawn n) tr) as Hspawn.
      { apply in_spawned. rewrite Hall. apply in_seq. lia. }
      destruct (Hforked _ Hspawn) as (w & Hw & Hne).
      destruct w as [|p|x]; [contradiction| |].
      * right. exists n, n. split_and!; [reflexivity|exact (Hlow n Hlt)|by rewrite Hw|].
        destruct (Hwork _ _ Hw) as [H|[[_ H]|(h & _ & [H|[_ H]])]]; eauto.
      * left. eapply Hmain;
          [simpl; rewrite Hparent; simpl; rewrite E, (Hlow n Hlt), Hw; reflexivity|].
        intros msg [].
    + left. eapply Hmain; [simpl; rewrite Hparent; simpl; rewrite E; reflexivity|].
      intros msg [Hin|[]]. discriminate.
  - destruct (Hp st eq_refl).
Qed.

(** The second worker stands at the gate, the first at the write of line
    579. *)
Lemma no_deadlock_witness :
  match run two_at_gate (start two_paths []) with
  | Some (s, tr) =>
      can_go s 1 \/
      (waits_gate s 1 /\ can_go s 0) \/
      exists h, waits_turn s 1 h /\
                (can_go s h \/ (waits_gate s h /\ can_go s (pred h)))
  | None => False
  end.
Proof.
  destruct (run two_at_gate (start two_paths [])) as [[s tr]|] eqn:Hrun.
  - refine (proj1 (no_deadlock _ _ _ _ _ Hrun _) 1 AtGateRead _);
      vm_compute in Hrun; inversion Hrun; subst.
    + intros msg Hin. simpl in Hin. intuition discriminate.
    + reflexivity.
  - vm_compute in Hrun. discriminate.
Defined.

(** ** A run to the end, one image after the other *)

Section WholeRun.

Lemma run_cons (act : action) (rest : list action) (s s1 s2 : sys)
    (evs tr : list event) :
  step act s = Some (s1, evs) -> run rest s1 = Some (s2, tr) ->
  run (act :: rest) s = Some (s2, evs ++ tr).
Proof. intros H1 H2. simpl. rewrite H1, H2. reflexivity. Qed.

Lemma run_seq (sched1 sched2 : list action) (s s1 s2 : sys) (tr1 tr2 : list event) :
  run sched1 s = Some (s1, tr1) -> run sched2 s1 = Some (s2, tr2) ->
  run (sched1 ++ sched2) s = Some (s2, tr1 ++ tr2).
Proof. intros H1 H2. rewrite run_app, H1, H2. reflexivity. Qed.

(** A step of worker [i], from what process_img does. *)
Lemma run_work (i : nat) (a : answer) (rest : list action) (s s1 s2 : sys)
    (p : pc) (path : string) (w : proc) (evs tr : list event) :
  procs s !! i = Some (Running p) -> argv s !! i = Some path ->
  process_img i path p a s = Some (w, s1, evs) ->
  run rest (set_procs (<[i:=w]> (procs s1)) s1) = Some (s2, tr) ->
  run (Work i a :: rest) s = Some (s2, evs ++ tr).
Proof.
  intros Hi Hpath Hp Hrest. eapply run_cons; [|exact Hrest].
  simpl. rewrite Hi, Hpath, Hp. reflexivity.
Qed.

Lemma set_parent_id (s : sys) (p : ppc) : parent s = p -> set_parent p s = s.
Proof. destruct s. simpl. intros ->. reflexivity. Qed.

(** concurrent() over slots that hold the pid of a worker that does not
    run. *)
Lemma polls_assigned (a : nat) (s : sys) (i j : nat) (num : Z) :
  parent s = AtPoll i j num ->
  (forall x, j <= x < j + a ->
             x < length (argv s) /\
             exists c, pid s !! x = Some (Some c) /\ is_running (procs s !! c) = false) ->
  run (repeat (Main Ok) a) s = Some (set_parent (AtPoll i (j + a) num) s, []).
Proof.
  revert s j. induction a as [|a IH]; intros s j Hp Hslots.
  - simpl. rewrite Nat.add_0_r, set_parent_id by exact Hp. reflexivity.
  - destruct (Hslots j ltac:(lia)) as (Hlt & c & Hc & Hrun).
    apply Nat.ltb_lt in Hlt.
    change (repeat (Main Ok) (S a)) with (Main Ok :: repeat (Main Ok) a).
    apply (run_cons _ _ s (set_parent (AtPoll i (S j) num) s) _ [] []).
    + simpl. rewrite Hp. simpl. rewrite Hlt, Hc, Hrun. reflexivity.
    + rewrite (IH (set_parent (AtPoll i (S j) num) s) (S j)); [|reflexivity|].
      * simpl. rewrite Nat.add_succ_r. reflexivity.
      * intros x Hx. simpl. apply Hslots. lia.
Qed.

(** concurrent() over slots never assigned, the test of line 599 failing
    for each. *)
Lemma polls_unset (b : nat) (s : sys) (i j : nat) (num : Z) :
  parent s = AtPoll i j num ->
  (forall x, j <= x < j + b -> x < length (argv s) /\ pid s !! x = Some None) ->
  run (repeat (Main Err) b) s = Some (set_parent (AtPoll i (j + b) num) s, []).
Proof.
  revert s j. induction b as [|b IH]; intros s j Hp Hslots.
  - simpl. rewrite Nat.add_0_r, set_parent_id by exact Hp. reflexivity.
  - destruct (Hslots j ltac:(lia)) as (Hlt & Hc).
    apply Nat.ltb_lt in Hlt.
    change (repeat (Main Err) (S b)) with (Main Err :: repeat (Main Err) b).
    apply (run_cons _ _ s (set_parent (AtPoll i (S j) num) s) _ [] []).
    + simpl. rewrite Hp. simpl. rewrite Hlt, Hc. reflexivity.
    + rewrite (IH (set_parent (AtPoll i (S j) num) s) (S j)); [|reflexivity|].
      * simpl. rewrite Nat.add_succ_r. reflexivity.
      * intros x Hx. simpl. apply Hslots. lia.
Qed.

(** The loop of lines 669-670 over workers that have exited. *)
Lemma reaps (a : nat) (s : sys) (j : nat) :
  parent s = AtReap j ->
  (forall x, j <= x < j + a ->
             x < length (argv s) /\
             exists c, pid s !! x = Some (Some c) /\ is_exited (procs s !! c) = true) ->
  run (repeat (Main Ok) a) s = Some (set_parent (AtReap (j + a)) s, []).
Proof.
  revert s j. induction a as [|a IH]; intros s j Hp Hslots.
  - simpl. rewrite Nat.add_0_r, set_parent_id by exact Hp. reflexivity.
  - destruct (Hslots j ltac:(lia)) as (Hlt & c & Hc & Hex).
    apply Nat.ltb_lt in Hlt.
    change (repeat (Main Ok) (S a)) with (Main Ok :: repeat (Main Ok) a).
    apply (run_cons _ _ s (set_parent (AtReap (S j)) s) _ [] []).
    + simpl. rewrite Hp. simpl. rewrite Hlt, Hc, Hex. reflexivity.
    + rewrite (IH (set_parent (AtReap (S j)) s) (S j)); [|reflexivity|].
      * simpl. rewrite Nat.add_succ_r. reflexivity.
      * intros x Hx. simpl. apply Hslots. lia.
Qed.

Lemma quiet_forks (i : nat) (cmds : list cmd) : quiet (map (EvFork i) cmds).
Proof. intros msg Hin. apply in_map_iff in Hin as (c & Hc & _). discriminate. Qed.

Lemma run_html (i : nat) (rest : list action) (s s2 : sys) (path : string)
    (tr : list event) :
  kids s = [i] -> argv s !! i = Some path ->
  run rest (set_kids [] (set_index_html
              (fwrite (w_or_a (index_of i)) (link_of path) (index_html s)) s))
  = Some (s2, tr) ->
  run (Html i Ok :: rest) s = Some (s2, [EvImgHtml i 0] ++ tr).
Proof.
  intros Hk Hpath Hrest. eapply run_cons; [|exact Hrest].
  simpl. rewrite Hk, Hpath. simpl. rewrite Nat.eqb_refl. reflexivity.
Qed.

Local Ltac work_step Hlt Hidx :=
  eapply run_work;
  [ simpl; rewrite ?list_insert_insert_eq;
    first [ eassumption
          | apply list_lookup_insert_eq; exact Hlt ]
  | simpl; eassumption
  | unfold process_img, ask_user, cap_html; simpl;
    rewrite ?Hidx, ?Z.eqb_refl; reflexivity
  | unfold set_procs, set_ptp1, set_ptp2, set_kids, set_index_html;
    cbn [procs argv parent pid ptp1 ptp2 kids index_html];
    rewrite ?list_insert_insert_eq ].

Lemma index_of_next (i : nat) : index_of (S i) = (index_of i + 1)%Z.
Proof. unfold index_of. lia. Qed.

Local Opaque index_of.

Local Ltac worker_quiet :=
  repeat (apply quiet_app; split);
  first [ apply quiet_forks
        | intros msg Hin; simpl in Hin; intuition discriminate ].

Local Ltac html_step :=
  eapply run_html;
  [ reflexivity
  | simpl; eassumption
  | unfold set_procs, set_ptp1, set_ptp2, set_kids, set_index_html;
    cbn [procs argv parent pid ptp1 ptp2 kids index_html] ].

Lemma worker_run_first (reply caption : string) :
  worker_run 0 reply caption
  = [Work 0 Ok; Work 0 Ok; Html 0 Ok; Work 0 Ok; Work 0 Ok; Work 0 Ok;
     Work 0 (Line reply); Work 0 (Line caption);
     Work 0 Ok; Work 0 Ok; Work 0 Ok; Work 0 Ok].
Proof. reflexivity. Qed.

Lemma worker_run_later (i : nat) (reply caption : string) :
  worker_run (S i) reply caption
  = [Work (S i) Ok; Work (S i) Ok; Work (S i) Ok; Html (S i) Ok; Work (S i) Ok;
     Work (S i) Ok; Work (S i) Ok; Work (S i) Ok;
     Work (S i) (Line reply); Work (S i) (Line caption);
     Work (S i) Ok; Work (S i) Ok; Work (S i) Ok; Work (S i) Ok].
Proof. reflexivity. Qed.

(** A worker from its fork to its exit, alone. *)
Lemma worker_runs (s : sys) (i : nat) (path reply caption : string) :
  procs s !! i = Some (Running AtResize) -> argv s !! i = Some path ->
  kids s = [] ->
  ptp1 s = (if (i =? 0)%nat then [] else [index_of i]) ->
  ptp2 s = (if (i =? 0)%nat then [] else [index_of i]) ->
  exists s' tr,
    run (worker_run i reply caption) s = Some (s', tr) /\ quiet tr /\
    argv s' = argv s /\ parent s' = parent s /\ pid s' = pid s /\
    procs s' = <[i:=Exited 0]> (procs s) /\
    ptp1 s' = [index_of (S i)] /\ ptp2 s' = [index_of (S i)] /\ kids s' = [] /\
    index_html s'
    = fwrite (w_or_a (index_of i)) (link_of path) (index_html s) ++ [CapBlock caption].
Proof.
  intros Hi Hpath Hk Hq1 Hq2.
  assert (i < length (procs s)) as Hlt by (eapply lookup_lt_Some; eauto).
  pose proof (index_of_next i) as Hnext.
  destruct s as [argv0 parent0 pid0 procs0 q1 q2 kids0 file0].
  simpl in Hi, Hpath, Hk, Hq1, Hq2, Hlt. subst.
  destruct i as [|i].
  - rewrite worker_run_first. cbn [Nat.eqb].
    assert ((index_of 0 =? 1)%Z = true) as Hidx by (vm_compute; reflexivity).
    do 2 eexists. split.
    + do 2 (work_step Hlt Hidx). html_step. do 9 (work_step Hlt Hidx).
      reflexivity.
    + split_and!; try reflexivity; [worker_quiet|..].
      all: simpl; rewrite Hnext; reflexivity.
  - rewrite worker_run_later. cbn [Nat.eqb].
    pose proof (proj2 (index_of_later (S i)) (Nat.neq_succ_0 i)) as Hidx.
    do 2 eexists. split.
    + do 3 (work_step Hlt Hidx). html_step. do 10 (work_step Hlt Hidx).
      reflexivity.
    + split_and!; try reflexivity; [worker_quiet|..].
      all: simpl; rewrite Hnext; reflexivity.
Qed.

Local Transparent index_of.

(** One round of the loop of process() with every earlier worker gone:
    concurrent() counts nobody and the next worker is forked. *)
Lemma forks_next (s : sys) (i : nat) :
  parent s = AtLoop i -> i < length (argv s) ->
  (forall x, x < i ->
             exists c, pid s !! x = Some (Some c) /\ is_running (procs s !! c) = false) ->
  (forall x, i <= x < length (argv s) -> pid s !! x = Some None) ->
  run (poll_and_fork i (length (argv s) - i)) s
  = Some (set_parent (AtLoop (S i))
            (set_pid (<[i:=Some i]> (pid s))
               (set_procs (<[i:=Running AtResize]> (procs s)) s)),
          [EvSpawn i]).
Proof.
  intros Hp Hi Hdone Htodo.
  assert (run (poll_and_fork i (length (argv s) - i)) s
          = Some (set_parent (AtLoop (S i))
                    (set_pid (<[i:=Some i]> (pid s))
                       (set_procs (<[i:=Running AtResize]> (procs s)) s)),
                  [] ++ ([] ++ ([] ++ ([] ++ ([EvSpawn i] ++ [])))))) as H;
    [|exact H].
  unfold poll_and_fork.
  eapply (run_cons _ _ s (set_parent (AtPoll i 0 0) s)).
  { simpl. rewrite Hp. simpl. rewrite (proj2 (Nat.ltb_lt _ _) Hi). reflexivity. }
  eapply (run_seq _ _ _ (set_parent (AtPoll i i 0) s)).
  { rewrite (polls_assigned i (set_parent (AtPoll i 0 0) s) i 0 0); [reflexivity..|].
    intros x Hx. simpl. split; [lia|]. apply Hdone. lia. }
  eapply (run_seq _ _ _ (set_parent (AtPoll i (length (argv s)) 0) s)).
  { rewrite (polls_unset (length (argv s) - i) (set_parent (AtPoll i i 0) s) i i 0);
      [|reflexivity|].
    - simpl. replace (i + (length (argv s) - i)) with (length (argv s)) by lia.
      reflexivity.
    - intros x Hx. simpl. split; [lia|]. apply Htodo. lia. }
  eapply (run_cons _ _ _ (set_parent (AtFork i) s)).
  { simpl. rewrite Nat.ltb_irrefl. reflexivity. }
  eapply run_cons; [|reflexivity].
  reflexivity.
Qed.

(** The report once worker [i] has written its two blocks. *)
Lemma report_next (paths : list string) (html0 : list block) (i : nat)
    (caps : list string) (path caption : string) :
  length caps = i -> paths !! i = Some path ->
  fwrite (w_or_a (index_of i)) (link_of path) (report paths html0 i caps false)
    ++ [CapBlock caption]
  = report paths html0 (S i) (caps ++ [caption]) false.
Proof.
  intros Hlen Hpath. unfold report at 2. simpl.
  rewrite (entries_snoc paths caps i path caption Hlen Hpath), app_nil_r.
  destruct i as [|i].
  - destruct caps; [|discriminate]. reflexivity.
  - rewrite w_or_a_later by (unfold index_of; lia).
    unfold report, fwrite. simpl. rewrite app_nil_r, <- app_assoc. reflexivity.
Qed.

(** One image: the parent forks worker [i], which runs to its exit. *)
Lemma round (paths : list string) (html0 : list block) (i : nat)
    (caps : list string) (s : sys) (path reply caption : string) :
  between paths html0 i caps s -> paths !! i = Some path ->
  exists s' tr,
    run (poll_and_fork i (length paths - i) ++ worker_run i reply caption) s
    = Some (s', tr) /\
    quiet tr /\ between paths html0 (S i) (caps ++ [caption]) s'.
Proof.
  intros (Hargv & Hpar & Hlen & Hpids & Hprocs & Hdone & Htodo & Hq1 & Hq2 & Hk
          & Hfile) Hpath.
  assert (i < length paths) as Hi by (eapply lookup_lt_Some; eauto).
  pose proof (forks_next s i Hpar) as Hfork. rewrite Hargv in Hfork.
  specialize (Hfork Hi).
  match type of Hfork with _ -> _ -> _ = Some (?x, _) => set (s1 := x) in * end.
  destruct (worker_runs s1 i path reply caption)
    as (s' & tr & Hrun & Hquiet & Hargv' & Hpar' & Hpid' & Hprocs' & Hq1' & Hq2'
        & Hk' & Hfile'); try assumption.
  { simpl. apply list_lookup_insert_eq. lia. }
  { simpl. rewrite Hargv. exact Hpath. }
  exists s', ([EvSpawn i] ++ tr). split; [|split].
  - apply (run_seq _ _ s s1); [|exact Hrun]. apply Hfork.
    + intros x Hx. exists x. destruct (Hdone x Hx) as [Hpx Hex].
      split; [exact Hpx|]. rewrite Hex. reflexivity.
    + intros x Hx. apply (Htodo x Hx).
  - apply quiet_app. split; [|exact Hquiet].
    intros msg Hin. simpl in Hin. intuition discriminate.
  - simpl in Hargv', Hpar', Hpid', Hprocs', Hfile'.
    rewrite list_insert_insert_eq in Hprocs'.
    unfold between. rewrite Hargv', Hpar', Hpid', Hprocs', Hq1', Hq2', Hk', Hfile'.
    rewrite length_app, !length_insert, Hfile.
    split_and!; try done.
    + simpl. lia.
    + intros j Hj. destruct (decide (j = i)) as [->|Hne].
      * rewrite !list_lookup_insert_eq by lia. done.
      * rewrite !list_lookup_insert_ne by done. apply Hdone. lia.
    + intros j Hj. rewrite !list_lookup_insert_ne by lia. apply Htodo. lia.
    + apply report_next; assumption.
Qed.

Lemma one_by_one_cons (n i : nat) (reply caption : string)
    (rest : list (string * string)) :
  one_by_one n i ((reply, caption) :: rest)
  = (poll_and_fork i (n - i) ++ worker_run i reply caption)
      ++ one_by_one n (S i) rest.
Proof.
  change (one_by_one n i ((reply, caption) :: rest))
    with (poll_and_fork i (n - i) ++ worker_run i reply caption
            ++ one_by_one n (S i) rest).
  apply app_assoc.
Qed.

(** The loop of process() from image [i] on, one worker at a time. *)
Lemma rounds (paths : list string) (html0 : list block)
    (answers : list (string * string)) (i : nat) (caps : list string) (s : sys) :
  between paths html0 i caps s -> i + length answers = length paths ->
  exists s' tr,
    run (one_by_one (length paths) i answers) s = Some (s', tr) /\
    quiet tr /\
    between paths html0 (length paths) (caps ++ map snd answers) s'.
Proof.
  revert i caps s.
  induction answers as [|[reply caption] rest IH]; intros i caps s Hs Hlen.
  - simpl in Hlen. rewrite Nat.add_0_r in Hlen. subst i.
    exists s, []. simpl. rewrite app_nil_r.
    split_and!; [reflexivity| |exact Hs]. intros msg [].
  - simpl in Hlen.
    destruct (lookup_lt_is_Some_2 paths i ltac:(lia)) as [path Hpath].
    destruct (round paths html0 i caps s path reply caption Hs Hpath)
      as (s1 & tr1 & Hrun1 & Hquiet1 & Hs1).
    destruct (IH (S i) (caps ++ [caption]) s1 Hs1 ltac:(lia))
      as (s2 & tr2 & Hrun2 & Hquiet2 & Hs2).
    exists s2, (tr1 ++ tr2). split_and!.
    + rewrite one_by_one_cons. eapply run_seq; eassumption.
    + apply quiet_app. split; assumption.
    + simpl map. rewrite cons_middle, app_assoc. exact Hs2.
Qed.

(** The state after the pipe() calls. *)
Lemma between_start (paths : list string) (html0 : list block) :
  between paths html0 0 [] (set_parent (AtLoop 0) (start paths html0)).
Proof.
  unfold between. simpl. rewrite !length_replicate.
  split_and!; try reflexivity.
  - intros j Hj. lia.
  - intros j Hj. rewrite !lookup_replicate. split; split; (reflexivity || lia).
Qed.

(** X15.  The batch can always be completed.  For every non-empty list of
    images and every reply and caption typed for each, the run in which
    the parent forks the workers one after the other, each running to its
    exit before the next is forked and each img_html child running as soon
    as it is forked, goes through without a failed call: process() returns
    0, every worker has exited with 0, no img_html child is left, and
    index.html holds the link block and the caption block of each image
    in command-line order and nothing of what it held before. *)
Theorem whole_run_completes (paths : list string) (html0 : list block)
    (answers : list (string * string)) :
  paths <> [] -> length answers = length paths ->
  exists s tr,
    run (whole_run answers) (start paths html0) = Some (s, tr) /\
    quiet tr /\ parent s = Returned 0 /\
    (forall i, i < length paths -> procs s !! i = Some (Exited 0)) /\
    kids s = [] /\
    index_html s = entries paths (map snd answers).
Proof.
  intros Hne Hlen.
  destruct (rounds paths html0 answers 0 [] _ (between_start paths html0))
    as (s1 & tr1 & Hrun1 & Hquiet1 & Hs1); [simpl; lia|].
  destruct Hs1 as (Hargv & Hpar & Hcaps & Hpids & Hprocs & Hdone & _ & _ & _ & Hk
                   & Hfile).
  set (n := length paths) in *.
  exists (set_parent (Returned 0) s1), ([] ++ tr1 ++ [] ++ [] ++ [EvReturn 0]).
  split_and!.
  - unfold whole_run. rewrite Hlen. fold n.
    apply (run_seq _ _ _ (set_parent (AtLoop 0) (start paths html0))); [reflexivity|].
    apply (run_seq _ _ _ s1); [exact Hrun1|].
    apply (run_seq _ _ _ (set_parent (AtReap 0) s1)).
    { simpl. rewrite Hpar. simpl. rewrite Hargv. fold n. rewrite Nat.ltb_irrefl.
      reflexivity. }
    apply (run_seq _ _ _ (set_parent (AtReap n) s1)).
    { rewrite (reaps n (set_parent (AtReap 0) s1) 0); [reflexivity..|].
      intros x Hx. simpl. rewrite Hargv. fold n. split; [lia|].
      exists x. destruct (Hdone x ltac:(lia)) as [Hpx Hex].
      split; [exact Hpx|]. rewrite Hex. reflexivity. }
    simpl. rewrite Hargv. fold n. rewrite Nat.ltb_irrefl. reflexivity.
  - simpl. apply quiet_app. split; [exact Hquiet1|].
    intros msg Hin. simpl in Hin. intuition discriminate.
  - reflexivity.
  - intros i Hi. simpl. apply Hdone. exact Hi.
  - exact Hk.
  - simpl. rewrite Hfile. unfold report.
    assert ((n =? 0)%nat = false) as ->.
    { apply Nat.eqb_neq. unfold n. destruct paths; [contradiction|discriminate]. }
    simpl. rewrite app_nil_r. unfold n. rewrite take_ge by lia. reflexivity.
Qed.

Lemma whole_run_completes_witness :
  exists s tr,
    run (whole_run [("1", "first"); ("3", "second")]) (start two_paths [])
    = Some (s, tr) /\
    quiet tr /\ parent s = Returned 0 /\
    (forall i, i < length two_paths -> procs s !! i = Some (Exited 0)) /\
    kids s = [] /\
    index_html s = entries two_paths (map snd [("1", "first"); ("3", "second")]).
Proof.
  apply (whole_run_completes two_paths [] [("1", "first"); ("3", "second")]).
  - discriminate.
  - reflexivity.
Defined.

End WholeRun.
